(** * Instance-group balancer and external-webhook dispatcher

    A shallow embedding of the selection, rotation-store, alias and webhook
    delivery code of the repository, with the properties its specification
    states about them.

    Sources embedded here:
    - [InstanceGroupController.transformToAlias]
      (src/api/controllers/external-webhook.controller.ts, second document);
    - [SendMessageController] (unnamed/part_008): the rotation store and the
      two selection operations;
    - [SendMessageController.sendTextWithBalancing] and
      [sendTextWithGroupBalancing] (unnamed/part_008);
    - [InstanceGroupService] (unnamed/part_006): [getActiveInstances],
      [addInstance], [removeInstance]; [InstanceGroupController.getGroupStats];
    - [ExternalWebhookService] (src/api/services/external-webhook.service.ts):
      request construction, the retry loop, the circuit breaker, the
      statistics, the signature check and the address ranges.

    The first part of the file holds the definitions, module by module; the
    second part holds the lemmas and theorems. *)

From Stdlib Require Import ZArith NArith String Ascii List Bool Lia.
From stdpp Require Import base decidable option list sorting gmap strings.

Local Open Scope Z_scope.

(* ===================================================================== *)
(** * Part I: definitions                                                  *)
(* ===================================================================== *)

(** ** Alias generation *)

Module Alias.

(** A JavaScript string is a sequence of UTF-16 code units. *)
Definition jsstring := list N.

Definition hyphen : N := 45%N.

(** [\s] of an ECMAScript regular expression (no [u] flag needed: every
    member is a single code unit). *)
Definition isSpace (c : N) : bool :=
  ((9 <=? c) && (c <=? 13) || (c =? 32) || (c =? 160) || (c =? 5760)
   || (8192 <=? c) && (c <=? 8202) || (c =? 8232) || (c =? 8233)
   || (c =? 8239) || (c =? 8287) || (c =? 12288) || (c =? 65279))%N.

(** The class [[a-z0-9-]]. *)
Definition isAliasChar (c : N) : bool :=
  ((97 <=? c) && (c <=? 122) || (48 <=? c) && (c <=? 57) || (c =? hyphen))%N.

(** [.replace(/\s+/g, '-')]: every maximal run of white space becomes one
    hyphen.  [inRun] records that the previous code unit was white space. *)
Fixpoint replaceSpaceRuns (inRun : bool) (s : jsstring) : jsstring :=
  match s with
  | [] => []
  | c :: rest =>
      if isSpace c
      then (if inRun then replaceSpaceRuns true rest
            else hyphen :: replaceSpaceRuns true rest)
      else c :: replaceSpaceRuns false rest
  end.

(** [.replace(/[^a-z0-9-]/g, '')]. *)
Definition removeInvalid (s : jsstring) : jsstring := List.filter isAliasChar s.

(** [.replace(/-+/g, '-')]. *)
Fixpoint collapseHyphens (inRun : bool) (s : jsstring) : jsstring :=
  match s with
  | [] => []
  | c :: rest =>
      if (c =? hyphen)%N
      then (if inRun then collapseHyphens true rest
            else hyphen :: collapseHyphens true rest)
      else c :: collapseHyphens false rest
  end.

(** Removal of a final hyphen: the alternative [-$] of the last regex. *)
Fixpoint stripTrailingHyphen (s : jsstring) : jsstring :=
  match s with
  | [] => []
  | [c] => if (c =? hyphen)%N then [] else [c]
  | c :: rest => c :: stripTrailingHyphen rest
  end.

(** [.replace(/^-|-$/g, '')]: the global scan removes a hyphen at index 0
    (alternative [^-]) and then a hyphen that ends the string. *)
Definition stripEdgeHyphens (s : jsstring) : jsstring :=
  stripTrailingHyphen
    (match s with
     | c :: rest => if (c =? hyphen)%N then rest else s
     | [] => []
     end).

Section WithLowerCase.
(** [String.prototype.toLowerCase] is a builtin of the host; the
    development takes it as a parameter. *)
Variable toLowerCase : jsstring -> jsstring.

Definition transformToAlias (input : jsstring) : jsstring :=
  stripEdgeHyphens
    (collapseHyphens false
       (removeInvalid
          (replaceSpaceRuns false
             (toLowerCase input)))).
End WithLowerCase.

(** The builtin restricted to what it does on ASCII: [A-Z] are shifted to
    [a-z], every other code unit is kept. *)
Definition asciiToLowerCase (s : jsstring) : jsstring :=
  map (fun c => if ((65 <=? c) && (c <=? 90))%N then (c + 32)%N else c) s.

(** The test [/^[a-z0-9-]+$/]. *)
Definition matchesAliasPattern (s : jsstring) : bool :=
  match s with
  | [] => false
  | _ => forallb isAliasChar s
  end.

(** No two adjacent hyphens. *)
Fixpoint sparseHyphens (s : jsstring) : bool :=
  match s with
  | a :: rest =>
      match rest with
      | b :: _ => negb ((a =? hyphen) && (b =? hyphen))%N && sparseHyphens rest
      | [] => true
      end
  | [] => true
  end.

Definition ofString (s : string) : jsstring :=
  map (fun a => N_of_ascii a) (list_ascii_of_string s).

End Alias.

(** ** JavaScript values used by the controllers *)

Module Js.

Local Open Scope string_scope.
Local Open Scope Z_scope.

(** A value of type [string | null | undefined] is an [option string];
    [truthy] is its conversion to a boolean: [null], [undefined] and the
    empty string are falsy. *)
Definition truthy (v : option string) : bool :=
  match v with
  | Some s => negb (String.eqb s "")
  | None => false
  end.

(** [v || null]. *)
Definition orNull (v : option string) : option string :=
  if truthy v then v else None.

(** [a || b]. *)
Definition jsOr (a b : option string) : option string :=
  if truthy a then a else b.

(** [Array.prototype.indexOf]: the first position of [x], or [-1]. *)
Fixpoint indexOf (l : list string) (x : string) : Z :=
  match l with
  | [] => -1
  | y :: rest =>
      if String.eqb y x then 0
      else let i := indexOf rest x in if i <? 0 then -1 else i + 1
  end.

(** [l[i]] for a number [i] that is an integer: [undefined] out of range. *)
Definition at_ (l : list string) (i : Z) : option string :=
  if i <? 0 then None else l !! Z.to_nat i.

(** [Array.prototype.find]. *)
Definition find (p : string -> bool) (l : list string) : option string :=
  List.find p l.

(** The order of the default [Array.prototype.sort] on strings: code units
    compared lexicographically.  A string here is its sequence of bytes,
    and the order of the bytes is the one of the code units for names
    within the Basic Multilingual Plane; for a name with a character beyond
    it the two orders can differ.  What is proved about a selection is
    stated relative to [sort]. *)
Definition strLe (a b : string) : Prop := String.leb a b = true.

#[global] Instance strLe_dec (a b : string) : Decision (strLe a b) :=
  bool_eq_dec (String.leb a b) true.

(** [[...l].sort()]: a sorted copy.  The order is total and antisymmetric,
    so the sorted copy is unique. *)
Definition sort (l : list string) : list string := merge_sort strLe l.

(** A [Set<string>] is the list of its members in insertion order. *)
Definition setHas (s : list string) (x : string) : bool := bool_decide (x ∈ s).

Definition setAdd (s : list string) (x : string) : list string :=
  if setHas s x then s else s ++ [x].

(** [new Set(array)]. *)
Definition newSet (l : list string) : list string := fold_left setAdd l [].

Definition setSize (s : list string) : Z := Z.of_nat (length s).

Definition length (l : list string) : Z := Z.of_nat (List.length l).

End Js.

(** ** The rotation store and the two selection operations
       ([SendMessageController], unnamed/part_008) *)

Module Rotation.

Local Open Scope string_scope.
Local Open Scope Z_scope.

(** The value kept per contact (lines 45-52). *)
Record RotationData := mkRotationData {
  usedInstances : list string;
  lastUsedInstance : option string;
  rotationCount : Z
}.

(** The global value (lines 55-58). *)
Record GlobalRotation := mkGlobalRotation {
  globalLastUsedInstance : option string;
  globalRotationCount : Z
}.

(** The objects written to the cache (lines 476-481 and 541-545); the
    global object has no [usedInstances] property. *)
Record CacheData := mkCacheData {
  cachedUsedInstances : option (list string);
  cachedLastUsedInstance : option string;
  cachedRotationCount : Z;
  lastUpdated : Z
}.

(** Modelled from the spec: the cache collaborator ([CacheService], not
    under src/).  "Cache.Get/Set/Delete(key, value, ttl) -> result or error;
    may fail".  A cache is in one of three conditions: it stores and returns
    values; it is not enabled (every read misses, a write is dropped: the
    case the comments of lines 44 and 518 name); or its calls raise.
    Expiry after the time to live is not modelled. *)
Inductive CacheMode := CacheUp | CacheOff | CacheDown.

Record State := mkState {
  cacheMode : CacheMode;
  cache : gmap string CacheData;
  rotationMemory : gmap string RotationData;
  globalRotationMemory : GlobalRotation
}.

(** Modelled from the spec: [CacheService.get], not under src/.  A call
    that may raise: [None] is the raised error, [Some None] a miss. *)
Definition cacheGet (key : string) (s : State) : option (option CacheData) :=
  match cacheMode s with
  | CacheUp => Some (cache s !! key)
  | CacheOff => Some None
  | CacheDown => None
  end.

(** Modelled from the spec: [CacheService.set], not under src/; [None] is
    the raised error. *)
Definition cacheSet (key : string) (v : CacheData) (s : State) : option State :=
  match cacheMode s with
  | CacheUp =>
      Some (mkState (cacheMode s) (<[key := v]> (cache s))
              (rotationMemory s) (globalRotationMemory s))
  | CacheOff => Some s
  | CacheDown => None
  end.

Definition CACHE_KEY_PREFIX : string := "instance_rotation".
Definition GLOBAL_CACHE_KEY : string := "global_rotation".
Definition GROUP_CACHE_KEY_PREFIX : string := "group_rotation".

(** The controller as constructed (lines 45-58), with a given cache. *)
Definition initialState (mode : CacheMode) (c : gmap string CacheData) : State :=
  mkState mode c ∅ (mkGlobalRotation None 0).

(** [saveRotationDataToCache] (lines 466-496).  The update of the memory
    map follows the cache write inside the [try]; a raised error is caught
    and logged, and the memory map is then left as it was. *)
Definition saveRotationDataToCache
    (contactNumber : string) (data : RotationData) (now : Z) (s : State) : State :=
  let cacheKey := CACHE_KEY_PREFIX +:+ ":" +:+ contactNumber in
  let cacheData :=
    mkCacheData (Some (usedInstances data)) (lastUsedInstance data)
      (rotationCount data) now in
  match cacheSet cacheKey cacheData s with
  | Some s1 =>
      mkState (cacheMode s1) (cache s1)
        (<[contactNumber :=
             mkRotationData (Js.newSet (usedInstances data))
               (lastUsedInstance data) (rotationCount data)]>
           (rotationMemory s1))
        (globalRotationMemory s1)
  | None => s
  end.

(** [getRotationDataFromCache] (lines 501-534): [None] is [null].  The
    count is a number, so [cacheData.rotationCount || 0] is the count. *)
Definition getRotationDataFromCache
    (contactNumber : string) (s : State) : option RotationData :=
  let cacheKey := CACHE_KEY_PREFIX +:+ ":" +:+ contactNumber in
  match cacheGet cacheKey s with
  | Some (Some cacheData) =>
      Some (mkRotationData
              (Js.newSet (default [] (cachedUsedInstances cacheData)))
              (Js.orNull (cachedLastUsedInstance cacheData))
              (cachedRotationCount cacheData))
  | Some None =>
      match rotationMemory s !! contactNumber with
      | Some mem =>
          Some (mkRotationData (Js.newSet (usedInstances mem))
                  (lastUsedInstance mem) (rotationCount mem))
      | None => None
      end
  | None => None
  end.

(** [saveGlobalRotationData] (lines 539-557). *)
Definition saveGlobalRotationData (data : GlobalRotation) (now : Z) (s : State) : State :=
  let cacheData :=
    mkCacheData None (globalLastUsedInstance data) (globalRotationCount data) now in
  match cacheSet GLOBAL_CACHE_KEY cacheData s with
  | Some s1 =>
      mkState (cacheMode s1) (cache s1) (rotationMemory s1)
        (mkGlobalRotation (globalLastUsedInstance data) (globalRotationCount data))
  | None => s
  end.

(** [getGlobalRotationData] (lines 562-581). *)
Definition getGlobalRotationData (s : State) : option GlobalRotation :=
  match cacheGet GLOBAL_CACHE_KEY s with
  | Some (Some cacheData) =>
      Some (mkGlobalRotation (Js.orNull (cachedLastUsedInstance cacheData))
              (cachedRotationCount cacheData))
  | Some None =>
      Some (mkGlobalRotation (globalLastUsedInstance (globalRotationMemory s))
              (globalRotationCount (globalRotationMemory s)))
  | None => None
  end.

(** [removeRotationDataFromCache] (lines 586-597). *)
Definition removeRotationDataFromCache (contactNumber : string) (s : State) : State :=
  let cacheKey := CACHE_KEY_PREFIX +:+ ":" +:+ contactNumber in
  match cacheMode s with
  | CacheUp =>
      mkState (cacheMode s) (delete cacheKey (cache s))
        (delete contactNumber (rotationMemory s)) (globalRotationMemory s)
  | CacheOff =>
      mkState (cacheMode s) (cache s)
        (delete contactNumber (rotationMemory s)) (globalRotationMemory s)
  | CacheDown => s
  end.

(** [normalizeContactNumber] (lines 437-439): [replace(/[^\d]/g, '')]. *)
Definition isDigit (a : ascii) : bool :=
  (48 <=? N_of_ascii a)%N && (N_of_ascii a <=? 57)%N.

Fixpoint normalizeContactNumber (contactNumber : string) : string :=
  match contactNumber with
  | EmptyString => EmptyString
  | String a rest =>
      if isDigit a then String a (normalizeContactNumber rest)
      else normalizeContactNumber rest
  end.

Definition freshRotationData : RotationData := mkRotationData [] None 0.
Definition freshGlobalRotation : GlobalRotation := mkGlobalRotation None 0.

(** *** Grouped selection (lines 235-311) *)

(** Lines 258-261. *)
Definition groupNextGlobalIndex
    (orderedInstances : list string) (globalRotationData : GlobalRotation) : Z :=
  let currentGlobalIndex :=
    match globalLastUsedInstance globalRotationData with
    | Some l => if Js.truthy (Some l) then Js.indexOf orderedInstances l else -1
    | None => -1
    end in
  Z.rem (currentGlobalIndex + 1) (Js.length orderedInstances).

(** Lines 264-282: the choice, given the descriptor of the contact and the
    global-next instance. *)
Definition groupChoice
    (orderedInstances : list string) (contactRotationData : RotationData)
    (nextGlobalInstance : string) : option string :=
  let last := lastUsedInstance contactRotationData in
  let used := usedInstances contactRotationData in
  if bool_decide (Some nextGlobalInstance ≠ last)
     && negb (Js.setHas used nextGlobalInstance)
  then Some nextGlobalInstance
  else
    Js.jsOr
      (Js.find (fun instance =>
                  bool_decide (Some instance ≠ last) && negb (Js.setHas used instance))
         orderedInstances)
      (Js.jsOr
         (Js.find (fun instance => bool_decide (Some instance ≠ last))
            orderedInstances)
         (Js.at_ orderedInstances 0)).

(** Lines 284-298. *)
Definition groupNewContactData
    (orderedInstances : list string) (contactRotationData : RotationData)
    (selectedInstance : string) : RotationData :=
  let added := Js.setAdd (Js.newSet (usedInstances contactRotationData)) selectedInstance in
  let newUsedInstances :=
    if Js.length orderedInstances <=? Js.setSize added
    then Js.setAdd [] selectedInstance
    else added in
  mkRotationData newUsedInstances (Some selectedInstance)
    (rotationCount contactRotationData + 1).

(** [selectInstanceForContactInGroup].  The result is [None] when the
    selected instance is [undefined], which happens exactly for an empty
    [groupInstances]; the caller (line 192) rules that out.  [globalKey]
    (line 241) is computed and never used: the global descriptor is read
    and written by [getGlobalRotationData] and [saveGlobalRotationData]. *)
Definition selectInstanceForContactInGroup
    (contact : string) (groupInstances : list string) (groupId : string)
    (now : Z) (s : State) : option (string * State) :=
  let contactKey := GROUP_CACHE_KEY_PREFIX +:+ ":" +:+ groupId +:+ ":" +:+ contact in
  let contactRotationData :=
    default freshRotationData (getRotationDataFromCache contactKey s) in
  let globalRotationData :=
    default freshGlobalRotation (getGlobalRotationData s) in
  let orderedInstances := Js.sort groupInstances in
  let nextGlobalIndex := groupNextGlobalIndex orderedInstances globalRotationData in
  match Js.at_ orderedInstances nextGlobalIndex with
  | None => None
  | Some nextGlobalInstance =>
      match groupChoice orderedInstances contactRotationData nextGlobalInstance with
      | None => None
      | Some selectedInstance =>
          let newContactRotationData :=
            groupNewContactData orderedInstances contactRotationData selectedInstance in
          let newGlobalRotationData :=
            mkGlobalRotation (Some selectedInstance)
              (globalRotationCount globalRotationData + 1) in
          let s1 := saveRotationDataToCache contactKey newContactRotationData now s in
          let s2 := saveGlobalRotationData newGlobalRotationData now s1 in
          Some (selectedInstance, s2)
      end
  end.

(** *** Ungrouped selection (lines 348-432) *)

(** Lines 365-370. *)
Definition resetIfCycleComplete
    (sortedInstances : list string) (rotationInfo : RotationData) : RotationData :=
  if Js.length sortedInstances <=? Js.setSize (usedInstances rotationInfo)
  then mkRotationData [] (lastUsedInstance rotationInfo)
         (rotationCount rotationInfo + 1)
  else rotationInfo.

(** Lines 377-381. *)
Definition globalNextIndex
    (sortedInstances : list string) (globalRotation : option GlobalRotation) : Z :=
  match globalRotation with
  | Some g =>
      match globalLastUsedInstance g with
      | Some l =>
          if Js.truthy (Some l) then
            let globalLastIndex := Js.indexOf sortedInstances l in
            if 0 <=? globalLastIndex
            then Z.rem (globalLastIndex + 1) (Js.length sortedInstances)
            else 0
          else 0
      | None => 0
      end
  | None => 0
  end.

(** The [for] loops of lines 384-394 and 398-406: [i] runs from its start
    value while [i < sortedInstances.length]; [fuel] is the number of
    iterations left. *)
Fixpoint scanLoop
    (sortedInstances : list string) (globalNextIndex : Z)
    (accept : string -> bool) (i : Z) (fuel : nat) : option string :=
  match fuel with
  | O => None
  | S fuel' =>
      let idx := Z.rem (globalNextIndex + i) (Js.length sortedInstances) in
      match Js.at_ sortedInstances idx with
      | Some candidate =>
          if accept candidate then Some candidate
          else scanLoop sortedInstances globalNextIndex accept (i + 1) fuel'
      | None => scanLoop sortedInstances globalNextIndex accept (i + 1) fuel'
      end
  end.

Definition scan
    (sortedInstances : list string) (globalNextIndex : Z)
    (accept : string -> bool) : option string :=
  scanLoop sortedInstances globalNextIndex accept 0 (List.length sortedInstances).

(** Lines 373-412: the two passes and the last resort.  [!selectedInstance]
    also holds for the empty string. *)
Definition contactChoice
    (sortedInstances : list string) (rotationInfo : RotationData)
    (globalNextIndex : Z) : option string :=
  let last := lastUsedInstance rotationInfo in
  let used := usedInstances rotationInfo in
  let firstPass :=
    scan sortedInstances globalNextIndex
      (fun candidate =>
         bool_decide (Some candidate ≠ last) && negb (Js.setHas used candidate)) in
  let secondPass :=
    if Js.truthy firstPass then firstPass
    else scan sortedInstances globalNextIndex
           (fun candidate => bool_decide (Some candidate ≠ last)) in
  if Js.truthy secondPass then secondPass
  else Js.at_ sortedInstances globalNextIndex.

(** [selectInstanceForContact]; [None] as for the grouped operation (the
    caller rules out the empty list at line 150). *)
Definition selectInstanceForContact
    (contactNumber : string) (availableInstances : list string)
    (now : Z) (s : State) : option (string * State) :=
  let normalizedContact := normalizeContactNumber contactNumber in
  let sortedInstances := Js.sort availableInstances in
  let rotationInfo :=
    resetIfCycleComplete sortedInstances
      (default freshRotationData (getRotationDataFromCache normalizedContact s)) in
  let globalRotation := getGlobalRotationData s in
  let next := globalNextIndex sortedInstances globalRotation in
  match contactChoice sortedInstances rotationInfo next with
  | None => None
  | Some selectedInstance =>
      let rotationInfo' :=
        mkRotationData (Js.setAdd (usedInstances rotationInfo) selectedInstance)
          (Some selectedInstance) (rotationCount rotationInfo) in
      let s1 := saveRotationDataToCache normalizedContact rotationInfo' now s in
      let s2 :=
        saveGlobalRotationData
          (mkGlobalRotation (Some selectedInstance)
             (match globalRotation with
              | Some g => globalRotationCount g
              | None => 0
              end + 1))
          now s1 in
      Some (selectedInstance, s2)
  end.

(** A run of selections issued one after the other, each with the contact
    it is for and the time it is made at; the picks are returned in order. *)
Fixpoint runGroup
    (groupInstances : list string) (groupId : string)
    (calls : list (string * Z)) (s : State) : option (list (string * string) * State) :=
  match calls with
  | [] => Some ([], s)
  | (contact, now) :: rest =>
      match selectInstanceForContactInGroup contact groupInstances groupId now s with
      | None => None
      | Some (pick, s1) =>
          match runGroup groupInstances groupId rest s1 with
          | None => None
          | Some (picks, s2) => Some ((contact, pick) :: picks, s2)
          end
      end
  end.

Fixpoint runUngrouped
    (availableInstances : list string)
    (calls : list (string * Z)) (s : State) : option (list (string * string) * State) :=
  match calls with
  | [] => Some ([], s)
  | (contact, now) :: rest =>
      match selectInstanceForContact contact availableInstances now s with
      | None => None
      | Some (pick, s1) =>
          match runUngrouped availableInstances rest s1 with
          | None => None
          | Some (picks, s2) =>
              Some ((normalizeContactNumber contact, pick) :: picks, s2)
          end
      end
  end.

(** The picks made for one contact, in order. *)
Definition picksFor (contact : string) (picks : list (string * string)) : list string :=
  map snd (List.filter (fun cp => String.eqb (fst cp) contact) picks).

(** No two neighbours of a list are equal. *)
Fixpoint noImmediateRepeat (l : list string) : Prop :=
  match l with
  | a :: rest =>
      match rest with
      | b :: _ => a ≠ b /\ noImmediateRepeat rest
      | [] => True
      end
  | [] => True
  end.

(** The last pick recorded under a key of the store, as a read sees it. *)
Definition storedLast (key : string) (s : State) : option string :=
  match getRotationDataFromCache key s with
  | Some d => lastUsedInstance d
  | None => None
  end.

(** The key of the grouped path for a contact (line 240). *)
Definition groupContactKey (groupId contact : string) : string :=
  GROUP_CACHE_KEY_PREFIX +:+ ":" +:+ groupId +:+ ":" +:+ contact.

(** A state without the time stamps of its cache entries. *)
Definition timeless (cd : CacheData) : CacheData :=
  mkCacheData (cachedUsedInstances cd) (cachedLastUsedInstance cd)
    (cachedRotationCount cd) 0.

Definition observable (s : State) : State :=
  mkState (cacheMode s) (timeless <$> cache s) (rotationMemory s)
    (globalRotationMemory s).

(** The result of a selection without the time stamps it wrote. *)
Definition observableResult (r : option (string * State)) : option (string * State) :=
  match r with
  | Some (pick, s) => Some (pick, observable s)
  | None => None
  end.

(** The state in which the cache raises and the memory map holds a
    descriptor for the contact ["5511"]. *)
Definition downWithMemory : State :=
  mkState CacheDown ∅
    {["5511" := mkRotationData ["a"] (Some "a") 0]} (mkGlobalRotation None 0).

(** A state of the memory map in which the contact ["5511"] has used ["a"],
    while the cache is not enabled. *)
Definition midCycle : State :=
  mkState CacheOff ∅
    {["5511" := mkRotationData ["a"] (Some "a") 0]} (mkGlobalRotation None 0).

(** A state in which the contact ["5511"] has the same descriptor under its
    ungrouped key and under its key in the group ["g1"], and the global
    descriptor names ["a"]; the cache is not enabled. *)
Definition sameOnBothPaths : State :=
  mkState CacheOff ∅
    {["5511" := mkRotationData ["b"] (Some "b") 1;
      "group_rotation:g1:5511" := mkRotationData ["b"] (Some "b") 1]}
    (mkGlobalRotation (Some "a") 1).

End Rotation.

(** ** Errors and their HTTP status *)

Module Errors.

(** The exception classes the controllers and services raise; [TypeError] is
    the error of the runtime for a property read on [null]. *)
Inductive Exception :=
| BadRequestException (message : string)
| NotFoundException (message : string)
| InternalServerErrorException (message : string)
| TypeError (message : string).

(** Modelled from the spec: the classes of [@exceptions] and the handler
    that turns them into responses are not under src/.  "Error status codes:
    400 validation, 401 auth, 404 missing, 500 internal"; an error that is
    none of the three classes is an internal one. *)
Definition httpStatus (e : Exception) : Z :=
  match e with
  | BadRequestException _ => 400
  | NotFoundException _ => 404
  | InternalServerErrorException _ => 500
  | TypeError _ => 500
  end.

(** The outcome of a call that returns or throws. *)
Inductive result (A : Type) :=
| Returned (a : A)
| Thrown (e : Exception).

Arguments Returned {A} a.
Arguments Thrown {A} e.

End Errors.

(** ** Balanced send through a group
       ([InstanceGroupService], unnamed/part_006, and
        [SendMessageController.sendTextWithGroupBalancing], unnamed/part_008) *)

Module Groups.
Import Errors.

Local Open Scope string_scope.
Local Open Scope Z_scope.

(** The columns of a group that the operations below read or write.  The
    table has three more, [description], [createdAt] and [updatedAt]; the
    last one is rewritten at every update.  They are not part of the model,
    and nothing is stated about them. *)
Record InstanceGroup := mkInstanceGroup {
  id : string;
  name : string;
  alias : string;
  enabled : bool;
  instances : list string
}.

(** The table of groups, and [waMonitor.waInstances] as the connection state
    reported for each instance that exists. *)
Record World := mkWorld {
  instanceGroup : list InstanceGroup;
  waInstances : gmap string string;
  rotation : Rotation.State
}.

(** [findByAlias] (part_006, lines 83-95). *)
Definition findByAlias (w : World) (a : string) : result InstanceGroup :=
  match List.find (fun g => String.eqb (alias g) a) (instanceGroup w) with
  | Some g => Returned g
  | None => Thrown (NotFoundException "Instance group not found")
  end.

Definition isOpen (w : World) (instanceName : string) : bool :=
  match waInstances w !! instanceName with
  | Some state => String.eqb state "open"
  | None => false
  end.

(** [getActiveInstances] (part_006, lines 220-247): the row is looked up
    with [where: { id: groupId, enabled: true }]. *)
Definition getActiveInstances (w : World) (groupId : string) : result (list string) :=
  match List.find (fun g => String.eqb (id g) groupId && enabled g) (instanceGroup w) with
  | None => Thrown (NotFoundException "Instance group not found or disabled")
  | Some group =>
      let activeInstances := List.filter (isOpen w) (instances group) in
      if (Js.length activeInstances =? 0)
      then Thrown (BadRequestException "No active instances found in the group")
      else Returned activeInstances
  end.

Record SendTextWithGroupBalancingDto := mkSendDto {
  dtoAlias : string;
  number : string;
  text : string
}.

Record BalancingInfo := mkBalancingInfo {
  infoContact : string;
  infoGroupId : string;
  infoLastUsedInstance : option string;
  usedInstancesInCycle : list string;
  infoRotationCount : Z;
  infoGlobalLastUsedInstance : option string;
  infoGlobalRotationCount : Z
}.

(** [getContactBalancingInfoInGroup] (part_008, lines 316-332): both reads
    may give [null], and a property read on [null] raises. *)
Definition getContactBalancingInfoInGroup
    (contact groupId : string) (s : Rotation.State) : result BalancingInfo :=
  let contactKey :=
    Rotation.GROUP_CACHE_KEY_PREFIX +:+ ":" +:+ groupId +:+ ":" +:+ contact in
  match Rotation.getRotationDataFromCache contactKey s with
  | None => Thrown (TypeError "Cannot read properties of null")
  | Some contactData =>
      match Rotation.getGlobalRotationData s with
      | None => Thrown (TypeError "Cannot read properties of null")
      | Some globalData =>
          Returned
            (mkBalancingInfo contact groupId
               (Rotation.lastUsedInstance contactData)
               (Rotation.usedInstances contactData)
               (Rotation.rotationCount contactData)
               (Rotation.globalLastUsedInstance globalData)
               (Rotation.globalRotationCount globalData))
      end
  end.

Section Send.
(** The result of the messaging collaborator, and the collaborator:
    [waMonitor.waInstances[name].textMessage(data)]. *)
Variable SendResult : Type.
Variable textMessage : string -> string -> string -> result SendResult.

Record BalancedResponse := mkBalancedResponse {
  sendResult : SendResult;
  instanceUsed : string;
  responseGroupId : string;
  groupAlias : string;
  balancingInfo : BalancingInfo
}.

(** [sendTextWithGroupBalancing] (part_008, lines 178-230), with the
    service present or not and the time of the call.  The [catch] logs and
    rethrows. *)
Definition sendTextWithGroupBalancing
    (hasInstanceGroupService : bool) (data : SendTextWithGroupBalancingDto)
    (now : Z) (w : World) : result BalancedResponse * World :=
  if negb hasInstanceGroupService
  then (Thrown (InternalServerErrorException
                  "Instance Group Service não está disponível"), w)
  else
    match findByAlias w (dtoAlias data) with
    | Thrown e => (Thrown e, w)
    | Returned group =>
        match getActiveInstances w (id group) with
        | Thrown e => (Thrown e, w)
        | Returned groupInstances =>
            if (Js.length groupInstances =? 0)
            then (Thrown (BadRequestException
                            "Nenhuma instância ativa encontrada no grupo especificado"), w)
            else
              match Rotation.selectInstanceForContactInGroup
                      (number data) groupInstances (id group) now (rotation w) with
              | None => (Thrown (TypeError "selected instance is undefined"), w)
              | Some (selectedInstance, s') =>
                  let w' := mkWorld (instanceGroup w) (waInstances w) s' in
                  match textMessage selectedInstance (number data) (text data) with
                  | Thrown e => (Thrown e, w')
                  | Returned r =>
                      match getContactBalancingInfoInGroup (number data) (id group) s' with
                      | Thrown e => (Thrown e, w')
                      | Returned info =>
                          (Returned (mkBalancedResponse r selectedInstance (id group)
                                       (dtoAlias data) info), w')
                      end
                  end
              end
        end
    end.

End Send.

(** A world with one disabled group whose only instance is connected. *)
Definition disabledWorld : World :=
  mkWorld [mkInstanceGroup "g1" "Sales" "sales" false ["a"]]
    {["a" := "open"]} (Rotation.initialState Rotation.CacheUp ∅).

Definition balancedSend : SendTextWithGroupBalancingDto :=
  mkSendDto "sales" "5511999999999" "Teste".

End Groups.

(** ** The webhook dispatcher
       ([ExternalWebhookService], src/api/services/external-webhook.service.ts) *)

Module Webhook.

Local Open Scope string_scope.
Local Open Scope Z_scope.

Inductive AuthType := AuthNone | AuthBearer | AuthBasic | AuthApiKey | AuthJwt.

Record AuthenticationConfig := mkAuth {
  authType : AuthType;
  token : option string;
  username : option string;
  password : option string;
  headerName : option string;
  jwtSecret : option string
}.

(** The fields of the retry configuration that decide how many requests are
    made; the delays between attempts do not. *)
Record RetryConfig := mkRetryConfig {
  maxAttempts : option Z;
  nonRetryableStatusCodes : option (list Z)
}.

Record SecurityConfig := mkSecurityConfig {
  enableSignatureValidation : bool;
  signatureSecret : option string;
  signatureHeader : option string;
  signatureAlgorithm : option string
}.

Record FilterConfig := mkFilterConfig {
  filterInstances : option (list string);
  excludeInstances : option (list string)
}.

Record ExternalWebhook := mkWebhook {
  id : string;
  name : string;
  url : string;
  enabled : bool;
  events : option (list string);
  headers : option (gmap string string);
  authentication : option AuthenticationConfig;
  retryConfig : option RetryConfig;
  securityConfig : option SecurityConfig;
  filterConfig : option FilterConfig;
  timeout : Z
}.

(** The envelope of lines 293-302; [D] is the type of the event data. *)
Record Payload (D : Type) := mkPayload {
  event : string;
  instance : option string;
  data : D;
  timestamp : Z;
  webhookId : string;
  webhookName : string
}.

Arguments mkPayload {D}.
Arguments event {D}.
Arguments instance {D}.
Arguments data {D}.

(** What [httpService.post(url, payload)] sends. *)
Record Request (D : Type) := mkRequest {
  requestUrl : string;
  requestBody : Payload D;
  requestHeaders : gmap string string;
  requestTimeout : Z
}.

Arguments mkRequest {D}.
Arguments requestUrl {D}.
Arguments requestBody {D}.
Arguments requestHeaders {D}.
Arguments requestTimeout {D}.

(** How a POST ends: the promise resolves (a 2xx answer), or it is rejected
    with the status of the answer, if there was one, and a message. *)
Inductive HttpOutcome :=
| Resolved
| Rejected (status : option Z) (message : string).

(** The record of the circuit breaker (lines 16-20). *)
Inductive BreakerState := CLOSED | OPEN | HALF_OPEN.

Record CircuitBreakerState := mkBreaker {
  failures : Z;
  lastFailureTime : Z;
  state : BreakerState
}.

Definition CIRCUIT_BREAKER_THRESHOLD : Z := 5.
Definition CIRCUIT_BREAKER_TIMEOUT : Z := 60000.

(** [canExecuteWebhook] (lines 675-708) at the time [now]. *)
Definition canExecuteWebhook
    (webhookId : string) (now : Z) (circuitBreakers : gmap string CircuitBreakerState)
  : bool * gmap string CircuitBreakerState :=
  match circuitBreakers !! webhookId with
  | None => (true, <[webhookId := mkBreaker 0 0 CLOSED]> circuitBreakers)
  | Some circuitState =>
      match state circuitState with
      | CLOSED => (true, circuitBreakers)
      | OPEN =>
          if CIRCUIT_BREAKER_TIMEOUT <? now - lastFailureTime circuitState
          then (true,
                <[webhookId := mkBreaker (failures circuitState)
                                 (lastFailureTime circuitState) HALF_OPEN]>
                  circuitBreakers)
          else (false, circuitBreakers)
      | HALF_OPEN => (true, circuitBreakers)
      end
  end.

(** [recordWebhookSuccess] (lines 710-719). *)
Definition recordWebhookSuccess
    (webhookId : string) (circuitBreakers : gmap string CircuitBreakerState)
  : gmap string CircuitBreakerState :=
  match circuitBreakers !! webhookId with
  | Some _ => <[webhookId := mkBreaker 0 0 CLOSED]> circuitBreakers
  | None => circuitBreakers
  end.

(** [recordWebhookFailure] (lines 721-747) at the time [now]. *)
Definition recordWebhookFailure
    (webhookId : string) (now : Z) (circuitBreakers : gmap string CircuitBreakerState)
  : gmap string CircuitBreakerState :=
  let circuitState := default (mkBreaker 0 0 CLOSED) (circuitBreakers !! webhookId) in
  let failures' := failures circuitState + 1 in
  <[webhookId :=
      mkBreaker failures' now
        (if CIRCUIT_BREAKER_THRESHOLD <=? failures' then OPEN else state circuitState)]>
    circuitBreakers.

(** [retryConfig?.maxAttempts || 3] (line 427). *)
Definition maxRetryAttempts (retryConfig : option RetryConfig) : Z :=
  match retryConfig with
  | Some c =>
      match maxAttempts c with
      | Some n => if n =? 0 then 3 else n
      | None => 3
      end
  | None => 3
  end.

(** [retryConfig?.nonRetryableStatusCodes || [400, 401, 403, 404, 422]]
    (line 432); an array, empty or not, is truthy. *)
Definition effectiveNonRetryable (retryConfig : option RetryConfig) : list Z :=
  match retryConfig with
  | Some c => default [400; 401; 403; 404; 422] (nonRetryableStatusCodes c)
  | None => [400; 401; 403; 404; 422]
  end.

(** [statusCode && nonRetryableStatusCodes.includes(statusCode)] (line 463). *)
Definition isNonRetryable (nonRetryable : list Z) (status : option Z) : bool :=
  match status with
  | Some code => negb (code =? 0) && bool_decide (code ∈ nonRetryable)
  | None => false
  end.

(** What [retryWebhookRequest] did: the number of POSTs it issued, the
    message of the error it threw if it threw, and its call of
    [updateWebhookStats] (success flag and error message) if it made one. *)
Record Delivery := mkDelivery {
  posts : nat;
  thrown : option string;
  statsUpdate : option (bool * option string)
}.

(** The [while] loop of lines 437-508.  [respond k] is the outcome of the
    POST number [k] of this delivery, counted from 0; [fuel] bounds the
    iterations, and [None] means it ran out. *)
Fixpoint retryLoop
    (respond : nat -> HttpOutcome) (maxRetryAttempts : Z) (nonRetryable : list Z)
    (attempts : Z) (posted : nat) (fuel : nat) : option Delivery :=
  if attempts <? maxRetryAttempts then
    match fuel with
    | O => None
    | S fuel' =>
        match respond posted with
        | Resolved => Some (mkDelivery (S posted) None (Some (true, None)))
        | Rejected status message =>
            let attempts' := attempts + 1 in
            if isNonRetryable nonRetryable status
            then Some (mkDelivery (S posted) (Some message) (Some (false, Some message)))
            else if attempts' =? maxRetryAttempts
            then Some (mkDelivery (S posted) (Some message) (Some (false, Some message)))
            else retryLoop respond maxRetryAttempts nonRetryable attempts' (S posted) fuel'
        end
    end
  else Some (mkDelivery posted None None).

(** [retryWebhookRequest] (lines 420-509). *)
Definition retryWebhookRequest
    (respond : nat -> HttpOutcome) (retryConfig : option RetryConfig) : option Delivery :=
  retryLoop respond (maxRetryAttempts retryConfig) (effectiveNonRetryable retryConfig)
    0 0 (Z.to_nat (maxRetryAttempts retryConfig)).

(** What one call of [sendWebhook] did. *)
Record Dispatch (D : Type) := mkDispatch {
  breakers : gmap string CircuitBreakerState;
  sent : option (Request D);
  postsIssued : nat
}.

Arguments mkDispatch {D}.
Arguments breakers {D}.
Arguments sent {D}.
Arguments postsIssued {D}.

Section Builtins.
(** Builtins of the host and of the libraries the service calls:
    [Buffer.from(s).toString('base64')], [jwt.sign] (of the payload built at
    the time [now], with a secret) and the hexadecimal digest of
    [crypto.createHmac(algorithm, secret).update(payload)]. *)
Variable base64 : string -> string.
Variable jwtSign : Z -> string -> string.
Variable hmacHex : string -> string -> string -> string.

(** [generateWebhookSignature] (lines 627-631). *)
Definition generateWebhookSignature (payload secret algorithm : string) : string :=
  algorithm +:+ "=" +:+ hmacHex algorithm secret payload.

(** [headers[key] = value] on the plain object [headers], whose own
    properties the map holds, for a string [value].  The assignment creates
    or overwrites an own property, except for the key [__proto__] when the
    object has no own property of that name: the assignment then reaches
    the setter of [Object.prototype], which ignores a string. *)
Definition assign (key value : string) (headers : gmap string string)
  : gmap string string :=
  if String.eqb key "__proto__" && negb (bool_decide (is_Some (headers !! key)))
  then headers
  else <[key := value]> headers.

(** [configureAuthentication] (lines 367-399).  The keys [Authorization]
    are assigned like the one of the API key; for them [assign] is the
    insertion. *)
Definition configureAuthentication
    (now : Z) (headers : gmap string string) (authConfig : option AuthenticationConfig)
  : gmap string string :=
  match authConfig with
  | None => headers
  | Some a =>
      match authType a with
      | AuthNone => headers
      | AuthBearer =>
          match token a with
          | Some t => if Js.truthy (Some t)
                      then <["Authorization" := "Bearer " +:+ t]> headers else headers
          | None => headers
          end
      | AuthBasic =>
          match username a, password a with
          | Some u, Some p =>
              if Js.truthy (Some u) && Js.truthy (Some p)
              then <["Authorization" := "Basic " +:+ base64 (u +:+ ":" +:+ p)]> headers
              else headers
          | _, _ => headers
          end
      | AuthApiKey =>
          match token a, headerName a with
          | Some t, Some h =>
              if Js.truthy (Some t) && Js.truthy (Some h)
              then assign h t headers else headers
          | _, _ => headers
          end
      | AuthJwt =>
          match jwtSecret a with
          | Some k => if Js.truthy (Some k)
                      then <["Authorization" := "Bearer " +:+ jwtSign now k]> headers
                      else headers
          | None => headers
          end
      end
  end.

(** The request that [executeWebhookRequest] (lines 346-365) prepares:
    the spread of [headers] comes after [Content-Type] and so wins. *)
Definition buildRequest {D : Type}
    (now : Z) (webhook : ExternalWebhook) (payload : Payload D) : Request D :=
  let headers :=
    configureAuthentication now (default ∅ (headers webhook)) (authentication webhook) in
  mkRequest (url webhook) payload
    (headers ∪ {["Content-Type" := "application/json"]})
    (if timeout webhook =? 0 then 30000 else timeout webhook).

(** [executeWebhookRequest]: every POST of the delivery carries the request
    built once before the loop. *)
Definition executeWebhookRequest {D : Type}
    (now : Z) (webhook : ExternalWebhook) (payload : Payload D)
    (respond : nat -> HttpOutcome) : Request D * option Delivery :=
  (buildRequest now webhook payload,
   retryWebhookRequest respond (retryConfig webhook)).

(** What the lookup [prismaRepository.externalWebhook.findUnique] gives. *)
Inductive Lookup :=
| Found (webhook : ExternalWebhook)
| Missing
| LookupFails.

(** Lines 256-283: the event and instance filters. *)
Definition passesFilters
    (webhook : ExternalWebhook) (eventType : string) (instanceName : option string) : bool :=
  let eventOk :=
    match events webhook with
    | Some evs => negb ((0 <? Js.length evs) && negb (bool_decide (eventType ∈ evs)))
    | None => true
    end in
  let instanceOk :=
    match filterConfig webhook, instanceName with
    | Some fc, Some i =>
        if Js.truthy (Some i) then
          negb (match filterInstances fc with
                | Some l => (0 <? Js.length l) && negb (bool_decide (i ∈ l))
                | None => false
                end)
          && negb (match excludeInstances fc with
                   | Some l => (0 <? Js.length l) && bool_decide (i ∈ l)
                   | None => false
                   end)
        else true
    | _, _ => true
    end in
  eventOk && instanceOk.

(** [sendWebhook] (lines 234-324).  [tGate] is the clock when the gate is
    consulted and the envelope is stamped, [tEnd] the clock when a failure
    is recorded.  [None]: the retry loop ran out of fuel. *)
Definition sendWebhook {D : Type}
    (lookup : Lookup) (webhookId eventType : string) (eventData : D)
    (instanceName : option string) (respond : nat -> HttpOutcome)
    (tGate tEnd : Z) (circuitBreakers : gmap string CircuitBreakerState)
  : option (Dispatch D) :=
  match lookup with
  | LookupFails =>
      Some (mkDispatch (recordWebhookFailure webhookId tEnd circuitBreakers) None O)
  | Missing => Some (mkDispatch circuitBreakers None O)
  | Found webhook =>
      if negb (enabled webhook) then Some (mkDispatch circuitBreakers None O)
      else
        let (allowed, circuitBreakers1) := canExecuteWebhook webhookId tGate circuitBreakers in
        if negb allowed then Some (mkDispatch circuitBreakers1 None O)
        else if negb (passesFilters webhook eventType instanceName)
        then Some (mkDispatch circuitBreakers1 None O)
        else
          let payload :=
            mkPayload eventType instanceName eventData tGate (id webhook) (name webhook) in
          match executeWebhookRequest tGate webhook payload respond with
          | (_, None) => None
          | (request, Some d) =>
              Some (mkDispatch
                      (match thrown d with
                       | None => recordWebhookSuccess webhookId circuitBreakers1
                       | Some _ => recordWebhookFailure webhookId tEnd circuitBreakers1
                       end)
                      (if (0 <? posts d)%nat then Some request else None)
                      (posts d))
          end
  end.

(** [sendWebhook] is an [async] method: a call is suspended while its POSTs
    are awaited (line 304), and other calls run meanwhile on the same
    [circuitBreakers].  [startSendWebhook] is the part of a call up to that
    point: it gives the breakers it leaves and the delivery it has started,
    if any.  [finishSendWebhook] is the rest of the call, run on the
    breakers as they are when the delivery ends. *)
Definition startSendWebhook {D : Type}
    (lookup : Lookup) (webhookId eventType : string) (eventData : D)
    (instanceName : option string)
    (tGate tEnd : Z) (circuitBreakers : gmap string CircuitBreakerState)
  : gmap string CircuitBreakerState * option (ExternalWebhook * Payload D) :=
  match lookup with
  | LookupFails => (recordWebhookFailure webhookId tEnd circuitBreakers, None)
  | Missing => (circuitBreakers, None)
  | Found webhook =>
      if negb (enabled webhook) then (circuitBreakers, None)
      else
        let (allowed, circuitBreakers1) := canExecuteWebhook webhookId tGate circuitBreakers in
        if negb allowed then (circuitBreakers1, None)
        else if negb (passesFilters webhook eventType instanceName)
        then (circuitBreakers1, None)
        else
          (circuitBreakers1,
           Some (webhook,
                 mkPayload eventType instanceName eventData tGate (id webhook)
                   (name webhook)))
  end.

Definition finishSendWebhook {D : Type}
    (started : ExternalWebhook * Payload D) (webhookId : string)
    (respond : nat -> HttpOutcome)
    (tGate tEnd : Z) (circuitBreakers : gmap string CircuitBreakerState)
  : option (Dispatch D) :=
  match executeWebhookRequest tGate (fst started) (snd started) respond with
  | (_, None) => None
  | (request, Some d) =>
      Some (mkDispatch
              (match thrown d with
               | None => recordWebhookSuccess webhookId circuitBreakers
               | Some _ => recordWebhookFailure webhookId tEnd circuitBreakers
               end)
              (if (0 <? posts d)%nat then Some request else None)
              (posts d))
  end.

End Builtins.

(** The three places where the service touches the record of a breaker,
    as steps that calls in flight at the same time may interleave. *)
Inductive BreakerStep :=
| Gate (webhookId : string) (now : Z)
| Success (webhookId : string)
| Failure (webhookId : string) (now : Z).

Definition applyStep
    (circuitBreakers : gmap string CircuitBreakerState) (st : BreakerStep)
  : gmap string CircuitBreakerState :=
  match st with
  | Gate i now => snd (canExecuteWebhook i now circuitBreakers)
  | Success i => recordWebhookSuccess i circuitBreakers
  | Failure i now => recordWebhookFailure i now circuitBreakers
  end.

Definition runSteps
    (steps : list BreakerStep) (circuitBreakers : gmap string CircuitBreakerState)
  : gmap string CircuitBreakerState :=
  fold_left applyStep steps circuitBreakers.

(** The clock does not go back along a list of steps that starts no earlier
    than [t]. *)
Fixpoint clockFrom (t : Z) (steps : list BreakerStep) : Prop :=
  match steps with
  | [] => True
  | Gate _ now :: rest => t <= now /\ clockFrom now rest
  | Failure _ now :: rest => t <= now /\ clockFrom now rest
  | Success _ :: rest => clockFrom t rest
  end.

(** The latest clock reading of a list of steps that starts at [t]. *)
Fixpoint clockAfter (t : Z) (steps : list BreakerStep) : Z :=
  match steps with
  | [] => t
  | Gate _ now :: rest => clockAfter now rest
  | Failure _ now :: rest => clockAfter now rest
  | Success _ :: rest => clockAfter t rest
  end.

(** Whether the loop stops after a POST with this outcome, whatever the
    number of attempts left: it resolved, or its status is not retryable. *)
Definition stopsLoop (nonRetryable : list Z) (o : HttpOutcome) : bool :=
  match o with
  | Resolved => true
  | Rejected status _ => isNonRetryable nonRetryable status
  end.

(** The invariant of the breaker records at the clock reading [t]. *)
Definition breakerInvariant (t : Z) (circuitBreakers : gmap string CircuitBreakerState) : Prop :=
  forall i r,
    circuitBreakers !! i = Some r ->
    (state r ≠ CLOSED -> CIRCUIT_BREAKER_THRESHOLD <= failures r)
    /\ (CIRCUIT_BREAKER_THRESHOLD <= failures r -> state r ≠ CLOSED)
    /\ (state r = HALF_OPEN -> CIRCUIT_BREAKER_TIMEOUT < t - lastFailureTime r).

(** A subscriber with signature validation enabled (scenario 9 of the
    specification). *)
Definition signedWebhook : ExternalWebhook :=
  mkWebhook "w1" "signed" "https://example.test/hook" true None None None None
    (Some (mkSecurityConfig true (Some "0123456789abcdef")
             (Some "X-Webhook-Signature") (Some "sha256")))
    None 30000.

(** Five failures in a row for the subscriber ["w1"], at times 1 to 5. *)
Definition fiveFailures : list BreakerStep :=
  [Failure "w1" 1; Failure "w1" 2; Failure "w1" 3; Failure "w1" 4; Failure "w1" 5].

End Webhook.

(** ** Membership of a group and its statistics
       ([InstanceGroupService], unnamed/part_006, and
        [InstanceGroupController.getGroupStats],
        src/api/controllers/external-webhook.controller.ts) *)

Module GroupAdmin.
Import Errors Groups.

Local Open Scope string_scope.
Local Open Scope Z_scope.

(** [repository.instanceGroup.findUnique({ where: { id } })]. *)
Definition findUnique (groups : list InstanceGroup) (groupId : string)
  : option InstanceGroup :=
  List.find (fun g => String.eqb (id g) groupId) groups.

(** [findById] (part_006, lines 55-67). *)
Definition findById (w : World) (groupId : string) : result InstanceGroup :=
  match findUnique (instanceGroup w) groupId with
  | Some g => Returned g
  | None => Thrown (NotFoundException "Instance group not found")
  end.

(** [repository.instanceGroup.update({ where: { id }, data: { instances } })]:
    the row with this id gets the new list; the other columns of the model
    stay ([updatedAt], which the update rewrites, is not one of them). *)
Fixpoint updateInstances
    (groupId : string) (updatedInstances : list string) (groups : list InstanceGroup)
  : list InstanceGroup :=
  match groups with
  | [] => []
  | g :: rest =>
      if String.eqb (id g) groupId
      then mkInstanceGroup (id g) (name g) (alias g) (enabled g) updatedInstances :: rest
      else g :: updateInstances groupId updatedInstances rest
  end.

(** [validateInstances] (part_006, lines 249-259); [instanceTable] holds the
    names of the rows of [repository.instance].  [None]: no error. *)
Fixpoint validateInstances (instanceTable instanceNames : list string) : option Exception :=
  match instanceNames with
  | [] => None
  | instanceName :: rest =>
      if bool_decide (instanceName ∈ instanceTable)
      then validateInstances instanceTable rest
      else Some (BadRequestException ("Instance '" +:+ instanceName +:+ "' not found"))
  end.

(** [addInstance] (part_006, lines 159-187). *)
Definition addInstance
    (instanceTable : list string) (groupId instanceName : string) (w : World)
  : result InstanceGroup * World :=
  match findUnique (instanceGroup w) groupId with
  | None => (Thrown (NotFoundException "Instance group not found"), w)
  | Some group =>
      match validateInstances instanceTable [instanceName] with
      | Some e => (Thrown e, w)
      | None =>
          let currentInstances := instances group in
          if bool_decide (instanceName ∈ currentInstances)
          then (Thrown (BadRequestException "Instance is already in the group"), w)
          else
            let updatedInstances := (currentInstances ++ [instanceName])%list in
            (Returned (mkInstanceGroup (id group) (name group) (alias group)
                         (enabled group) updatedInstances),
             mkWorld (updateInstances groupId updatedInstances (instanceGroup w))
               (waInstances w) (rotation w))
      end
  end.

(** [removeInstance] (part_006, lines 189-218). *)
Definition removeInstance (groupId instanceName : string) (w : World)
  : result InstanceGroup * World :=
  match findUnique (instanceGroup w) groupId with
  | None => (Thrown (NotFoundException "Instance group not found"), w)
  | Some group =>
      let currentInstances := instances group in
      if negb (bool_decide (instanceName ∈ currentInstances))
      then (Thrown (BadRequestException "Instance is not in the group"), w)
      else
        let updatedInstances :=
          List.filter (fun name => negb (String.eqb name instanceName)) currentInstances in
        if Js.length updatedInstances =? 0
        then (Thrown (BadRequestException
                        "Cannot remove the last instance from the group"), w)
        else
          (Returned (mkInstanceGroup (id group) (name group) (alias group)
                       (enabled group) updatedInstances),
           mkWorld (updateInstances groupId updatedInstances (instanceGroup w))
             (waInstances w) (rotation w))
  end.

Record GroupStats := mkGroupStats {
  totalInstances : Z;
  activeInstances : Z;
  inactiveInstances : Z;
  statsInstances : list (string * string)
}.

(** The loop of [getGroupStats] (controller, lines 737-753) from the
    instances still to visit and the values of [instanceStats],
    [activeCount] and [inactiveCount]. *)
Fixpoint statsLoop
    (w : World) (instances : list string) (instanceStats : list (string * string))
    (activeCount inactiveCount : Z) : list (string * string) * Z * Z :=
  match instances with
  | [] => (instanceStats, activeCount, inactiveCount)
  | instanceName :: rest =>
      let status := if isOpen w instanceName then "active" else "inactive" in
      statsLoop w rest (instanceStats ++ [(instanceName, status)])%list
        (if String.eqb status "active" then activeCount + 1 else activeCount)
        (if String.eqb status "active" then inactiveCount else inactiveCount + 1)
  end.

Section Controller.
(** [String.prototype.trim] of the host. *)
Variable trim : string -> string.

(** [getGroupStats] (controller, lines 713-754). *)
Definition getGroupStats (groupId : string) (w : World) : result GroupStats :=
  if negb (Js.truthy (Some groupId)) || (Z.of_nat (String.length (trim groupId)) =? 0)
  then Thrown (BadRequestException "Group ID is required")
  else
    match findById w groupId with
    | Thrown e => Thrown e
    | Returned group =>
        let '(instanceStats, activeCount, inactiveCount) :=
          statsLoop w (instances group) [] 0 0 in
        Returned (mkGroupStats (Js.length (instances group)) activeCount inactiveCount
                    instanceStats)
    end.

End Controller.

(** A world with the group ["g1"] of the instances ["a"], ["b"] and ["c"],
    of which ["a"] and ["c"] are connected. *)
Definition salesWorld : World :=
  mkWorld [mkInstanceGroup "g1" "Sales" "sales" true ["a"; "b"; "c"]]
    {["a" := "open"; "b" := "close"; "c" := "open"]}
    (Rotation.initialState Rotation.CacheOff ∅).

End GroupAdmin.

(** ** Balanced send without a group
       ([SendMessageController.sendTextWithBalancing], unnamed/part_008) *)

Module Sends.
Import Errors Rotation.

Local Open Scope string_scope.
Local Open Scope Z_scope.

(** [getAvailableInstances] (lines 337-343).  The names come in the order
    in which the map enumerates its keys; the selection sorts them. *)
Definition getAvailableInstances (w : Groups.World) : list string :=
  List.filter (Groups.isOpen w) (map fst (map_to_list (Groups.waInstances w))).

Record ContactBalancingInfo := mkContactBalancingInfo {
  infoRotationCount : Z;
  infoUsedInstancesInCycle : Z;
  infoLastUsedInstance : option string
}.

(** [getContactBalancingInfo] (lines 444-461). *)
Definition getContactBalancingInfo (contactNumber : string) (s : State)
  : ContactBalancingInfo :=
  let normalizedContact := normalizeContactNumber contactNumber in
  match getRotationDataFromCache normalizedContact s with
  | None => mkContactBalancingInfo 0 0 None
  | Some rotationInfo =>
      mkContactBalancingInfo (rotationCount rotationInfo)
        (Js.setSize (usedInstances rotationInfo)) (lastUsedInstance rotationInfo)
  end.

Section Send.
(** The result of the messaging collaborator, and the collaborator:
    [waMonitor.waInstances[name].textMessage(data)]. *)
Variable SendResult : Type.
Variable textMessage : string -> string -> string -> result SendResult.

Record BalancedResponse := mkBalancedResponse {
  sendResult : SendResult;
  instanceUsed : string;
  balancingInfo : ContactBalancingInfo
}.

(** [sendTextWithBalancing] (lines 143-173) of the number and the text of
    the message, at the time of the call.  The [catch] logs and rethrows. *)
Definition sendTextWithBalancing
    (number text : string) (now : Z) (w : Groups.World)
  : result BalancedResponse * Groups.World :=
  let availableInstances := getAvailableInstances w in
  if Js.length availableInstances =? 0
  then (Thrown (InternalServerErrorException "Nenhuma instância disponível para envio"), w)
  else
    match selectInstanceForContact number availableInstances now (Groups.rotation w) with
    | None => (Thrown (TypeError "selected instance is undefined"), w)
    | Some (selectedInstance, s') =>
        let w' := Groups.mkWorld (Groups.instanceGroup w) (Groups.waInstances w) s' in
        match textMessage selectedInstance number text with
        | Thrown e => (Thrown e, w')
        | Returned r =>
            (Returned (mkBalancedResponse r selectedInstance
                         (getContactBalancingInfo number s')), w')
        end
    end.

End Send.

Arguments sendResult {SendResult}.
Arguments instanceUsed {SendResult}.
Arguments balancingInfo {SendResult}.

End Sends.

(** ** Statistics, signatures and addresses of the subscriber service
       ([ExternalWebhookService], src/api/services/external-webhook.service.ts) *)

Module WebhookStats.
Import Webhook.

Local Open Scope string_scope.
Local Open Scope Z_scope.

(** The subscriber a step is about. *)
Definition stepId (st : BreakerStep) : string :=
  match st with
  | Gate i _ => i
  | Success i => i
  | Failure i _ => i
  end.

(** The columns of a subscriber row that [updateWebhookStats] writes
    (migration unnamed/part_002, lines 14-19). *)
Record ExecutionStats := mkExecutionStats {
  lastExecutionAt : option Z;
  lastExecutionStatus : option string;
  lastExecutionError : option string;
  totalExecutions : Z;
  successfulExecutions : Z;
  failedExecutions : Z
}.

(** The largest value of an [INTEGER] column. *)
Definition INTEGER_MAX : Z := 2147483647.

(** [updateWebhookStats] (lines 511-545) at the time [now].  The update of
    a row that does not exist, or that would take a counter out of the range
    of its column, raises; the error is caught and logged.  An [undefined]
    [errorMessage] leaves the column as it is. *)
Definition updateWebhookStats
    (webhookId : string) (success : bool) (errorMessage : option string) (now : Z)
    (table : gmap string ExecutionStats) : gmap string ExecutionStats :=
  match table !! webhookId with
  | None => table
  | Some row =>
      if success then
        if (INTEGER_MAX <? totalExecutions row + 1)
           || (INTEGER_MAX <? successfulExecutions row + 1)
        then table
        else
          <[webhookId :=
              mkExecutionStats (Some now) (Some "success") None
                (totalExecutions row + 1) (successfulExecutions row + 1)
                (failedExecutions row)]> table
      else
        if (INTEGER_MAX <? totalExecutions row + 1)
           || (INTEGER_MAX <? failedExecutions row + 1)
        then table
        else
          <[webhookId :=
              mkExecutionStats (Some now) (Some "failed")
                (match errorMessage with
                 | Some m => Some m
                 | None => lastExecutionError row
                 end)
                (totalExecutions row + 1) (successfulExecutions row)
                (failedExecutions row + 1)]> table
  end.

(** The call of [updateWebhookStats] that a delivery made (lines 445, 472
    and 488 of [retryWebhookRequest]), if it made one. *)
Definition recordDelivery
    (webhookId : string) (d : Delivery) (now : Z) (table : gmap string ExecutionStats)
  : gmap string ExecutionStats :=
  match statsUpdate d with
  | Some (success, errorMessage) =>
      updateWebhookStats webhookId success errorMessage now table
  | None => table
  end.

(** The counters of every row add up and are not negative. *)
Definition statsConsistent (table : gmap string ExecutionStats) : Prop :=
  forall i row,
    table !! i = Some row ->
    totalExecutions row = successfulExecutions row + failedExecutions row
    /\ 0 <= successfulExecutions row /\ 0 <= failedExecutions row.

Section Signature.
Variable hmacHex : string -> string -> string -> string.

(** [crypto.timingSafeEqual] on the bytes of two strings: it raises a
    [RangeError] when the lengths differ; [None] is that error. *)
Definition timingSafeEqual (a b : string) : option bool :=
  if Z.of_nat (String.length a) =? Z.of_nat (String.length b)
  then Some (String.eqb a b)
  else None.

(** [validateWebhookSignature] (lines 633-641). *)
Definition validateWebhookSignature
    (payload signature secret algorithm : string) : option bool :=
  let expectedSignature := generateWebhookSignature hmacHex payload secret algorithm in
  timingSafeEqual signature expectedSignature.

End Signature.

(** A row with three deliveries, two of them successful. *)
Definition usedRow : ExecutionStats :=
  mkExecutionStats (Some 10) (Some "success") None 3 2 1.

End WebhookStats.

(** ** Dispatches that do not overlap *)

Module WebhookRuns.
Import Webhook.

Local Open Scope string_scope.
Local Open Scope Z_scope.

(** One call of [sendWebhook]: its arguments, what the lookup and the
    subscriber answer, and the clock readings at its gate check and at its
    end. *)
Record DispatchCall (D : Type) := mkDispatchCall {
  callLookup : Lookup;
  callId : string;
  callEvent : string;
  callData : D;
  callInstance : option string;
  callRespond : nat -> HttpOutcome;
  callGate : Z;
  callEnd : Z
}.

Arguments mkDispatchCall {D}.
Arguments callLookup {D}.
Arguments callId {D}.
Arguments callEvent {D}.
Arguments callData {D}.
Arguments callInstance {D}.
Arguments callRespond {D}.
Arguments callGate {D}.
Arguments callEnd {D}.

(** The clock does not go back along calls that do not overlap, from the
    reading [t] on: each call ends before the next one consults the gate. *)
Fixpoint callsClock {D : Type} (t : Z) (calls : list (DispatchCall D)) : Prop :=
  match calls with
  | [] => True
  | c :: rest => t <= callGate c /\ callGate c <= callEnd c /\ callsClock (callEnd c) rest
  end.

(** No record counts a failure later than the clock reading [t]. *)
Definition timeInvariant (t : Z) (circuitBreakers : gmap string CircuitBreakerState) : Prop :=
  forall i r,
    circuitBreakers !! i = Some r -> 1 <= failures r -> lastFailureTime r <= t.

Section Runs.
Variable base64 : string -> string.
Variable jwtSign : Z -> string -> string.
Variable D : Type.

(** Calls of [sendWebhook] that do not overlap: each one runs to its end on
    the breakers that the one before left.  The dispatches come in the
    order of the calls.  [None]: a retry loop ran out of fuel. *)
Fixpoint runDispatches
    (calls : list (DispatchCall D)) (circuitBreakers : gmap string CircuitBreakerState)
  : option (list (Dispatch D)) :=
  match calls with
  | [] => Some []
  | c :: rest =>
      match sendWebhook base64 jwtSign (callLookup c) (callId c) (callEvent c)
              (callData c) (callInstance c) (callRespond c) (callGate c) (callEnd c)
              circuitBreakers with
      | None => None
      | Some d =>
          match runDispatches rest (breakers d) with
          | None => None
          | Some ds => Some (d :: ds)
          end
      end
  end.

End Runs.

(** Two dispatches to the subscriber ["w1"], one after the other, half a
    minute after its fifth failure. *)
Definition twoCalls : list (DispatchCall unit) :=
  [mkDispatchCall (Found signedWebhook) "w1" "MESSAGES_UPSERT" tt (Some "inst1")
     (fun _ => Resolved) 30000 30001;
   mkDispatchCall (Found signedWebhook) "w1" "MESSAGES_UPSERT" tt (Some "inst1")
     (fun _ => Resolved) 30002 30003].

(** Four failures, two dispatches admitted while the circuit is closed, and
    then the failure of the first of them and the success of the second. *)
Definition inFlight : list BreakerStep :=
  [Failure "w1" 1; Failure "w1" 2; Failure "w1" 3; Failure "w1" 4;
   Gate "w1" 50; Gate "w1" 51; Failure "w1" 100; Success "w1"].

End WebhookRuns.

(** ** Addresses and CIDR ranges
       ([isIpAllowed], [isIpInCidr] and [ipToInt], lines 643-672 of
        src/api/services/external-webhook.service.ts) *)

Module Ip.

Local Open Scope string_scope.
Local Open Scope Z_scope.

(** The numbers that occur here: an integer (below [2^53] in size, so that
    the host computes with it exactly), or [NaN] ([None]). *)
Definition number := option Z.

(** [ToInt32] and [ToUint32]; [NaN] becomes 0. *)
Definition toInt32 (x : number) : Z :=
  match x with
  | Some v => (v + 2 ^ 31) mod 2 ^ 32 - 2 ^ 31
  | None => 0
  end.

Definition toUint32 (x : number) : Z :=
  match x with
  | Some v => v mod 2 ^ 32
  | None => 0
  end.

(** [a << b], [a >>> b], [~a], [a & b] and [a + b]. *)
Definition shiftLeft (a b : number) : Z :=
  toInt32 (Some (Z.shiftl (toInt32 a) (Z.land (toUint32 b) 31))).

Definition unsignedShiftRight (a b : number) : Z :=
  Z.shiftr (toUint32 a) (Z.land (toUint32 b) 31).

Definition bitNot (a : number) : Z := Z.lnot (toInt32 a).

Definition bitAnd (a b : number) : Z := Z.land (toInt32 a) (toInt32 b).

Definition add (a b : number) : number :=
  match a, b with
  | Some x, Some y => Some (x + y)
  | _, _ => None
  end.

(** White space that [parseInt] skips; of the white space of the host, the
    characters below 128. *)
Definition isWhiteSpace (a : ascii) : bool :=
  let n := N_of_ascii a in
  ((9 <=? n) && (n <=? 13) || (n =? 32))%N.

Fixpoint skipWhiteSpace (s : string) : string :=
  match s with
  | String a rest => if isWhiteSpace a then skipWhiteSpace rest else s
  | EmptyString => s
  end.

(** The value of a digit in a radix, if it is one. *)
Definition digitValue (radix : Z) (a : ascii) : option Z :=
  let n := Z.of_N (N_of_ascii a) in
  let v :=
    if (48 <=? n) && (n <=? 57) then Some (n - 48)
    else if (97 <=? n) && (n <=? 122) then Some (n - 87)
    else if (65 <=? n) && (n <=? 90) then Some (n - 55)
    else None in
  match v with
  | Some d => if d <? radix then Some d else None
  | None => None
  end.

(** The value of the longest prefix of digits; [acc] is the value so far,
    [None] before the first digit. *)
Fixpoint digitsPrefix (radix : Z) (s : string) (acc : option Z) : option Z :=
  match s with
  | String a rest =>
      match digitValue radix a with
      | Some d => digitsPrefix radix rest (Some (default 0 acc * radix + d))
      | None => acc
      end
  | EmptyString => acc
  end.

(** [parseInt(s, radix)]; [radix = None] is the call with one argument. *)
Definition parseInt (s : string) (radix : number) : number :=
  let s1 := skipWhiteSpace s in
  let '(sign, s2) :=
    match s1 with
    | String "-" rest => (-1, rest)
    | String "+" rest => (1, rest)
    | _ => (1, s1)
    end in
  let R := toInt32 radix in
  if negb (R =? 0) && ((R <? 2) || (36 <? R)) then None
  else
    let stripPrefix := (R =? 0) || (R =? 16) in
    let R1 := if R =? 0 then 10 else R in
    let '(R2, s3) :=
      match s2 with
      | String "0" (String x rest) =>
          if stripPrefix && (Ascii.eqb x "x" || Ascii.eqb x "X")
          then (16, rest) else (R1, s2)
      | _ => (R1, s2)
      end in
    match digitsPrefix R2 s3 None with
    | Some v => Some (sign * v)
    | None => None
    end.

(** [s.split(sep)] for a separator of one character. *)
Fixpoint split (sep : ascii) (s : string) : list string :=
  match s with
  | EmptyString => [EmptyString]
  | String a rest =>
      if Ascii.eqb a sep then EmptyString :: split sep rest
      else
        match split sep rest with
        | h :: t => String a h :: t
        | [] => [String a EmptyString]
        end
  end.

(** [s.includes(c)] for a string of one character. *)
Fixpoint includes (s : string) (c : ascii) : bool :=
  match s with
  | String a rest => Ascii.eqb a c || includes rest c
  | EmptyString => false
  end.

(** [ipToInt] (lines 670-672). *)
Definition ipToInt (ip : string) : Z :=
  unsignedShiftRight
    (fold_left (fun acc octet => add (Some (shiftLeft acc (Some 8))) (parseInt octet (Some 10)))
       (split "." ip) (Some 0))
    (Some 0).

(** [isIpInCidr] (lines 660-668).  [split] gives at least one part; the
    second one is [undefined] when there is no slash, and
    [parseInt(undefined)] is [NaN]. *)
Definition isIpInCidr (ip cidr : string) : bool :=
  match split "/" cidr with
  | [] => false
  | network :: rest =>
      let prefixLength := rest !! 0%nat in
      let mask :=
        bitNot (Some (unsignedShiftRight (Some 4294967295)
                        (match prefixLength with
                         | Some p => parseInt p None
                         | None => None
                         end))) in
      let ipInt := ipToInt ip in
      let networkInt := ipToInt network in
      bitAnd (Some ipInt) (Some mask) =? bitAnd (Some networkInt) (Some mask)
  end.

(** [isIpAllowed] (lines 643-658). *)
Fixpoint isIpAllowed (clientIp : string) (allowedIps : list string) : bool :=
  match allowedIps with
  | [] => false
  | allowedIp :: rest =>
      if includes allowedIp "/"
      then (if isIpInCidr clientIp allowedIp then true else isIpAllowed clientIp rest)
      else (if String.eqb clientIp allowedIp then true else isIpAllowed clientIp rest)
  end.

(** The octets that [ipToInt] reads from an address. *)
Definition octets (ip : string) : list number :=
  map (fun octet => parseInt octet (Some 10)) (split "." ip).

End Ip.

(** ** Proof automation *)

(** Boolean tests on code units, as propositions. *)
Ltac bool_to_prop H :=
  repeat (rewrite ?orb_true_iff, ?andb_true_iff, ?N.leb_le, ?N.eqb_eq in H).

(** Side conditions on the records of the circuit breaker. *)
Ltac breaker_side :=
  simpl; unfold Webhook.CIRCUIT_BREAKER_THRESHOLD, Webhook.CIRCUIT_BREAKER_TIMEOUT in *; intros;
  try congruence; try lia.

(* ===================================================================== *)
(** * Part II: properties                                                  *)
(* ===================================================================== *)

Module AliasFacts.
Import Alias.

Example alias_example_1 :
  transformToAlias asciiToLowerCase (ofString "  My  Group_01 -- A ")
  = ofString "my-group01-a".
Proof. reflexivity. Qed.

Example alias_example_2 :
  transformToAlias asciiToLowerCase (ofString " - ") = [].
Proof. reflexivity. Qed.

Lemma aliasChar_not_space c : isAliasChar c = true -> isSpace c = false.
Proof.
  unfold isAliasChar, isSpace, hyphen. intros H.
  apply not_true_is_false. intros Hs.
  bool_to_prop H. bool_to_prop Hs. lia.
Qed.

Lemma replaceSpaceRuns_alias b s :
  forallb isAliasChar s = true -> replaceSpaceRuns b s = s.
Proof.
  revert b. induction s as [|c s IH]; intros b H; simpl in *; [reflexivity|].
  apply andb_true_iff in H as [Hc Hs].
  rewrite (aliasChar_not_space _ Hc). f_equal. auto.
Qed.

Lemma removeInvalid_alias s :
  forallb isAliasChar s = true -> removeInvalid s = s.
Proof.
  unfold removeInvalid. induction s as [|c s IH]; simpl; intros H; [reflexivity|].
  apply andb_true_iff in H as [Hc Hs]. rewrite Hc. f_equal. auto.
Qed.

Lemma removeInvalid_forall s : forallb isAliasChar (removeInvalid s) = true.
Proof.
  unfold removeInvalid. induction s as [|c s IH]; simpl; [reflexivity|].
  destruct (isAliasChar c) eqn:E; simpl; [rewrite E|]; auto.
Qed.

Lemma collapseHyphens_forall b s :
  forallb isAliasChar s = true -> forallb isAliasChar (collapseHyphens b s) = true.
Proof.
  revert b. induction s as [|c s IH]; intros b H; simpl in *; [reflexivity|].
  apply andb_true_iff in H as [Hc Hs].
  destruct (N.eqb_spec c hyphen) as [->|Hne].
  - destruct b; [auto|]. change (forallb isAliasChar (collapseHyphens true s) = true). auto.
  - simpl. rewrite Hc. simpl. auto.
Qed.

(** After collapsing, hyphens are isolated; when the scan starts inside a
    run, the output does not start with a hyphen. *)
Lemma collapseHyphens_sparse b s :
  sparseHyphens (collapseHyphens b s) = true
  /\ (b = true -> forall r, collapseHyphens b s <> hyphen :: r).
Proof.
  revert b. induction s as [|c s IH]; intros b; simpl.
  - split; [reflexivity | intros _ r; discriminate].
  - destruct (N.eqb_spec c hyphen) as [->|Hne].
    + destruct b.
      * apply IH.
      * destruct (IH true) as [Hs Hh]. split; [|discriminate].
        simpl. destruct (collapseHyphens true s) as [|d r] eqn:E; [reflexivity|].
        destruct (N.eqb_spec d hyphen) as [->|Hd].
        -- exfalso. exact (Hh eq_refl r eq_refl).
        -- exact Hs.
    + destruct (IH false) as [Hs _]. split.
      * simpl. destruct (collapseHyphens false s) as [|d r] eqn:E; [reflexivity|].
        destruct (N.eqb_spec c hyphen); [contradiction|]. simpl. exact Hs.
      * intros _ r Heq. injection Heq as Hc _. contradiction.
Qed.

Lemma collapseHyphens_id s :
  sparseHyphens s = true -> collapseHyphens false s = s.
Proof.
  induction s as [|c s IH]; simpl; [reflexivity|]. intros H.
  destruct s as [|d r].
  - simpl. destruct (N.eqb_spec c hyphen) as [->|]; reflexivity.
  - apply andb_true_iff in H as [Hcd Hs].
    destruct (N.eqb_spec c hyphen) as [->|Hne].
    + f_equal. change ((hyphen =? hyphen)%N) with true in Hcd. simpl in Hcd.
      apply negb_true_iff in Hcd.
      change (collapseHyphens true (d :: r)) with
        (if (d =? hyphen)%N then (collapseHyphens true r)
         else d :: collapseHyphens false r).
      rewrite Hcd. specialize (IH Hs).
      change (collapseHyphens false (d :: r)) with
        (if (d =? hyphen)%N then hyphen :: collapseHyphens true r
         else d :: collapseHyphens false r) in IH.
      rewrite Hcd in IH. exact IH.
    + f_equal. auto.
Qed.

Lemma stripTrailing_forall s :
  forallb isAliasChar s = true -> forallb isAliasChar (stripTrailingHyphen s) = true.
Proof.
  induction s as [|c s IH]; simpl; [reflexivity|]. intros H.
  apply andb_true_iff in H as [Hc Hs].
  destruct s as [|d r].
  - destruct (c =? hyphen)%N; simpl; [reflexivity | rewrite Hc; reflexivity].
  - change (forallb isAliasChar (c :: stripTrailingHyphen (d :: r)) = true).
    simpl forallb at 1. rewrite Hc. simpl. exact (IH Hs).
Qed.

Lemma stripTrailing_sparse s :
  sparseHyphens s = true -> sparseHyphens (stripTrailingHyphen s) = true.
Proof.
  induction s as [|c s IH]; [reflexivity|]. intros H.
  destruct s as [|d r].
  - simpl. destruct (c =? hyphen)%N; reflexivity.
  - change (stripTrailingHyphen (c :: d :: r)) with (c :: stripTrailingHyphen (d :: r)).
    simpl in H. apply andb_true_iff in H as [Hcd Hs].
    specialize (IH Hs).
    destruct r as [|e r'].
    + simpl. destruct (N.eqb_spec d hyphen) as [->|Hd]; [reflexivity|].
      simpl. apply N.eqb_neq in Hd. rewrite Hd, andb_false_r. reflexivity.
    + change (stripTrailingHyphen (d :: e :: r')) with (d :: stripTrailingHyphen (e :: r')) in *.
      simpl. rewrite Hcd. simpl. exact IH.
Qed.

(** The last code unit of a stripped sparse string is not a hyphen, so a
    second stripping finds nothing to remove. *)
Lemma stripTrailing_idem s :
  sparseHyphens s = true ->
  stripTrailingHyphen (stripTrailingHyphen s) = stripTrailingHyphen s.
Proof.
  induction s as [|c s IH]; [reflexivity|]. intros H.
  destruct s as [|d r].
  - simpl. destruct (N.eqb_spec c hyphen) as [->|Hne]; [reflexivity|].
    simpl. destruct (N.eqb_spec c hyphen); [contradiction | reflexivity].
  - simpl in H. apply andb_true_iff in H as [Hcd Hs].
    specialize (IH Hs).
    change (stripTrailingHyphen (c :: d :: r)) with (c :: stripTrailingHyphen (d :: r)).
    destruct (stripTrailingHyphen (d :: r)) as [|e r'] eqn:E.
    + (* d :: r was a single hyphen *)
      destruct r as [|e r']; [|discriminate E].
      simpl in E. destruct (N.eqb_spec d hyphen) as [Hd|Hd]; [|discriminate E].
      rewrite andb_true_r in Hcd.
      simpl. rewrite (proj1 (negb_true_iff _) Hcd). reflexivity.
    + change (stripTrailingHyphen (c :: e :: r')) with (c :: stripTrailingHyphen (e :: r')).
      rewrite IH. reflexivity.
Qed.

Lemma stripTrailing_head c s r :
  stripTrailingHyphen s = c :: r -> exists r', s = c :: r'.
Proof.
  destruct s as [|d s']; [discriminate|].
  destruct s' as [|e s''].
  - simpl. destruct (d =? hyphen)%N; [discriminate|]. intros [= -> _]. eauto.
  - change (stripTrailingHyphen (d :: e :: s'')) with (d :: stripTrailingHyphen (e :: s'')).
    intros [= -> _]. eauto.
Qed.

Lemma stripEdge_forall s :
  forallb isAliasChar s = true -> forallb isAliasChar (stripEdgeHyphens s) = true.
Proof.
  intros H. unfold stripEdgeHyphens. apply stripTrailing_forall.
  destruct s as [|c r]; [reflexivity|].
  destruct (c =? hyphen)%N; [|exact H].
  simpl in H. apply andb_true_iff in H as [_ H]. exact H.
Qed.

Lemma sparse_tail c s : sparseHyphens (c :: s) = true -> sparseHyphens s = true.
Proof.
  simpl. destruct s; [reflexivity|]. intros H.
  apply andb_true_iff in H as [_ H]. exact H.
Qed.

Lemma stripEdge_sparse s :
  sparseHyphens s = true -> sparseHyphens (stripEdgeHyphens s) = true.
Proof.
  intros H. unfold stripEdgeHyphens. apply stripTrailing_sparse.
  destruct s as [|c r]; [reflexivity|].
  destruct (c =? hyphen)%N; [|exact H]. exact (sparse_tail _ _ H).
Qed.

Lemma stripEdge_idem s :
  sparseHyphens s = true -> stripEdgeHyphens (stripEdgeHyphens s) = stripEdgeHyphens s.
Proof.
  intros H. unfold stripEdgeHyphens at 1.
  assert (Hhead : forall r, stripEdgeHyphens s <> hyphen :: r).
  { intros r Heq. unfold stripEdgeHyphens in Heq.
    apply stripTrailing_head in Heq as [r' Heq].
    destruct s as [|c t]; [discriminate|].
    destruct (N.eqb_spec c hyphen) as [->|Hne].
    - subst t. simpl in H. change ((hyphen =? hyphen)%N) with true in H.
      simpl in H. destruct r'; discriminate.
    - injection Heq as Hc _. contradiction. }
  destruct (stripEdgeHyphens s) as [|c r] eqn:E; [reflexivity|].
  destruct (N.eqb_spec c hyphen) as [->|Hne].
  - exfalso. exact (Hhead r eq_refl).
  - rewrite <- E. unfold stripEdgeHyphens. apply stripTrailing_idem.
    destruct s as [|d t]; [reflexivity|].
    destruct (d =? hyphen)%N; [exact (sparse_tail _ _ H) | exact H].
Qed.

Section Idempotence.
Variable toLowerCase : jsstring -> jsstring.

Lemma transformToAlias_chars x :
  forallb isAliasChar (transformToAlias toLowerCase x) = true.
Proof.
  unfold transformToAlias.
  apply stripEdge_forall, collapseHyphens_forall, removeInvalid_forall.
Qed.

Lemma transformToAlias_sparse x :
  sparseHyphens (transformToAlias toLowerCase x) = true.
Proof.
  unfold transformToAlias. apply stripEdge_sparse, collapseHyphens_sparse.
Qed.

End Idempotence.

(** C9: [transformToAlias] is idempotent, and its result is the empty
    string or matches [^[a-z0-9-]+$]; for every [toLowerCase] that, like
    the builtin, leaves a string of lower-case ASCII letters, digits and
    hyphens as it is. *)
Theorem transformToAlias_idempotent_and_wellformed
    (toLowerCase : jsstring -> jsstring) (x : jsstring) :
  (forall s, forallb isAliasChar s = true -> toLowerCase s = s) ->
  transformToAlias toLowerCase (transformToAlias toLowerCase x)
  = transformToAlias toLowerCase x
  /\ (transformToAlias toLowerCase x = []
      \/ matchesAliasPattern (transformToAlias toLowerCase x) = true).
Proof.
  intros toLowerCase_alias.
  pose proof (transformToAlias_chars toLowerCase x) as Hc.
  pose proof (transformToAlias_sparse toLowerCase x) as Hs.
  split.
  - set (r := transformToAlias toLowerCase x) in *.
    unfold transformToAlias at 1.
    rewrite (toLowerCase_alias r Hc), (replaceSpaceRuns_alias _ r Hc),
      (removeInvalid_alias r Hc), (collapseHyphens_id r Hs).
    subst r. unfold transformToAlias at 1 2.
    apply stripEdge_idem, collapseHyphens_sparse.
  - destruct (transformToAlias toLowerCase x) as [|c r] eqn:E; [left; reflexivity|].
    right. exact Hc.
Qed.

Lemma asciiToLowerCase_alias s :
  forallb isAliasChar s = true -> asciiToLowerCase s = s.
Proof.
  unfold asciiToLowerCase. induction s as [|c s IH]; simpl; [reflexivity|].
  intros H. apply andb_true_iff in H as [Hc Hs]. rewrite (IH Hs). f_equal.
  unfold isAliasChar, hyphen in Hc.
  bool_to_prop Hc.
  destruct (N.leb_spec 65 c); [|reflexivity].
  destruct (N.leb_spec c 90); [|reflexivity].
  exfalso. lia.
Qed.

Lemma transformToAlias_idempotent_and_wellformed_witness :
  let x := ofString " Sales  Team #1 " in
  transformToAlias asciiToLowerCase (transformToAlias asciiToLowerCase x)
  = transformToAlias asciiToLowerCase x
  /\ (transformToAlias asciiToLowerCase x = []
      \/ matchesAliasPattern (transformToAlias asciiToLowerCase x) = true).
Proof.
  exact (transformToAlias_idempotent_and_wellformed asciiToLowerCase
           (ofString " Sales  Team #1 ") asciiToLowerCase_alias).
Defined.

End AliasFacts.

(** ** Facts about the JavaScript values *)

Module JsFacts.
Import Js.

Local Open Scope string_scope.
Local Open Scope Z_scope.

Lemma setHas_true s x : setHas s x = true <-> x ∈ s.
Proof. unfold setHas. apply bool_decide_eq_true. Qed.

Lemma setHas_false s x : setHas s x = false <-> x ∉ s.
Proof. unfold setHas. apply bool_decide_eq_false. Qed.

Lemma setAdd_elem s x y : y ∈ setAdd s x <-> y ∈ s \/ y = x.
Proof.
  unfold setAdd. destruct (setHas s x) eqn:E.
  - apply setHas_true in E. split; [auto|]. intros [H| ->]; assumption.
  - rewrite elem_of_app, list_elem_of_singleton. reflexivity.
Qed.

Lemma setAdd_NoDup s x : NoDup s -> NoDup (setAdd s x).
Proof.
  intros H. unfold setAdd. destruct (setHas s x) eqn:E; [exact H|].
  apply setHas_false in E. apply NoDup_app. split; [exact H|]. split.
  - intros y Hy Hx. apply list_elem_of_singleton in Hx. subst. contradiction.
  - apply NoDup_singleton.
Qed.

Lemma fold_setAdd_NoDup l acc : NoDup acc -> NoDup (fold_left setAdd l acc).
Proof.
  revert acc. induction l as [|x l IH]; intros acc H; simpl; [exact H|].
  apply IH, setAdd_NoDup, H.
Qed.

Lemma newSet_NoDup l : NoDup (newSet l).
Proof. apply fold_setAdd_NoDup, NoDup_nil_2. Qed.

Lemma fold_setAdd_fresh l acc :
  NoDup (acc ++ l)%list -> fold_left setAdd l acc = (acc ++ l)%list.
Proof.
  revert acc. induction l as [|x l IH]; intros acc H; simpl.
  - rewrite app_nil_r. reflexivity.
  - assert (Hx : x ∉ acc).
    { apply NoDup_app in H as (_ & Hd & _). intros Hin.
      apply (Hd x Hin). left. }
    unfold setAdd at 2. rewrite (proj2 (setHas_false acc x) Hx).
    rewrite IH; rewrite <- app_assoc; [reflexivity | exact H].
Qed.

(** A set built from the members of a set is that set. *)
Lemma newSet_id l : NoDup l -> newSet l = l.
Proof. intros H. unfold newSet. rewrite fold_setAdd_fresh; [reflexivity | exact H]. Qed.

Lemma newSet_newSet l : newSet (newSet l) = newSet l.
Proof. apply newSet_id, newSet_NoDup. Qed.

Lemma truthy_nonempty x : x ≠ "" -> truthy (Some x) = true.
Proof.
  intros H. simpl. apply negb_true_iff. apply String.eqb_neq. exact H.
Qed.

Lemma orNull_nonempty x : x ≠ "" -> orNull (Some x) = Some x.
Proof. intros H. unfold orNull. rewrite truthy_nonempty; auto. Qed.

Lemma orNull_id v : v ≠ Some "" -> orNull v = v.
Proof.
  destruct v as [x|]; [|reflexivity]. intros H. apply orNull_nonempty. congruence.
Qed.

Lemma sort_perm l : sort l ≡ₚ l.
Proof. apply merge_sort_Permutation. Qed.

Lemma sort_length l : List.length (sort l) = List.length l.
Proof. apply Permutation_length, sort_perm. Qed.

Lemma sort_elem l x : x ∈ sort l <-> x ∈ l.
Proof. rewrite (sort_perm l). reflexivity. Qed.

Lemma sort_NoDup l : NoDup l -> NoDup (sort l).
Proof. intros H. rewrite (sort_perm l). exact H. Qed.

Lemma indexOf_range l x : -1 <= indexOf l x < length l.
Proof.
  unfold length. induction l as [|y l IH]; simpl indexOf; [simpl; lia|].
  destruct (String.eqb y x); [simpl List.length; lia|].
  destruct (Z.ltb_spec (indexOf l x) 0); simpl List.length; lia.
Qed.

Lemma at_Some l i : 0 <= i < length l -> exists x, at_ l i = Some x /\ x ∈ l.
Proof.
  unfold length, at_. intros H.
  destruct (Z.ltb_spec i 0); [lia|].
  destruct (lookup_lt_is_Some_2 l (Z.to_nat i)) as [x Hx]; [lia|].
  exists x. split; [exact Hx|]. eapply list_elem_of_lookup_2, Hx.
Qed.

Lemma at_elem l i x : at_ l i = Some x -> x ∈ l.
Proof.
  unfold at_. destruct (i <? 0); [discriminate|].
  apply list_elem_of_lookup_2.
Qed.

Lemma find_Some p l x : find p l = Some x -> x ∈ l /\ p x = true.
Proof.
  unfold find. intros H. apply List.find_some in H as [Hin Hp].
  split; [apply list_elem_of_In; exact Hin | exact Hp].
Qed.

Lemma find_exists p l x : x ∈ l -> p x = true -> exists y, find p l = Some y.
Proof.
  unfold find. intros Hin Hp. destruct (List.find p l) as [y|] eqn:E; [eauto|].
  apply list_elem_of_In in Hin.
  pose proof (List.find_none _ _ E x Hin) as Hn. congruence.
Qed.

(** A duplicate-free list of two or more names has a member other than any
    given value. *)
Lemma other_member (l : list string) (v : option string) :
  NoDup l -> (2 <= List.length l)%nat -> exists x, x ∈ l /\ Some x ≠ v.
Proof.
  intros Hnd Hlen. destruct l as [|a [|b r]]; simpl in Hlen; try lia.
  destruct (decide (Some a = v)) as [Ha|Ha].
  - exists b. split; [right; left|]. intros Hb.
    apply NoDup_cons in Hnd as [Hnotin _]. apply Hnotin.
    assert (a = b) by congruence. subst. left.
  - exists a. split; [left | exact Ha].
Qed.

End JsFacts.

(** ** The rotation store *)

Module StoreFacts.
Import Js JsFacts Rotation.

Local Open Scope string_scope.
Local Open Scope Z_scope.

Example normalize_example : normalizeContactNumber "+55 (11) 9999-0001" = "551199990001".
Proof. reflexivity. Qed.

Lemma append_inj_r (p a b : string) : p +:+ a = p +:+ b -> a = b.
Proof.
  induction p as [|c p IH]; simpl; [auto|]. intros H. injection H as H. auto.
Qed.

Lemma cacheKey_inj (k k' : string) :
  CACHE_KEY_PREFIX +:+ ":" +:+ k = CACHE_KEY_PREFIX +:+ ":" +:+ k' -> k = k'.
Proof. intros H. apply append_inj_r in H. apply append_inj_r in H. exact H. Qed.

Lemma cacheKey_not_global (k : string) :
  CACHE_KEY_PREFIX +:+ ":" +:+ k ≠ GLOBAL_CACHE_KEY.
Proof. unfold CACHE_KEY_PREFIX, GLOBAL_CACHE_KEY. simpl. discriminate. Qed.

Lemma normalize_head c a r : normalizeContactNumber c = String a r -> isDigit a = true.
Proof.
  induction c as [|b c IH]; simpl; [discriminate|].
  destruct (isDigit b) eqn:E; [|exact IH].
  intros H. injection H as -> _. exact E.
Qed.

(** A key of the ungrouped path is never a key of the grouped path. *)
Lemma normalized_not_group_key c groupId contact :
  normalizeContactNumber c ≠ GROUP_CACHE_KEY_PREFIX +:+ ":" +:+ groupId +:+ ":" +:+ contact.
Proof.
  unfold GROUP_CACHE_KEY_PREFIX. simpl. intros H.
  apply normalize_head in H. discriminate H.
Qed.

Lemma groupKey_inj groupId c c' :
  GROUP_CACHE_KEY_PREFIX +:+ ":" +:+ groupId +:+ ":" +:+ c
  = GROUP_CACHE_KEY_PREFIX +:+ ":" +:+ groupId +:+ ":" +:+ c' -> c = c'.
Proof. intros H. repeat apply append_inj_r in H. exact H. Qed.

Lemma save_mode k d now s : cacheMode (saveRotationDataToCache k d now s) = cacheMode s.
Proof.
  unfold saveRotationDataToCache, cacheSet. destruct (cacheMode s) eqn:E; simpl; auto.
Qed.

Lemma saveGlobal_mode g now s : cacheMode (saveGlobalRotationData g now s) = cacheMode s.
Proof.
  unfold saveGlobalRotationData, cacheSet. destruct (cacheMode s) eqn:E; simpl; auto.
Qed.

(** Reading always yields a duplicate-free set. *)
Lemma get_NoDup k s d : getRotationDataFromCache k s = Some d -> NoDup (usedInstances d).
Proof.
  unfold getRotationDataFromCache.
  destruct (cacheGet _ s) as [[cd|]|]; [| |discriminate].
  - intros [= <-]. apply newSet_NoDup.
  - destruct (rotationMemory s !! k); [|discriminate].
    intros [= <-]. apply newSet_NoDup.
Qed.

(** A descriptor that was saved is read back, as long as cache calls do not
    raise. *)
Lemma get_save_same k d now s :
  cacheMode s ≠ CacheDown ->
  NoDup (usedInstances d) -> lastUsedInstance d ≠ Some "" ->
  getRotationDataFromCache k (saveRotationDataToCache k d now s) = Some d.
Proof.
  intros Hmode Hnd Hlast. destruct d as [used last rc]. simpl in *.
  unfold getRotationDataFromCache, saveRotationDataToCache, cacheGet, cacheSet.
  destruct (cacheMode s) eqn:E; [| |contradiction]; simpl; rewrite ?E.
  - rewrite lookup_insert_eq. simpl.
    rewrite newSet_id by exact Hnd. rewrite orNull_id by exact Hlast. reflexivity.
  - rewrite lookup_insert_eq. simpl.
    rewrite newSet_newSet, newSet_id by exact Hnd. reflexivity.
Qed.

(** Saving under one key leaves what is read under another. *)
Lemma get_save_other k k' d now s :
  k ≠ k' ->
  getRotationDataFromCache k' (saveRotationDataToCache k d now s)
  = getRotationDataFromCache k' s.
Proof.
  intros Hne.
  unfold getRotationDataFromCache, saveRotationDataToCache, cacheGet, cacheSet.
  destruct (cacheMode s) eqn:E; simpl; rewrite ?E; [| |reflexivity].
  - rewrite lookup_insert_ne by (intros H; apply cacheKey_inj in H; contradiction).
    destruct (cache s !! _); [reflexivity|].
    rewrite lookup_insert_ne by exact Hne. reflexivity.
  - rewrite lookup_insert_ne by exact Hne. reflexivity.
Qed.

Lemma get_saveGlobal k g now s :
  getRotationDataFromCache k (saveGlobalRotationData g now s)
  = getRotationDataFromCache k s.
Proof.
  unfold getRotationDataFromCache, saveGlobalRotationData, cacheGet, cacheSet.
  destruct (cacheMode s) eqn:E; simpl; rewrite ?E; [| |reflexivity].
  - rewrite lookup_insert_ne by (apply not_eq_sym, cacheKey_not_global).
    reflexivity.
  - reflexivity.
Qed.

Lemma getGlobal_save k d now s :
  getGlobalRotationData (saveRotationDataToCache k d now s) = getGlobalRotationData s.
Proof.
  unfold getGlobalRotationData, saveRotationDataToCache, cacheGet, cacheSet.
  destruct (cacheMode s) eqn:E; simpl; rewrite ?E; [| |reflexivity].
  - rewrite lookup_insert_ne by apply cacheKey_not_global. reflexivity.
  - reflexivity.
Qed.

Lemma getGlobal_saveGlobal g now s :
  cacheMode s ≠ CacheDown -> globalLastUsedInstance g ≠ Some "" ->
  getGlobalRotationData (saveGlobalRotationData g now s) = Some g.
Proof.
  intros Hmode Hlast. destruct g as [last rc]. simpl in *.
  unfold getGlobalRotationData, saveGlobalRotationData, cacheGet, cacheSet.
  destruct (cacheMode s) eqn:E; [| |contradiction]; simpl; rewrite ?E.
  - rewrite lookup_insert_eq. simpl. rewrite orNull_id by exact Hlast. reflexivity.
  - reflexivity.
Qed.

Lemma save_down k d now s : cacheMode s = CacheDown -> saveRotationDataToCache k d now s = s.
Proof.
  intros E. unfold saveRotationDataToCache, cacheSet. rewrite E. reflexivity.
Qed.

Lemma get_down k s : cacheMode s = CacheDown -> getRotationDataFromCache k s = None.
Proof.
  intros E. unfold getRotationDataFromCache, cacheGet. rewrite E. reflexivity.
Qed.

Lemma get_miss k s mem :
  cacheGet (CACHE_KEY_PREFIX +:+ ":" +:+ k) s = Some None ->
  rotationMemory s !! k = Some mem -> NoDup (usedInstances mem) ->
  getRotationDataFromCache k s = Some mem.
Proof.
  intros Hmiss Hmem Hnd. unfold getRotationDataFromCache. rewrite Hmiss, Hmem.
  rewrite newSet_id by exact Hnd. destruct mem; reflexivity.
Qed.

(** C6, as stated, fails when the cache raises: the entry of the memory map
    is not returned, and a save changes neither the memory map nor what is
    read afterwards. *)
Lemma store_cache_error_counterexample :
  rotationMemory downWithMemory !! "5511" = Some (mkRotationData ["a"] (Some "a") 0)
  /\ getRotationDataFromCache "5511" downWithMemory = None
  /\ rotationMemory
       (saveRotationDataToCache "5511" (mkRotationData ["a"; "b"] (Some "b") 0) 7
          downWithMemory) !! "5511"
     = Some (mkRotationData ["a"] (Some "a") 0)
  /\ getRotationDataFromCache "5511"
       (saveRotationDataToCache "5511" (mkRotationData ["a"; "b"] (Some "b") 0) 7
          downWithMemory)
     = None.
Proof. vm_compute. repeat split; reflexivity. Qed.

(** C6, amended: on a cache miss the entry of the memory map is returned;
    when cache calls raise, a read gives nothing and a save changes
    nothing, and neither raises; and whenever cache calls do not raise, a
    save updates the memory map and a read that follows returns the saved
    descriptor. *)
Theorem store_fallback_on_miss_only
    (key : string) (d : RotationData) (now : Z) (s : State) :
  NoDup (usedInstances d) -> lastUsedInstance d ≠ Some "" ->
  (forall mem,
      cacheGet (CACHE_KEY_PREFIX +:+ ":" +:+ key) s = Some None ->
      rotationMemory s !! key = Some mem -> NoDup (usedInstances mem) ->
      getRotationDataFromCache key s = Some mem)
  /\ (cacheMode s = CacheDown ->
      getRotationDataFromCache key s = None
      /\ saveRotationDataToCache key d now s = s)
  /\ (cacheMode s ≠ CacheDown ->
      rotationMemory (saveRotationDataToCache key d now s) !! key = Some d
      /\ getRotationDataFromCache key (saveRotationDataToCache key d now s) = Some d).
Proof.
  intros Hnd Hlast. split; [|split].
  - intros mem. apply get_miss.
  - intros E. split; [apply get_down, E | apply save_down, E].
  - intros Hmode. split; [|apply get_save_same; assumption].
    unfold saveRotationDataToCache, cacheSet.
    destruct (cacheMode s) eqn:E; [| |contradiction]; simpl;
      rewrite lookup_insert_eq, newSet_id by exact Hnd; destruct d; reflexivity.
Qed.

Lemma store_fallback_on_miss_only_witness :
  let d := mkRotationData ["a"; "b"] (Some "b") 1 in
  let s := initialState CacheOff ∅ in
  rotationMemory (saveRotationDataToCache "5511" d 7 s) !! "5511" = Some d
  /\ getRotationDataFromCache "5511" (saveRotationDataToCache "5511" d 7 s) = Some d.
Proof.
  intros d s.
  refine (proj2 (proj2 (store_fallback_on_miss_only "5511" d 7 s _ _)) _).
  - apply (bool_decide_unpack _). vm_compute. exact I.
  - discriminate.
  - discriminate.
Defined.

End StoreFacts.

(** ** The choice made by the two selection operations *)

Module ChoiceFacts.
Import Js JsFacts Rotation.

Local Open Scope string_scope.
Local Open Scope Z_scope.

Lemma length_pos (l : list string) : l ≠ [] -> 0 < Js.length l.
Proof. unfold Js.length. destruct l; [contradiction | simpl; lia]. Qed.

Lemma groupNextGlobalIndex_range ordered g :
  ordered ≠ [] -> 0 <= groupNextGlobalIndex ordered g < Js.length ordered.
Proof.
  intros Hne. pose proof (length_pos _ Hne) as Hpos.
  unfold groupNextGlobalIndex. apply Z.rem_bound_pos; [|exact Hpos].
  destruct (globalLastUsedInstance g) as [l|]; [|lia].
  destruct (truthy (Some l)); [|lia].
  pose proof (indexOf_range ordered l). lia.
Qed.

(** Both operations start from the same index. *)
Lemma globalNextIndex_group sorted g :
  sorted ≠ [] -> globalNextIndex sorted (Some g) = groupNextGlobalIndex sorted g.
Proof.
  intros Hne. pose proof (length_pos _ Hne) as Hpos.
  unfold globalNextIndex, groupNextGlobalIndex.
  destruct (globalLastUsedInstance g) as [l|]; [|symmetry; apply Z.rem_0_l; lia].
  destruct (truthy (Some l)); [|symmetry; apply Z.rem_0_l; lia].
  pose proof (indexOf_range sorted l).
  destruct (Z.leb_spec 0 (indexOf sorted l)); [reflexivity|].
  replace (indexOf sorted l + 1) with 0 by lia. symmetry. apply Z.rem_0_l. lia.
Qed.

Lemma globalNextIndex_range sorted g :
  sorted ≠ [] -> 0 <= globalNextIndex sorted g < Js.length sorted.
Proof.
  intros Hne. destruct g as [g|].
  - rewrite globalNextIndex_group by exact Hne. apply groupNextGlobalIndex_range, Hne.
  - simpl. pose proof (length_pos _ Hne). lia.
Qed.

(** *** The grouped choice *)

Lemma groupChoice_elem ordered d next p :
  next ∈ ordered -> groupChoice ordered d next = Some p -> p ∈ ordered.
Proof.
  intros Hnext. unfold groupChoice.
  destruct (_ && _); [intros [= <-]; exact Hnext|].
  unfold jsOr.
  destruct (truthy (find _ ordered)) eqn:E1.
  { intros H. apply find_Some in H as [H _]. exact H. }
  destruct (truthy (find (fun instance => bool_decide (Some instance ≠ lastUsedInstance d))
                      ordered)) eqn:E2.
  { intros H. apply find_Some in H as [H _]. exact H. }
  apply at_elem.
Qed.

Lemma groupChoice_total ordered d next :
  next ∈ ordered -> exists p, groupChoice ordered d next = Some p.
Proof.
  intros Hnext. unfold groupChoice.
  destruct (_ && _); [eauto|].
  assert (Hat : exists a, at_ ordered 0 = Some a)
    by (destruct ordered; [inversion Hnext | eauto]).
  destruct Hat as [a Ha]. rewrite Ha. unfold jsOr.
  set (f1 := find (fun instance =>
                     bool_decide (Some instance ≠ lastUsedInstance d)
                     && negb (setHas (usedInstances d) instance)) ordered).
  set (f2 := find (fun instance => bool_decide (Some instance ≠ lastUsedInstance d))
               ordered).
  destruct (truthy f1) eqn:T1; [destruct f1; [eauto | discriminate]|].
  destruct (truthy f2) eqn:T2; [destruct f2; [eauto | discriminate]|].
  eauto.
Qed.

(** With two or more distinct, non-empty names the grouped choice is never
    the last pick of the contact. *)
Lemma groupChoice_fresh ordered d next p :
  NoDup ordered -> (2 <= List.length ordered)%nat -> "" ∉ ordered ->
  groupChoice ordered d next = Some p -> Some p ≠ lastUsedInstance d.
Proof.
  intros Hnd Hlen Hne. unfold groupChoice.
  destruct (bool_decide (Some next ≠ lastUsedInstance d)
            && negb (setHas (usedInstances d) next)) eqn:E.
  { intros [= <-]. apply andb_true_iff in E as [E _].
    apply bool_decide_eq_true in E. exact E. }
  clear E. unfold jsOr.
  destruct (truthy (find _ ordered)) eqn:E1.
  { intros H. apply find_Some in H as [_ H].
    apply andb_true_iff in H as [H _]. apply bool_decide_eq_true in H. exact H. }
  clear E1.
  destruct (other_member ordered (lastUsedInstance d) Hnd Hlen) as (x & Hx & Hxl).
  destruct (find_exists
              (fun instance => bool_decide (Some instance ≠ lastUsedInstance d))
              ordered x Hx) as [y Hy].
  { apply bool_decide_eq_true. exact Hxl. }
  rewrite Hy. apply find_Some in Hy as [Hyin Hyp].
  apply bool_decide_eq_true in Hyp.
  rewrite truthy_nonempty by (intros ->; contradiction).
  intros [= <-]. exact Hyp.
Qed.

(** When the global-next instance is eligible it is the grouped choice. *)
Lemma groupChoice_eligible ordered d next :
  Some next ≠ lastUsedInstance d -> next ∉ usedInstances d ->
  groupChoice ordered d next = Some next.
Proof.
  intros Hl Hu. unfold groupChoice.
  rewrite (bool_decide_eq_true_2 _ Hl), (proj2 (setHas_false _ _) Hu). reflexivity.
Qed.

(** *** The scan of the ungrouped choice *)

Lemma scanLoop_Some sorted g accept i fuel y :
  scanLoop sorted g accept i fuel = Some y -> accept y = true /\ y ∈ sorted.
Proof.
  revert i. induction fuel as [|fuel IH]; intros i; simpl; [discriminate|].
  destruct (at_ sorted _) as [c|] eqn:E; [|apply IH].
  destruct (accept c) eqn:A; [|apply IH].
  intros [= <-]. split; [exact A | eapply at_elem, E].
Qed.

Lemma scanLoop_finds sorted g accept x k fuel i :
  at_ sorted (Z.rem (g + k) (Js.length sorted)) = Some x -> accept x = true ->
  i <= k < i + Z.of_nat fuel ->
  exists y, scanLoop sorted g accept i fuel = Some y.
Proof.
  intros Hx Ha. revert i. induction fuel as [|fuel IH]; intros i Hk; [lia|].
  simpl. destruct (Z.eq_dec i k) as [->|Hik].
  - rewrite Hx, Ha. eauto.
  - destruct (at_ sorted (Z.rem (g + i) (Js.length sorted))) as [c|];
      [destruct (accept c); [eauto|] |]; apply IH; lia.
Qed.

Lemma rem_shift g j len :
  0 <= g < len -> 0 <= j < len ->
  exists k, 0 <= k < len /\ Z.rem (g + k) len = j.
Proof.
  intros Hg Hj. destruct (Z_le_gt_dec g j).
  - exists (j - g). split; [lia|]. replace (g + (j - g)) with j by lia.
    apply Z.rem_small. lia.
  - exists (j - g + len). split; [lia|].
    replace (g + (j - g + len)) with (j + 1 * len) by lia.
    rewrite Z.rem_mod_nonneg by lia. rewrite Z.mod_add by lia.
    apply Z.mod_small. lia.
Qed.

Lemma at_of_elem (l : list string) x :
  x ∈ l -> exists j, 0 <= j < Js.length l /\ at_ l j = Some x.
Proof.
  intros H. apply list_elem_of_lookup in H as [n Hn].
  pose proof (lookup_lt_Some _ _ _ Hn) as Hlt.
  exists (Z.of_nat n). unfold Js.length, at_. split; [lia|].
  destruct (Z.ltb_spec (Z.of_nat n) 0); [lia|]. rewrite Nat2Z.id. exact Hn.
Qed.

(** The scan visits every position, so it finds a member that is accepted
    whenever there is one. *)
Lemma scan_finds sorted g accept x :
  0 <= g < Js.length sorted -> x ∈ sorted -> accept x = true ->
  exists y, scan sorted g accept = Some y.
Proof.
  intros Hg Hx Ha. apply at_of_elem in Hx as (j & Hj & Hat).
  destruct (rem_shift g j (Js.length sorted) Hg Hj) as (k & Hk & Hrem).
  unfold scan. apply (scanLoop_finds sorted g accept x k).
  - rewrite Hrem. exact Hat.
  - exact Ha.
  - unfold Js.length in Hk. lia.
Qed.

(** The first position visited is the global-next one. *)
Lemma scan_first sorted g accept x :
  0 <= g < Js.length sorted -> at_ sorted g = Some x -> accept x = true ->
  scan sorted g accept = Some x.
Proof.
  intros Hg Hat Ha. unfold scan.
  destruct sorted as [|a r]; [unfold Js.length in Hg; simpl in Hg; lia|].
  simpl List.length. simpl scanLoop.
  replace (g + 0) with g by lia. rewrite Z.rem_small by exact Hg.
  rewrite Hat, Ha. reflexivity.
Qed.

(** *** The ungrouped choice *)

Lemma contactChoice_elem sorted info g p :
  contactChoice sorted info g = Some p -> p ∈ sorted.
Proof.
  unfold contactChoice.
  destruct (truthy (scan sorted g _)) eqn:E1.
  { rewrite E1. intros H. apply scanLoop_Some in H as [_ H]. exact H. }
  destruct (truthy (scan sorted g (fun candidate =>
                      bool_decide (Some candidate ≠ lastUsedInstance info)))) eqn:E2.
  { intros H. apply scanLoop_Some in H as [_ H]. exact H. }
  apply at_elem.
Qed.

Lemma contactChoice_total sorted info g :
  0 <= g < Js.length sorted -> exists p, contactChoice sorted info g = Some p.
Proof.
  intros Hg. destruct (at_Some sorted g Hg) as (x & Hx & _).
  unfold contactChoice. rewrite Hx.
  set (p1 := scan sorted g (fun candidate =>
                bool_decide (Some candidate ≠ lastUsedInstance info)
                && negb (setHas (usedInstances info) candidate))).
  set (p2 := scan sorted g (fun candidate =>
                bool_decide (Some candidate ≠ lastUsedInstance info))).
  destruct (truthy p1) eqn:T1.
  { rewrite T1. destruct p1; [eauto | discriminate]. }
  destruct (truthy p2) eqn:T2; [destruct p2; [eauto | discriminate]|].
  eauto.
Qed.

Lemma contactChoice_fresh sorted info g p :
  NoDup sorted -> (2 <= List.length sorted)%nat -> "" ∉ sorted ->
  0 <= g < Js.length sorted ->
  contactChoice sorted info g = Some p -> Some p ≠ lastUsedInstance info.
Proof.
  intros Hnd Hlen Hne Hg. unfold contactChoice.
  destruct (truthy (scan sorted g _)) eqn:E1.
  { rewrite E1. intros H. apply scanLoop_Some in H as [H _].
    apply andb_true_iff in H as [H _]. apply bool_decide_eq_true in H. exact H. }
  clear E1.
  destruct (other_member sorted (lastUsedInstance info) Hnd Hlen) as (x & Hx & Hxl).
  destruct (scan_finds sorted g
              (fun candidate => bool_decide (Some candidate ≠ lastUsedInstance info))
              x Hg Hx) as [y Hy].
  { apply bool_decide_eq_true. exact Hxl. }
  rewrite Hy. apply scanLoop_Some in Hy as [Hyp Hyin].
  apply bool_decide_eq_true in Hyp.
  rewrite truthy_nonempty by (intros ->; contradiction).
  intros [= <-]. exact Hyp.
Qed.

(** When the global-next instance is eligible it is the ungrouped choice. *)
Lemma contactChoice_eligible sorted info g next :
  0 <= g < Js.length sorted -> at_ sorted g = Some next ->
  Some next ≠ lastUsedInstance info -> next ∉ usedInstances info ->
  contactChoice sorted info g = Some next.
Proof.
  intros Hg Hat Hl Hu. unfold contactChoice.
  rewrite (scan_first sorted g _ next Hg Hat)
    by (rewrite (bool_decide_eq_true_2 _ Hl), (proj2 (setHas_false _ _) Hu); reflexivity).
  destruct (truthy (Some next)) eqn:T; [rewrite T; reflexivity|].
  rewrite (scan_first sorted g _ next Hg Hat)
    by (apply bool_decide_eq_true; exact Hl).
  rewrite T. exact Hat.
Qed.

Lemma reset_last sorted info :
  lastUsedInstance (resetIfCycleComplete sorted info) = lastUsedInstance info.
Proof. unfold resetIfCycleComplete. destruct (_ <=? _); reflexivity. Qed.

Lemma reset_used_subset sorted info x :
  x ∈ usedInstances (resetIfCycleComplete sorted info) -> x ∈ usedInstances info.
Proof.
  unfold resetIfCycleComplete. destruct (_ <=? _); simpl; [|auto].
  intros H. inversion H.
Qed.

Lemma reset_NoDup sorted info :
  NoDup (usedInstances info) -> NoDup (usedInstances (resetIfCycleComplete sorted info)).
Proof.
  unfold resetIfCycleComplete. destruct (_ <=? _); simpl; [intros _; apply NoDup_nil_2 | auto].
Qed.

End ChoiceFacts.

(** ** The two selection operations on the store *)

Module SelectFacts.
Import Js JsFacts Rotation StoreFacts ChoiceFacts.

Local Open Scope string_scope.
Local Open Scope Z_scope.

Lemma sort_nonempty l : l ≠ [] -> sort l ≠ [].
Proof.
  intros H E. apply (f_equal List.length) in E. rewrite sort_length in E.
  destruct l; [contradiction | discriminate E].
Qed.

Lemma sort_no_empty_name l : "" ∉ l -> "" ∉ sort l.
Proof. intros H E. apply H. apply (proj1 (sort_elem l "")). exact E. Qed.

Lemma sort_length_Z l : Js.length (sort l) = Js.length l.
Proof. unfold Js.length. rewrite sort_length. reflexivity. Qed.

(** *** Grouped *)

Lemma selectInGroup_inv contact insts gid now s p s' :
  selectInstanceForContactInGroup contact insts gid now s = Some (p, s') ->
  let key := groupContactKey gid contact in
  let d := default freshRotationData (getRotationDataFromCache key s) in
  let g := default freshGlobalRotation (getGlobalRotationData s) in
  exists next,
    at_ (sort insts) (groupNextGlobalIndex (sort insts) g) = Some next
    /\ groupChoice (sort insts) d next = Some p
    /\ s' = saveGlobalRotationData
              (mkGlobalRotation (Some p) (globalRotationCount g + 1)) now
              (saveRotationDataToCache key (groupNewContactData (sort insts) d p) now s).
Proof.
  unfold selectInstanceForContactInGroup, groupContactKey. intros H.
  destruct (at_ (sort insts) _) as [next|] eqn:E; [|discriminate].
  destruct (groupChoice _ _ next) as [q|] eqn:C; [|discriminate].
  injection H as -> <-. exists next. auto.
Qed.

Lemma selectInGroup_total contact insts gid now s :
  insts ≠ [] -> exists p s', selectInstanceForContactInGroup contact insts gid now s = Some (p, s').
Proof.
  intros Hne. unfold selectInstanceForContactInGroup.
  set (g := default freshGlobalRotation (getGlobalRotationData s)).
  destruct (at_Some (sort insts) (groupNextGlobalIndex (sort insts) g))
    as (next & Hat & Hin).
  { apply groupNextGlobalIndex_range, sort_nonempty, Hne. }
  rewrite Hat.
  destruct (groupChoice_total (sort insts)
              (default freshRotationData
                 (getRotationDataFromCache
                    (GROUP_CACHE_KEY_PREFIX +:+ ":" +:+ gid +:+ ":" +:+ contact) s))
              next Hin) as [p Hp].
  rewrite Hp. eauto.
Qed.

Lemma selectInGroup_pick_elem contact insts gid now s p s' :
  selectInstanceForContactInGroup contact insts gid now s = Some (p, s') -> p ∈ insts.
Proof.
  intros H. apply selectInGroup_inv in H as (next & Hat & Hc & _).
  apply sort_elem. eapply groupChoice_elem; [|exact Hc]. eapply at_elem, Hat.
Qed.

Lemma selectInGroup_mode contact insts gid now s p s' :
  selectInstanceForContactInGroup contact insts gid now s = Some (p, s') ->
  cacheMode s' = cacheMode s.
Proof.
  intros H. apply selectInGroup_inv in H as (next & _ & _ & ->).
  rewrite saveGlobal_mode, save_mode. reflexivity.
Qed.

Lemma default_NoDup k s :
  NoDup (usedInstances (default freshRotationData (getRotationDataFromCache k s))).
Proof.
  destruct (getRotationDataFromCache k s) as [d|] eqn:E; simpl.
  - eapply get_NoDup, E.
  - apply NoDup_nil_2.
Qed.

Lemma default_last k s :
  lastUsedInstance (default freshRotationData (getRotationDataFromCache k s))
  = storedLast k s.
Proof. unfold storedLast. destruct (getRotationDataFromCache k s); reflexivity. Qed.

Lemma groupNew_NoDup ordered d p : NoDup (usedInstances (groupNewContactData ordered d p)).
Proof.
  unfold groupNewContactData. simpl. destruct (_ <=? _).
  - apply setAdd_NoDup, NoDup_nil_2.
  - apply setAdd_NoDup, newSet_NoDup.
Qed.

(** What a read finds under the key of the contact after a grouped
    selection. *)
Lemma selectInGroup_stored contact insts gid now s p s' :
  cacheMode s ≠ CacheDown -> "" ∉ insts ->
  selectInstanceForContactInGroup contact insts gid now s = Some (p, s') ->
  getRotationDataFromCache (groupContactKey gid contact) s'
  = Some (groupNewContactData (sort insts)
            (default freshRotationData
               (getRotationDataFromCache (groupContactKey gid contact) s)) p).
Proof.
  intros Hmode Hne H. pose proof (selectInGroup_pick_elem _ _ _ _ _ _ _ H) as Hin.
  apply selectInGroup_inv in H as (next & _ & _ & ->).
  rewrite get_saveGlobal. apply get_save_same; [exact Hmode | apply groupNew_NoDup |].
  simpl. intros [= ->]. contradiction.
Qed.

Lemma selectInGroup_other contact insts gid now s p s' k :
  selectInstanceForContactInGroup contact insts gid now s = Some (p, s') ->
  k ≠ groupContactKey gid contact ->
  getRotationDataFromCache k s' = getRotationDataFromCache k s.
Proof.
  intros H Hk. apply selectInGroup_inv in H as (next & _ & _ & ->).
  rewrite get_saveGlobal. apply get_save_other. auto.
Qed.

Lemma selectInGroup_fresh contact insts gid now s p s' :
  NoDup insts -> (2 <= List.length insts)%nat -> "" ∉ insts ->
  selectInstanceForContactInGroup contact insts gid now s = Some (p, s') ->
  Some p ≠ storedLast (groupContactKey gid contact) s.
Proof.
  intros Hnd Hlen Hne H. apply selectInGroup_inv in H as (next & _ & Hc & _).
  rewrite <- default_last. eapply groupChoice_fresh; [| | |exact Hc].
  - apply sort_NoDup, Hnd.
  - rewrite sort_length. exact Hlen.
  - apply sort_no_empty_name, Hne.
Qed.

(** *** Ungrouped *)

Lemma selectForContact_inv contact insts now s p s' :
  selectInstanceForContact contact insts now s = Some (p, s') ->
  let key := normalizeContactNumber contact in
  let info :=
    resetIfCycleComplete (sort insts)
      (default freshRotationData (getRotationDataFromCache key s)) in
  let g := getGlobalRotationData s in
  contactChoice (sort insts) info (globalNextIndex (sort insts) g) = Some p
  /\ s' = saveGlobalRotationData
            (mkGlobalRotation (Some p)
               (match g with Some g' => globalRotationCount g' | None => 0 end + 1)) now
            (saveRotationDataToCache key
               (mkRotationData (setAdd (usedInstances info) p) (Some p)
                  (rotationCount info)) now s).
Proof.
  unfold selectInstanceForContact. intros H.
  destruct (contactChoice _ _ _) as [q|] eqn:C; [|discriminate].
  injection H as -> <-. auto.
Qed.

Lemma selectForContact_total contact insts now s :
  insts ≠ [] -> exists p s', selectInstanceForContact contact insts now s = Some (p, s').
Proof.
  intros Hne. unfold selectInstanceForContact.
  destruct (contactChoice_total (sort insts)
              (resetIfCycleComplete (sort insts)
                 (default freshRotationData
                    (getRotationDataFromCache (normalizeContactNumber contact) s)))
              (globalNextIndex (sort insts) (getGlobalRotationData s))) as [p Hp].
  { apply globalNextIndex_range, sort_nonempty, Hne. }
  rewrite Hp. eauto.
Qed.

Lemma selectForContact_pick_elem contact insts now s p s' :
  selectInstanceForContact contact insts now s = Some (p, s') -> p ∈ insts.
Proof.
  intros H. apply selectForContact_inv in H as (Hc & _).
  apply sort_elem. eapply contactChoice_elem, Hc.
Qed.

Lemma selectForContact_mode contact insts now s p s' :
  selectInstanceForContact contact insts now s = Some (p, s') ->
  cacheMode s' = cacheMode s.
Proof.
  intros H. apply selectForContact_inv in H as (_ & ->).
  rewrite saveGlobal_mode, save_mode. reflexivity.
Qed.

Lemma selectForContact_stored contact insts now s p s' :
  cacheMode s ≠ CacheDown -> "" ∉ insts ->
  selectInstanceForContact contact insts now s = Some (p, s') ->
  let info :=
    resetIfCycleComplete (sort insts)
      (default freshRotationData
         (getRotationDataFromCache (normalizeContactNumber contact) s)) in
  getRotationDataFromCache (normalizeContactNumber contact) s'
  = Some (mkRotationData (setAdd (usedInstances info) p) (Some p) (rotationCount info)).
Proof.
  intros Hmode Hne H info. pose proof (selectForContact_pick_elem _ _ _ _ _ _ H) as Hin.
  apply selectForContact_inv in H as (_ & ->).
  rewrite get_saveGlobal. apply get_save_same; [exact Hmode | |].
  - simpl. apply setAdd_NoDup, reset_NoDup, default_NoDup.
  - simpl. intros [= ->]. contradiction.
Qed.

Lemma selectForContact_other contact insts now s p s' k :
  selectInstanceForContact contact insts now s = Some (p, s') ->
  k ≠ normalizeContactNumber contact ->
  getRotationDataFromCache k s' = getRotationDataFromCache k s.
Proof.
  intros H Hk. apply selectForContact_inv in H as (_ & ->).
  rewrite get_saveGlobal. apply get_save_other. auto.
Qed.

Lemma selectForContact_fresh contact insts now s p s' :
  NoDup insts -> (2 <= List.length insts)%nat -> "" ∉ insts ->
  selectInstanceForContact contact insts now s = Some (p, s') ->
  Some p ≠ storedLast (normalizeContactNumber contact) s.
Proof.
  intros Hnd Hlen Hne H. apply selectForContact_inv in H as (Hc & _).
  rewrite <- default_last, <- (reset_last (sort insts)).
  eapply contactChoice_fresh; [| | | |exact Hc].
  - apply sort_NoDup, Hnd.
  - rewrite sort_length. exact Hlen.
  - apply sort_no_empty_name, Hne.
  - apply globalNextIndex_range, sort_nonempty. destruct insts; [simpl in Hlen; lia | discriminate].
Qed.

End SelectFacts.

(** ** Properties of the balancer *)

Module Balancer.
Import Js JsFacts Rotation StoreFacts ChoiceFacts SelectFacts.

Local Open Scope string_scope.
Local Open Scope Z_scope.

(** Scenario 1 of the specification: six contacts, three instances. *)
Example basic_rotation :
  fst <$> runGroup ["c"; "a"; "b"] "g"
            [("5511999999991", 1); ("5511999999992", 2); ("5511999999993", 3);
             ("5511999999994", 4); ("5511999999995", 5); ("5511999999996", 6)]
            (initialState CacheUp ∅)
  = Some [("5511999999991", "a"); ("5511999999992", "b"); ("5511999999993", "c");
          ("5511999999994", "a"); ("5511999999995", "b"); ("5511999999996", "c")].
Proof. vm_compute. reflexivity. Qed.

(** Scenario 2: one contact, three instances, four sends. *)
Example contact_affinity :
  fst <$> runGroup ["a"; "b"; "c"] "g"
            [("5511111111111", 1); ("5511111111111", 2); ("5511111111111", 3);
             ("5511111111111", 4)]
            (initialState CacheUp ∅)
  = Some [("5511111111111", "a"); ("5511111111111", "b"); ("5511111111111", "c");
          ("5511111111111", "a")].
Proof. vm_compute. reflexivity. Qed.

(** *** The update of the contact descriptor: C4 *)

(** C4: the code at the first sends to a contact, on an empty store.
    Grouped, one send among three candidates: the set has one member of
    three, no cycle is complete, and yet [rotationCount] goes from 0 to 1;
    after the second of two sends among two candidates the set is reset to
    the pick, as the specification says, with [rotationCount] at 2.
    Ungrouped, two sends among two candidates: the second pick fills the
    set, which is stored full with [rotationCount] still 0; the reset and
    the increment come with the third send.  Each path does what the
    other one misses. *)
Theorem descriptor_update_divergence :
  (getRotationDataFromCache (groupContactKey "g1" "5511") (initialState CacheUp ∅) = None
   /\ match selectInstanceForContactInGroup "5511" ["a"; "b"; "c"] "g1" 1
              (initialState CacheUp ∅) with
      | Some (pick, s') =>
          pick = "a"
          /\ getRotationDataFromCache (groupContactKey "g1" "5511") s'
             = Some (mkRotationData ["a"] (Some "a") 1)
      | None => False
      end)
  /\ match runGroup ["a"; "b"] "g1" [("5511", 1); ("5511", 2)] (initialState CacheUp ∅) with
     | Some (picks, s') =>
         picks = [("5511", "a"); ("5511", "b")]
         /\ getRotationDataFromCache (groupContactKey "g1" "5511") s'
            = Some (mkRotationData ["b"] (Some "b") 2)
     | None => False
     end
  /\ match runUngrouped ["a"; "b"] [("5511", 1); ("5511", 2)] (initialState CacheUp ∅) with
     | Some (picks, s') =>
         picks = [("5511", "a"); ("5511", "b")]
         /\ getRotationDataFromCache "5511" s'
            = Some (mkRotationData ["a"; "b"] (Some "b") 0)
     | None => False
     end
  /\ match runUngrouped ["a"; "b"] [("5511", 1); ("5511", 2); ("5511", 3)]
             (initialState CacheUp ∅) with
     | Some (picks, s') =>
         picks = [("5511", "a"); ("5511", "b"); ("5511", "a")]
         /\ getRotationDataFromCache "5511" s'
            = Some (mkRotationData ["a"] (Some "a") 1)
     | None => False
     end.
Proof. vm_compute. repeat split; reflexivity. Qed.

(** What a selection stores, while cache calls do not raise and no
    instance has the empty name: a descriptor whose [lastUsedInstance] is
    the pick and whose set holds the pick.  Grouped: [rotationCount] grows
    by one at every invocation; the set is [{pick}] if the old set with the
    pick added has at least as many members as there are candidates, and
    the old set with the pick added otherwise.  Ungrouped: if the set read
    at the start has at least as many members as there are candidates, the
    stored set is [{pick}] and [rotationCount] grows by one; otherwise the
    pick is added to the set and [rotationCount] is unchanged. *)
Lemma descriptor_update
    (contact : string) (insts : list string) (gid : string) (now : Z) (s : State) :
  cacheMode s ≠ CacheDown -> "" ∉ insts ->
  (forall p s',
      selectInstanceForContactInGroup contact insts gid now s = Some (p, s') ->
      let old := default freshRotationData
                   (getRotationDataFromCache (groupContactKey gid contact) s) in
      exists new,
        getRotationDataFromCache (groupContactKey gid contact) s' = Some new
        /\ lastUsedInstance new = Some p
        /\ p ∈ usedInstances new
        /\ rotationCount new = rotationCount old + 1
        /\ usedInstances new
           = if Js.length insts <=? setSize (setAdd (usedInstances old) p)
             then [p] else setAdd (usedInstances old) p)
  /\ (forall p s',
         selectInstanceForContact contact insts now s = Some (p, s') ->
         let old := default freshRotationData
                      (getRotationDataFromCache (normalizeContactNumber contact) s) in
         exists new,
           getRotationDataFromCache (normalizeContactNumber contact) s' = Some new
           /\ lastUsedInstance new = Some p
           /\ p ∈ usedInstances new
           /\ if Js.length insts <=? setSize (usedInstances old)
              then usedInstances new = [p] /\ rotationCount new = rotationCount old + 1
              else usedInstances new = setAdd (usedInstances old) p
                   /\ rotationCount new = rotationCount old).
Proof.
  intros Hmode Hne. split.
  - intros p s' H old.
    rewrite (selectInGroup_stored _ _ _ _ _ _ _ Hmode Hne H). fold old.
    eexists. split; [reflexivity|].
    unfold groupNewContactData. simpl.
    rewrite sort_length_Z, (newSet_id (usedInstances old)) by apply default_NoDup.
    repeat split.
    destruct (_ <=? _); [|apply setAdd_elem; auto].
    unfold setAdd. simpl. left.
  - intros p s' H old.
    rewrite (selectForContact_stored _ _ _ _ _ _ Hmode Hne H). fold old.
    eexists. split; [reflexivity|]. simpl.
    split; [reflexivity|]. split; [apply setAdd_elem; auto|].
    unfold resetIfCycleComplete. rewrite sort_length_Z.
    destruct (_ <=? _); simpl; auto.
Qed.

Lemma descriptor_update_witness :
  exists new,
    getRotationDataFromCache "5511"
      (match selectInstanceForContact "5511" ["a"; "b"] 1 midCycle with
       | Some (_, s') => s'
       | None => midCycle
       end) = Some new
    /\ lastUsedInstance new = Some "b"
    /\ "b" ∈ usedInstances new
    /\ usedInstances new = ["a"; "b"] /\ rotationCount new = 0.
Proof.
  assert (Hmode : cacheMode midCycle ≠ CacheDown) by discriminate.
  assert (Hne : "" ∉ ["a"; "b"]) by (apply (bool_decide_unpack _); vm_compute; exact I).
  assert (Hsel : selectInstanceForContact "5511" ["a"; "b"] 1 midCycle
                 = Some ("b", match selectInstanceForContact "5511" ["a"; "b"] 1 midCycle with
                              | Some (_, s') => s'
                              | None => midCycle
                              end)) by (vm_compute; reflexivity).
  exact (proj2 (descriptor_update "5511" ["a"; "b"] "g1" 1 midCycle Hmode Hne) _ _ Hsel).
Defined.

(** *** No immediate repeat: C5 *)

Lemma picksFor_cons c c' p picks :
  picksFor c ((c', p) :: picks)
  = if String.eqb c' c then p :: picksFor c picks else picksFor c picks.
Proof. unfold picksFor. simpl. destruct (String.eqb c' c); reflexivity. Qed.

Lemma noImmediateRepeat_cons p l :
  noImmediateRepeat (p :: l)
  <-> (forall q r, l = q :: r -> p ≠ q) /\ noImmediateRepeat l.
Proof.
  destruct l as [|q r]; simpl.
  - split; [intros _; split; [intros q r; discriminate | exact I] | auto].
  - split.
    + intros [H1 H2]. split; [|exact H2]. intros q' r' [= <- <-]. exact H1.
    + intros [H1 H2]. split; [eapply H1; reflexivity | exact H2].
Qed.

Lemma storedLast_stored k s d :
  getRotationDataFromCache k s = Some d -> storedLast k s = lastUsedInstance d.
Proof. unfold storedLast. intros ->. reflexivity. Qed.

Lemma runGroup_total insts gid calls s :
  insts ≠ [] -> exists picks s', runGroup insts gid calls s = Some (picks, s').
Proof.
  intros Hne. revert s. induction calls as [|[c now] rest IH]; intros s; simpl; [eauto|].
  destruct (selectInGroup_total c insts gid now s Hne) as (p & s1 & ->).
  destruct (IH s1) as (picks & s2 & ->). eauto.
Qed.

Lemma runUngrouped_total insts calls s :
  insts ≠ [] -> exists picks s', runUngrouped insts calls s = Some (picks, s').
Proof.
  intros Hne. revert s. induction calls as [|[c now] rest IH]; intros s; simpl; [eauto|].
  destruct (selectForContact_total c insts now s Hne) as (p & s1 & ->).
  destruct (IH s1) as (picks & s2 & ->). eauto.
Qed.

Section NoRepeat.
Variable insts : list string.
Hypothesis insts_NoDup : NoDup insts.
Hypothesis insts_two : (2 <= List.length insts)%nat.
Hypothesis insts_named : "" ∉ insts.

(** Along a run, the picks for a contact never repeat the one before, and
    the first of them differs from the pick recorded when the run starts. *)
Lemma runGroup_no_repeat gid c calls :
  forall s picks s',
    cacheMode s ≠ CacheDown ->
    runGroup insts gid calls s = Some (picks, s') ->
    noImmediateRepeat (picksFor c picks)
    /\ (forall q r, picksFor c picks = q :: r ->
                    Some q ≠ storedLast (groupContactKey gid c) s).
Proof.
  induction calls as [|[c' now] rest IH]; intros s picks s' Hmode Hrun; simpl in Hrun.
  - injection Hrun as <- <-. split; [exact I | intros q r; discriminate].
  - destruct (selectInstanceForContactInGroup c' insts gid now s) as [[p s1]|] eqn:Hsel;
      [|discriminate].
    destruct (runGroup insts gid rest s1) as [[picks' s2]|] eqn:Hrest; [|discriminate].
    injection Hrun as <- <-.
    assert (Hmode1 : cacheMode s1 ≠ CacheDown)
      by (rewrite (selectInGroup_mode _ _ _ _ _ _ _ Hsel); exact Hmode).
    destruct (IH s1 picks' s2 Hmode1 Hrest) as [Hrep Hhead].
    rewrite picksFor_cons. destruct (String.eqb_spec c' c) as [->|Hc].
    + split.
      * apply noImmediateRepeat_cons. split; [|exact Hrep].
        intros q r Hq Hpq. subst q. apply (Hhead p r Hq).
        rewrite (storedLast_stored _ _ _
                   (selectInGroup_stored _ _ _ _ _ _ _ Hmode insts_named Hsel)).
        reflexivity.
      * intros q r [= <- _].
        exact (selectInGroup_fresh _ _ _ _ _ _ _ insts_NoDup insts_two insts_named Hsel).
    + split; [exact Hrep|]. intros q r Hq.
      unfold storedLast.
      rewrite <- (selectInGroup_other c' insts gid now s p s1 (groupContactKey gid c) Hsel).
      * exact (Hhead q r Hq).
      * intros E. apply groupKey_inj in E. congruence.
Qed.

Lemma runUngrouped_no_repeat c calls :
  forall s picks s',
    cacheMode s ≠ CacheDown ->
    runUngrouped insts calls s = Some (picks, s') ->
    noImmediateRepeat (picksFor (normalizeContactNumber c) picks)
    /\ (forall q r, picksFor (normalizeContactNumber c) picks = q :: r ->
                    Some q ≠ storedLast (normalizeContactNumber c) s).
Proof.
  induction calls as [|[c' now] rest IH]; intros s picks s' Hmode Hrun; simpl in Hrun.
  - injection Hrun as <- <-. split; [exact I | intros q r; discriminate].
  - destruct (selectInstanceForContact c' insts now s) as [[p s1]|] eqn:Hsel;
      [|discriminate].
    destruct (runUngrouped insts rest s1) as [[picks' s2]|] eqn:Hrest; [|discriminate].
    injection Hrun as <- <-.
    assert (Hmode1 : cacheMode s1 ≠ CacheDown)
      by (rewrite (selectForContact_mode _ _ _ _ _ _ Hsel); exact Hmode).
    destruct (IH s1 picks' s2 Hmode1 Hrest) as [Hrep Hhead].
    rewrite picksFor_cons.
    destruct (String.eqb_spec (normalizeContactNumber c') (normalizeContactNumber c))
      as [Hc|Hc].
    + split.
      * apply noImmediateRepeat_cons. split; [|exact Hrep].
        intros q r Hq Hpq. subst q. apply (Hhead p r Hq).
        rewrite <- Hc.
        rewrite (storedLast_stored _ _ _
                   (selectForContact_stored _ _ _ _ _ _ Hmode insts_named Hsel)).
        reflexivity.
      * intros q r [= <- _]. rewrite <- Hc.
        exact (selectForContact_fresh _ _ _ _ _ _ insts_NoDup insts_two insts_named Hsel).
    + split; [exact Hrep|]. intros q r Hq.
      unfold storedLast.
      rewrite <- (selectForContact_other c' insts now s p s1
                    (normalizeContactNumber c) Hsel).
      * exact (Hhead q r Hq).
      * congruence.
Qed.

End NoRepeat.

(** C5, as stated, fails when cache calls raise: nothing is stored, every
    call starts afresh, and two selections in a row for one contact among
    two candidates both return ["a"]. *)
Lemma immediate_repeat_counterexample :
  match runGroup ["a"; "b"] "g1" [("5511", 1); ("5511", 2)] (initialState CacheDown ∅) with
  | Some (picks, _) =>
      picksFor "5511" picks = ["a"; "a"] /\ ~ noImmediateRepeat (picksFor "5511" picks)
  | None => False
  end.
Proof.
  vm_compute. split; [reflexivity|]. intros [H _]. apply H. reflexivity.
Qed.

(** C5, amended: while cache calls do not raise, any run of selections one
    after the other over two or more distinct candidates with non-empty
    names returns, and in it no two consecutive picks for one contact are
    the same instance; on the grouped path and on the ungrouped one. *)
Theorem no_immediate_repeat
    (insts : list string) (gid : string) (calls : list (string * Z))
    (c : string) (s : State) :
  cacheMode s ≠ CacheDown ->
  NoDup insts -> (2 <= List.length insts)%nat -> "" ∉ insts ->
  (exists picks s',
      runGroup insts gid calls s = Some (picks, s')
      /\ noImmediateRepeat (picksFor c picks))
  /\ (exists picks s',
         runUngrouped insts calls s = Some (picks, s')
         /\ noImmediateRepeat (picksFor (normalizeContactNumber c) picks)).
Proof.
  intros Hmode Hnd Hlen Hne.
  assert (Hnonempty : insts ≠ []) by (destruct insts; [simpl in Hlen; lia | discriminate]).
  split.
  - destruct (runGroup_total insts gid calls s Hnonempty) as (picks & s' & Hrun).
    exists picks, s'. split; [exact Hrun|].
    exact (proj1 (runGroup_no_repeat insts Hnd Hlen Hne gid c calls s picks s' Hmode Hrun)).
  - destruct (runUngrouped_total insts calls s Hnonempty) as (picks & s' & Hrun).
    exists picks, s'. split; [exact Hrun|].
    exact (proj1 (runUngrouped_no_repeat insts Hnd Hlen Hne c calls s picks s' Hmode Hrun)).
Qed.

Lemma no_immediate_repeat_witness :
  (exists picks s',
      runGroup ["a"; "b"] "g1" [("5511", 1); ("5512", 2); ("5511", 3)]
        (initialState CacheUp ∅) = Some (picks, s')
      /\ noImmediateRepeat (picksFor "5511" picks))
  /\ (exists picks s',
         runUngrouped ["a"; "b"] [("5511", 1); ("5512", 2); ("5511", 3)]
           (initialState CacheUp ∅) = Some (picks, s')
         /\ noImmediateRepeat (picksFor (normalizeContactNumber "5511") picks)).
Proof.
  apply (no_immediate_repeat ["a"; "b"] "g1" [("5511", 1); ("5512", 2); ("5511", 3)]
           "5511" (initialState CacheUp ∅)).
  - discriminate.
  - apply (bool_decide_unpack _). vm_compute. exact I.
  - simpl. lia.
  - apply (bool_decide_unpack _). vm_compute. exact I.
Defined.

(** *** Determinism: C10 *)

Lemma observable_inv s1 s2 :
  observable s1 = observable s2 ->
  cacheMode s1 = cacheMode s2
  /\ (forall k, timeless <$> (cache s1 !! k) = timeless <$> (cache s2 !! k))
  /\ rotationMemory s1 = rotationMemory s2
  /\ globalRotationMemory s1 = globalRotationMemory s2.
Proof.
  unfold observable. intros H. injection H as Hm Hc Hr Hg.
  repeat split; try assumption.
  intros k. rewrite <- !lookup_fmap, Hc. reflexivity.
Qed.

Lemma timeless_fields (a b : option CacheData) :
  timeless <$> a = timeless <$> b ->
  (cachedUsedInstances <$> a) = (cachedUsedInstances <$> b)
  /\ (cachedLastUsedInstance <$> a) = (cachedLastUsedInstance <$> b)
  /\ (cachedRotationCount <$> a) = (cachedRotationCount <$> b).
Proof.
  destruct a as [[u1 l1 r1 t1]|], b as [[u2 l2 r2 t2]|]; simpl; intros H;
    try discriminate; [|auto].
  injection H as -> -> ->. auto.
Qed.

Lemma observable_get k s1 s2 :
  observable s1 = observable s2 ->
  getRotationDataFromCache k s1 = getRotationDataFromCache k s2.
Proof.
  intros H. apply observable_inv in H as (Hm & Hc & Hr & _).
  unfold getRotationDataFromCache, cacheGet. rewrite Hm, Hr.
  destruct (cacheMode s2); try reflexivity.
  specialize (Hc (CACHE_KEY_PREFIX +:+ ":" +:+ k)).
  apply timeless_fields in Hc as (Hu & Hl & Hn).
  destruct (cache s1 !! _) as [a|], (cache s2 !! _) as [b|]; simpl in *;
    try discriminate; [|reflexivity].
  injection Hu as ->. injection Hl as ->. injection Hn as ->. reflexivity.
Qed.

Lemma observable_getGlobal s1 s2 :
  observable s1 = observable s2 ->
  getGlobalRotationData s1 = getGlobalRotationData s2.
Proof.
  intros H. apply observable_inv in H as (Hm & Hc & _ & Hg).
  unfold getGlobalRotationData, cacheGet. rewrite Hm, Hg.
  destruct (cacheMode s2); try reflexivity.
  specialize (Hc GLOBAL_CACHE_KEY).
  apply timeless_fields in Hc as (_ & Hl & Hn).
  destruct (cache s1 !! _) as [a|], (cache s2 !! _) as [b|]; simpl in *;
    try discriminate; [|reflexivity].
  injection Hl as ->. injection Hn as ->. reflexivity.
Qed.

Lemma observable_save k d now1 now2 s1 s2 :
  observable s1 = observable s2 ->
  observable (saveRotationDataToCache k d now1 s1)
  = observable (saveRotationDataToCache k d now2 s2).
Proof.
  unfold observable. intros H. injection H as Hm Hc Hr Hg.
  unfold saveRotationDataToCache, cacheSet. rewrite Hm.
  destruct (cacheMode s2) eqn:E; simpl;
    rewrite ?fmap_insert, ?Hm, ?E, ?Hc, ?Hr, ?Hg; reflexivity.
Qed.

Lemma observable_saveGlobal g now1 now2 s1 s2 :
  observable s1 = observable s2 ->
  observable (saveGlobalRotationData g now1 s1)
  = observable (saveGlobalRotationData g now2 s2).
Proof.
  unfold observable. intros H. injection H as Hm Hc Hr Hg.
  unfold saveGlobalRotationData, cacheSet. rewrite Hm.
  destruct (cacheMode s2) eqn:E; simpl;
    rewrite ?fmap_insert, ?Hm, ?E, ?Hc, ?Hr, ?Hg; reflexivity.
Qed.

(** C10: a selection is a function of the contact, the candidate list and
    the contents of the rotation store.  Two runs made at different times,
    on stores that differ at most in the time stamps of their cache
    entries, return the same instance and leave stores that again differ at
    most in those time stamps: the same [usedInstances], [lastUsedInstance]
    and [rotationCount] are written.  Grouped and ungrouped. *)
Theorem selection_deterministic
    (contact : string) (insts : list string) (gid : string)
    (now1 now2 : Z) (s1 s2 : State) :
  observable s1 = observable s2 ->
  observableResult (selectInstanceForContactInGroup contact insts gid now1 s1)
  = observableResult (selectInstanceForContactInGroup contact insts gid now2 s2)
  /\ observableResult (selectInstanceForContact contact insts now1 s1)
     = observableResult (selectInstanceForContact contact insts now2 s2).
Proof.
  intros H. split.
  - unfold selectInstanceForContactInGroup.
    rewrite (observable_get _ s1 s2 H), (observable_getGlobal s1 s2 H).
    destruct (at_ _ _) as [next|]; [|reflexivity].
    destruct (groupChoice _ _ next) as [p|]; [|reflexivity].
    simpl. f_equal. f_equal.
    apply observable_saveGlobal, observable_save, H.
  - unfold selectInstanceForContact.
    rewrite (observable_get _ s1 s2 H), (observable_getGlobal s1 s2 H).
    destruct (contactChoice _ _ _) as [p|]; [|reflexivity].
    simpl. f_equal. f_equal.
    apply observable_saveGlobal, observable_save, H.
Qed.

Lemma selection_deterministic_witness :
  observableResult (selectInstanceForContactInGroup "5511" ["a"; "b"] "g1" 1 midCycle)
  = observableResult (selectInstanceForContactInGroup "5511" ["a"; "b"] "g1" 2 midCycle)
  /\ observableResult (selectInstanceForContact "5511" ["a"; "b"] 1 midCycle)
     = observableResult (selectInstanceForContact "5511" ["a"; "b"] 2 midCycle).
Proof.
  apply (selection_deterministic "5511" ["a"; "b"] "g1" 1 2 midCycle midCycle).
  reflexivity.
Defined.

(** *** Grouped against ungrouped: C2 *)

(** C2: the code at a send through a group to the number
    [5511@s.whatsapp.net], on an empty store.  The contact entry is stored
    under the number as given, not under its digits; nothing is stored
    under [group_rotation:g1:global]: the only global entry written is the
    top-level [global_rotation], the one the ungrouped path reads, whose
    next pick for another contact moves from ["a"] to ["b"].  One number
    written in two ways is two contacts on the grouped path (picks
    ["a"], ["b"], ["b"]: the same instance twice in a row for the number),
    and one contact on the ungrouped path. *)
Theorem grouped_keys_divergence :
  match selectInstanceForContactInGroup "5511@s.whatsapp.net" ["a"; "b"] "g1" 1
          (initialState CacheUp ∅) with
  | Some (pick, s') =>
      pick = "a"
      /\ dom (cache s')
         = {["global_rotation";
             "instance_rotation:group_rotation:g1:5511@s.whatsapp.net"]}
      /\ normalizeContactNumber "5511@s.whatsapp.net" = "5511"
      /\ getRotationDataFromCache (groupContactKey "g1" "5511") s' = None
      /\ getRotationDataFromCache (groupContactKey "g1" "global") s' = None
      /\ cache s' !! "group_rotation:g1:global" = None
      /\ getGlobalRotationData (initialState CacheUp ∅) = Some (mkGlobalRotation None 0)
      /\ getGlobalRotationData s' = Some (mkGlobalRotation (Some "a") 1)
      /\ fst <$> selectInstanceForContact "5522" ["a"; "b"] 2 (initialState CacheUp ∅)
         = Some "a"
      /\ fst <$> selectInstanceForContact "5522" ["a"; "b"] 2 s' = Some "b"
  | None => False
  end
  /\ fst <$> runGroup ["a"; "b"] "g1"
               [("5511@s.whatsapp.net", 1); ("5511", 2); ("5511@s.whatsapp.net", 3)]
               (initialState CacheUp ∅)
     = Some [("5511@s.whatsapp.net", "a"); ("5511", "b"); ("5511@s.whatsapp.net", "b")]
  /\ fst <$> runUngrouped ["a"; "b"]
               [("5511@s.whatsapp.net", 1); ("5511", 2); ("5511@s.whatsapp.net", 3)]
               (initialState CacheUp ∅)
     = Some [("5511", "a"); ("5511", "b"); ("5511", "a")].
Proof. vm_compute. repeat split; reflexivity. Qed.

(** What the grouped selection does keep apart, while cache calls do not
    raise and no instance has the empty name: the descriptor of the contact
    is under the store key [group_rotation:<groupId>:<contact>], with the
    contact string as the caller gave it, and every other contact
    descriptor is left as it was, those of the ungrouped path (keys made of
    digits) among them.  Both operations start from the same global-next
    index and pick the instance at that index whenever it is neither the
    last pick of the contact nor in its set of used instances. *)
Lemma grouped_contact_namespace
    (contact : string) (insts : list string) (gid : string) (now : Z)
    (s : State) (p : string) (s' : State) :
  cacheMode s ≠ CacheDown -> "" ∉ insts ->
  selectInstanceForContactInGroup contact insts gid now s = Some (p, s') ->
  storedLast (groupContactKey gid contact) s' = Some p
  /\ (forall k, k ≠ groupContactKey gid contact ->
                getRotationDataFromCache k s' = getRotationDataFromCache k s)
  /\ (forall c, getRotationDataFromCache (normalizeContactNumber c) s'
                = getRotationDataFromCache (normalizeContactNumber c) s)
  /\ (forall g, globalNextIndex (sort insts) (Some g) = groupNextGlobalIndex (sort insts) g)
  /\ (forall d g next,
         at_ (sort insts) (groupNextGlobalIndex (sort insts) g) = Some next ->
         Some next ≠ lastUsedInstance d -> next ∉ usedInstances d ->
         groupChoice (sort insts) d next = Some next
         /\ contactChoice (sort insts) (resetIfCycleComplete (sort insts) d)
              (globalNextIndex (sort insts) (Some g)) = Some next).
Proof.
  intros Hmode Hne Hsel.
  assert (Hnonempty : sort insts ≠ []).
  { apply sort_nonempty. intros ->. apply selectInGroup_pick_elem in Hsel. inversion Hsel. }
  split; [|split; [|split; [|split]]].
  - rewrite (storedLast_stored _ _ _ (selectInGroup_stored _ _ _ _ _ _ _ Hmode Hne Hsel)).
    reflexivity.
  - intros k Hk. eapply selectInGroup_other; eassumption.
  - intros c. eapply selectInGroup_other; [eassumption|].
    apply normalized_not_group_key.
  - intros g. apply globalNextIndex_group, Hnonempty.
  - intros d g next Hat Hl Hu. split; [apply groupChoice_eligible; assumption|].
    rewrite globalNextIndex_group by exact Hnonempty.
    apply contactChoice_eligible.
    + apply groupNextGlobalIndex_range, Hnonempty.
    + exact Hat.
    + rewrite reset_last. exact Hl.
    + intros Hin. apply Hu. eapply reset_used_subset, Hin.
Qed.

Lemma grouped_contact_namespace_witness :
  exists s',
    selectInstanceForContactInGroup "5511@s.whatsapp.net" ["a"; "b"] "g1" 1 midCycle
    = Some ("a", s')
    /\ storedLast (groupContactKey "g1" "5511@s.whatsapp.net") s' = Some "a"
    /\ getRotationDataFromCache (normalizeContactNumber "5511") s'
       = getRotationDataFromCache (normalizeContactNumber "5511") midCycle.
Proof.
  destruct (selectInstanceForContactInGroup "5511@s.whatsapp.net" ["a"; "b"] "g1" 1 midCycle)
    as [[p s']|] eqn:Hsel; [|vm_compute in Hsel; discriminate Hsel].
  assert (Hp : p = "a") by (vm_compute in Hsel; congruence).
  subst p. exists s'. split; [reflexivity|].
  assert (Hmode : cacheMode midCycle ≠ CacheDown) by discriminate.
  assert (Hne : "" ∉ ["a"; "b"]) by (apply (bool_decide_unpack _); vm_compute; exact I).
  destruct (grouped_contact_namespace "5511@s.whatsapp.net" ["a"; "b"] "g1" 1 midCycle "a" s'
              Hmode Hne Hsel) as (H1 & _ & H3 & _).
  split; [exact H1 | exact (H3 "5511")].
Defined.

End Balancer.

(** ** Balanced send through a group *)

Module GroupFacts.
Import Errors Groups.

Local Open Scope string_scope.
Local Open Scope Z_scope.

(** A group that is disabled is reported as missing. *)
Lemma getActiveInstances_disabled w groupId :
  (forall g, g ∈ instanceGroup w -> id g = groupId -> enabled g = false) ->
  getActiveInstances w groupId
  = Thrown (NotFoundException "Instance group not found or disabled").
Proof.
  intros H. unfold getActiveInstances.
  destruct (List.find _ (instanceGroup w)) as [g|] eqn:E; [|reflexivity].
  apply List.find_some in E as [Hin Hp]. apply andb_true_iff in Hp as [Hid Hen].
  apply String.eqb_eq in Hid. apply list_elem_of_In in Hin.
  rewrite (H g Hin Hid) in Hen. discriminate.
Qed.

(** C3: the code at a disabled group.  A balanced send to the alias of a
    disabled group ends in [NotFoundException], status 404, where the specification
    (and scenario 4.4 of the repository's own test scenarios) expects 400. *)
Theorem disabled_group_send_status
    (SendResult : Type) (textMessage : string -> string -> string -> result SendResult) :
  fst (sendTextWithGroupBalancing SendResult textMessage true balancedSend 1 disabledWorld)
  = Thrown (NotFoundException "Instance group not found or disabled")
  /\ httpStatus (NotFoundException "Instance group not found or disabled") = 404
  /\ httpStatus (NotFoundException "Instance group not found or disabled") ≠ 400.
Proof. split; [reflexivity | split; [reflexivity | discriminate]]. Qed.

End GroupFacts.

(** ** The webhook dispatcher *)

Module WebhookFacts.
Import Webhook.

Local Open Scope string_scope.
Local Open Scope Z_scope.

(** *** The retry loop: C8 *)

Lemma canExecute_first webhookId now :
  canExecuteWebhook webhookId now ∅ = (true, <[webhookId := mkBreaker 0 0 CLOSED]> ∅).
Proof. unfold canExecuteWebhook. rewrite lookup_empty. reflexivity. Qed.

Lemma retryLoop_spec respond max nr :
  forall fuel attempts posted,
    attempts = Z.of_nat posted -> attempts <= max ->
    max - attempts <= Z.of_nat fuel ->
    exists d,
      retryLoop respond max nr attempts posted fuel = Some d
      /\ (posted <= posts d)%nat
      /\ Z.of_nat (posts d) <= max
      /\ (attempts < max -> (posted < posts d)%nat)
      /\ (forall k, (posted <= k < posts d)%nat ->
                    stopsLoop nr (respond k) = true -> posts d = S k).
Proof.
  induction fuel as [|fuel IH]; intros attempts posted Ha Hle Hfuel.
  - assert (attempts = max) by lia. subst max.
    exists (mkDelivery posted None None). simpl.
    rewrite Z.ltb_irrefl. repeat split; lia.
  - simpl. destruct (Z.ltb_spec attempts max) as [Hlt|Hge].
    + destruct (respond posted) as [|status message] eqn:R.
      * eexists. split; [reflexivity|]. simpl. repeat split; try lia.
      * destruct (isNonRetryable nr status) eqn:NR.
        { eexists. split; [reflexivity|]. simpl. repeat split; try lia. }
        destruct (Z.eqb_spec (attempts + 1) max) as [Heq|Hne].
        { eexists. split; [reflexivity|]. simpl. repeat split; try lia. }
        destruct (IH (attempts + 1) (S posted)) as (d & Hd & Hp & Hmax & Hlt' & Hstop);
          try lia.
        exists d. split; [exact Hd|]. repeat split; try lia.
        intros k Hk Hs. destruct (Nat.eq_dec k posted) as [->|Hkp].
        -- rewrite R in Hs. simpl in Hs. congruence.
        -- apply Hstop; [lia | exact Hs].
    + exists (mkDelivery posted None None). simpl. repeat split; try lia.
Qed.

(** C8: a delivery whose configuration has [maxAttempts >= 1] ends, having
    issued at least one and at most [maxAttempts] POSTs; and the POST whose
    answer carries a status of [nonRetryableStatusCodes] is the last one, so
    that such an answer to the first POST means exactly one POST. *)
Theorem retry_bound_and_no_retry
    (respond : nat -> HttpOutcome) (cfg : RetryConfig) (n : Z) :
  maxAttempts cfg = Some n -> 1 <= n ->
  exists d,
    retryWebhookRequest respond (Some cfg) = Some d
    /\ (1 <= posts d)%nat
    /\ Z.of_nat (posts d) <= n
    /\ (forall k status message,
           (k < posts d)%nat ->
           respond k = Rejected (Some status) message ->
           status ≠ 0 ->
           status ∈ effectiveNonRetryable (Some cfg) ->
           posts d = S k)
    /\ (forall status message,
           respond 0%nat = Rejected (Some status) message ->
           status ≠ 0 ->
           status ∈ effectiveNonRetryable (Some cfg) ->
           posts d = 1%nat).
Proof.
  intros Hn Hpos.
  assert (Hmax : maxRetryAttempts (Some cfg) = n).
  { unfold maxRetryAttempts. rewrite Hn. destruct (Z.eqb_spec n 0); [lia | reflexivity]. }
  unfold retryWebhookRequest. rewrite Hmax.
  destruct (retryLoop_spec respond n (effectiveNonRetryable (Some cfg))
              (Z.to_nat n) 0 0%nat) as (d & Hd & _ & Hle & Hlt & Hstop); try lia.
  exists d. split; [exact Hd|].
  assert (Hstops : forall k status message,
             (k < posts d)%nat -> respond k = Rejected (Some status) message ->
             status ≠ 0 -> status ∈ effectiveNonRetryable (Some cfg) -> posts d = S k).
  { intros k status message Hk Hr Hs Hin. apply Hstop; [lia|].
    rewrite Hr. simpl. apply andb_true_iff. split.
    - apply negb_true_iff. apply Z.eqb_neq. exact Hs.
    - apply bool_decide_eq_true. exact Hin. }
  repeat split; try lia; [exact Hstops|].
  intros status message Hr Hs Hin. apply (Hstops 0%nat status message); try assumption. lia.
Qed.

Lemma retry_bound_and_no_retry_witness :
  exists d,
    retryWebhookRequest (fun _ => Rejected (Some 404) "Request failed with status code 404")
      (Some (mkRetryConfig (Some 3) (Some [404]))) = Some d
    /\ (1 <= posts d)%nat
    /\ Z.of_nat (posts d) <= 3
    /\ posts d = 1%nat.
Proof.
  destruct (retry_bound_and_no_retry
              (fun _ => Rejected (Some 404) "Request failed with status code 404")
              (mkRetryConfig (Some 3) (Some [404])) 3 eq_refl ltac:(lia))
    as (d & Hd & H1 & H2 & _ & H4).
  exists d. repeat split; try assumption.
  apply (H4 404 "Request failed with status code 404"); [reflexivity | lia |].
  apply (bool_decide_unpack _). vm_compute. exact I.
Defined.

(** *** The request: C1 *)

(** The request does not depend on the security configuration. *)
Lemma buildRequest_ignores_securityConfig
    (base64 : string -> string) (jwtSign : Z -> string -> string)
    (D : Type) (now : Z) (w : ExternalWebhook) (sc : option SecurityConfig)
    (payload : Payload D) :
  buildRequest base64 jwtSign now
    (mkWebhook (id w) (name w) (url w) (enabled w) (events w) (headers w)
       (authentication w) (retryConfig w) sc (filterConfig w) (timeout w))
    payload
  = buildRequest base64 jwtSign now w payload.
Proof. reflexivity. Qed.

(** C1: the code at a subscriber with signature validation enabled.  The
    request that is sent carries [Content-Type] and nothing else: no header
    named by [signatureHeader], where the specification expects that header with
    the value of [generateWebhookSignature]. *)
Theorem signature_header_absent
    (base64 : string -> string) (jwtSign : Z -> string -> string)
    (hmacHex : string -> string -> string -> string)
    (D : Type) (eventData : D) (body : string) (respond : nat -> HttpOutcome) :
  (enableSignatureValidation <$> securityConfig signedWebhook) = Some true
  /\ match sendWebhook base64 jwtSign (Found signedWebhook) "w1" "MESSAGES_UPSERT"
             eventData (Some "inst1") respond 1000 2000 ∅ with
     | Some d =>
         (1 <= postsIssued d)%nat
         /\ (requestHeaders <$> sent d)
            = Some {["Content-Type" := "application/json"]}
         /\ (sent d ≫= fun r => requestHeaders r !! "X-Webhook-Signature") = None
         /\ (sent d ≫= fun r => requestHeaders r !! "X-Webhook-Signature")
            ≠ Some (generateWebhookSignature hmacHex body "0123456789abcdef" "sha256")
     | None => False
     end.
Proof.
  split; [reflexivity|].
  destruct (retryLoop_spec respond 3 [400; 401; 403; 404; 422] 3 0 0%nat)
    as (d & Hd & _ & _ & Hlt & _); try lia.
  unfold sendWebhook. change (negb (enabled signedWebhook)) with false. cbv iota.
  rewrite canExecute_first.
  change (passesFilters signedWebhook "MESSAGES_UPSERT" (Some "inst1")) with true.
  cbv iota beta. change (negb true) with false. cbv iota.
  unfold executeWebhookRequest.
  change (retryWebhookRequest respond (retryConfig signedWebhook))
    with (retryLoop respond 3 [400; 401; 403; 404; 422] 0 0%nat 3).
  rewrite Hd. cbn [postsIssued sent].
  assert (Hposts : (0 < posts d)%nat) by (apply Hlt; lia).
  destruct (Nat.ltb_spec 0 (posts d)) as [_|Hno]; [|lia].
  assert (Hheaders :
            requestHeaders
              (buildRequest base64 jwtSign 1000 signedWebhook
                 (mkPayload "MESSAGES_UPSERT" (Some "inst1") eventData 1000
                    (id signedWebhook) (name signedWebhook)))
            = {["Content-Type" := "application/json"]}).
  { unfold buildRequest, signedWebhook. simpl. apply (left_id_L ∅ (∪)). }
  cbn [fmap option_fmap option_map mbind option_bind].
  rewrite Hheaders.
  split; [exact Hposts|]. split; [reflexivity|].
  split; [apply lookup_singleton_ne; discriminate|].
  rewrite lookup_singleton_ne by discriminate. discriminate.
Qed.

(** Scenario 6 of the specification: two answers 500, then success. *)
Example retry_scenario :
  retryWebhookRequest
    (fun k => if (k <? 2)%nat then Rejected (Some 500) "500" else Resolved)
    (Some (mkRetryConfig (Some 3) None))
  = Some (mkDelivery 3 None (Some (true, None))).
Proof. reflexivity. Qed.

(** *** The circuit breaker: C7 *)

Lemma retry_total respond cfg : exists d, retryWebhookRequest respond cfg = Some d.
Proof.
  unfold retryWebhookRequest.
  destruct (Z_lt_ge_dec (maxRetryAttempts cfg) 0) as [Hneg|Hpos].
  - replace (Z.to_nat (maxRetryAttempts cfg)) with 0%nat by lia. simpl.
    destruct (Z.ltb_spec 0 (maxRetryAttempts cfg)); [lia | eauto].
  - destruct (retryLoop_spec respond (maxRetryAttempts cfg) (effectiveNonRetryable cfg)
                (Z.to_nat (maxRetryAttempts cfg)) 0 0%nat) as (d & Hd & _); try lia.
    eauto.
Qed.

Lemma invariant_empty t : breakerInvariant t ∅.
Proof. intros i r H. rewrite lookup_empty in H. discriminate. Qed.

Lemma invariant_later t t' cbs :
  t <= t' -> breakerInvariant t cbs -> breakerInvariant t' cbs.
Proof.
  intros Ht H i r Hr. destruct (H i r Hr) as (H1 & H2 & H3).
  repeat split; auto. intros E. specialize (H3 E). lia.
Qed.

Lemma invariant_insert t cbs i r :
  breakerInvariant t cbs ->
  (state r ≠ CLOSED -> CIRCUIT_BREAKER_THRESHOLD <= failures r) ->
  (CIRCUIT_BREAKER_THRESHOLD <= failures r -> state r ≠ CLOSED) ->
  (state r = HALF_OPEN -> CIRCUIT_BREAKER_TIMEOUT < t - lastFailureTime r) ->
  breakerInvariant t (<[i := r]> cbs).
Proof.
  intros H H1 H2 H3 j r' Hj. destruct (decide (i = j)) as [->|Hne].
  - rewrite lookup_insert_eq in Hj. injection Hj as <-. auto.
  - rewrite lookup_insert_ne in Hj by exact Hne. exact (H j r' Hj).
Qed.

Lemma invariant_gate t now cbs i :
  t <= now -> breakerInvariant t cbs ->
  breakerInvariant now (snd (canExecuteWebhook i now cbs)).
Proof.
  intros Ht H. apply (invariant_later t now) in H; [|exact Ht].
  unfold canExecuteWebhook. destruct (cbs !! i) as [r|] eqn:E; simpl.
  - destruct (H i r E) as (H1 & H2 & H3). destruct (state r) eqn:S; simpl; try exact H.
    destruct (Z.ltb_spec CIRCUIT_BREAKER_TIMEOUT (now - lastFailureTime r)); simpl;
      [|exact H].
    apply invariant_insert; [exact H | | |]; breaker_side.
    apply H1. congruence.
  - apply invariant_insert; [exact H | | |]; breaker_side.
Qed.

Lemma invariant_success t cbs i :
  breakerInvariant t cbs -> breakerInvariant t (recordWebhookSuccess i cbs).
Proof.
  intros H. unfold recordWebhookSuccess. destruct (cbs !! i); [|exact H].
  apply invariant_insert; [exact H | | |]; breaker_side.
Qed.

Lemma invariant_failure t now cbs i :
  t <= now -> breakerInvariant t cbs ->
  breakerInvariant now (recordWebhookFailure i now cbs).
Proof.
  intros Ht H. apply (invariant_later t now) in H; [|exact Ht].
  unfold recordWebhookFailure.
  assert (Hr : state (default (mkBreaker 0 0 CLOSED) (cbs !! i)) ≠ CLOSED ->
               CIRCUIT_BREAKER_THRESHOLD
               <= failures (default (mkBreaker 0 0 CLOSED) (cbs !! i))).
  { destruct (cbs !! i) as [r|] eqn:E; simpl.
    - apply (H i r E).
    - intros C. contradiction. }
  destruct (Z.leb_spec CIRCUIT_BREAKER_THRESHOLD
              (failures (default (mkBreaker 0 0 CLOSED) (cbs !! i)) + 1)) as [Hle|Hgt];
    (apply invariant_insert; [exact H | | |]); simpl; intros C; try congruence.
  - specialize (Hr C). unfold CIRCUIT_BREAKER_THRESHOLD in *. lia.
  - exfalso. unfold CIRCUIT_BREAKER_THRESHOLD in *. lia.
  - exfalso. specialize (Hr ltac:(congruence)). unfold CIRCUIT_BREAKER_THRESHOLD in *. lia.
Qed.

Lemma invariant_steps steps :
  forall t cbs,
    clockFrom t steps -> breakerInvariant t cbs ->
    breakerInvariant (clockAfter t steps) (runSteps steps cbs).
Proof.
  induction steps as [|st rest IH]; intros t cbs Hc H; [exact H|].
  destruct st as [i now|i|i now]; simpl in *.
  - destruct Hc as [Ht Hc]. apply IH; [exact Hc|]. apply (invariant_gate t); assumption.
  - apply IH; [exact Hc|]. apply invariant_success, H.
  - destruct Hc as [Ht Hc]. apply IH; [exact Hc|]. apply (invariant_failure t); assumption.
Qed.

(** The gate denies while the circuit is open and the cooldown has not
    elapsed. *)
Lemma gate_denies t now cbs i r :
  breakerInvariant t cbs -> t <= now ->
  cbs !! i = Some r -> CIRCUIT_BREAKER_THRESHOLD <= failures r ->
  now - lastFailureTime r <= CIRCUIT_BREAKER_TIMEOUT ->
  canExecuteWebhook i now cbs = (false, cbs).
Proof.
  intros H Ht Hr Hf Hcool. destruct (H i r Hr) as (_ & H2 & H3).
  unfold canExecuteWebhook. rewrite Hr.
  destruct (state r) eqn:S.
  - exfalso. apply (H2 Hf). reflexivity.
  - destruct (Z.ltb_spec CIRCUIT_BREAKER_TIMEOUT (now - lastFailureTime r));
      [lia | reflexivity].
  - specialize (H3 eq_refl). lia.
Qed.

(** Once the cooldown has elapsed the gate admits the dispatch and the
    record is in the half-open state. *)
Lemma gate_admits_after_cooldown t now cbs i r :
  breakerInvariant t cbs ->
  cbs !! i = Some r -> CIRCUIT_BREAKER_THRESHOLD <= failures r ->
  CIRCUIT_BREAKER_TIMEOUT < now - lastFailureTime r ->
  fst (canExecuteWebhook i now cbs) = true
  /\ snd (canExecuteWebhook i now cbs) !! i
     = Some (mkBreaker (failures r) (lastFailureTime r) HALF_OPEN).
Proof.
  intros H Hr Hf Hcool. destruct (H i r Hr) as (_ & H2 & _).
  unfold canExecuteWebhook. rewrite Hr.
  destruct r as [f l st]. simpl in *. destruct st.
  - exfalso. apply (H2 Hf). reflexivity.
  - destruct (Z.ltb_spec CIRCUIT_BREAKER_TIMEOUT (now - l)); [|lia].
    simpl. split; [reflexivity | apply lookup_insert_eq].
  - simpl. split; [reflexivity | exact Hr].
Qed.

Lemma gate_record_exists i now cbs :
  is_Some (snd (canExecuteWebhook i now cbs) !! i).
Proof.
  unfold canExecuteWebhook. destruct (cbs !! i) as [r|] eqn:E.
  - destruct (state r); simpl; rewrite ?E; eauto.
    destruct (_ <? _); simpl; rewrite ?lookup_insert_eq, ?E; eauto.
  - simpl. rewrite lookup_insert_eq. eauto.
Qed.

Section Dispatches.
Variable base64 : string -> string.
Variable jwtSign : Z -> string -> string.
Variable D : Type.

(** A dispatch that the gate denies issues no request. *)
Lemma sendWebhook_denied lookup i eventType (eventData : D) instanceName respond
      tGate tEnd cbs :
  canExecuteWebhook i tGate cbs = (false, cbs) ->
  exists d,
    sendWebhook base64 jwtSign lookup i eventType eventData instanceName respond
      tGate tEnd cbs = Some d
    /\ postsIssued d = 0%nat /\ sent d = None.
Proof.
  intros Hgate. unfold sendWebhook. destruct lookup as [w| |]; [|eauto|eauto].
  destruct (enabled w); simpl; [|eauto]. rewrite Hgate. simpl. eauto.
Qed.

(** A dispatch always ends, and one that issued a request has recorded its
    outcome: the record of the subscriber is closed with no failures, or it
    carries the time of the failure. *)
Lemma sendWebhook_records lookup i eventType (eventData : D) instanceName respond
      tGate tEnd cbs :
  exists d,
    sendWebhook base64 jwtSign lookup i eventType eventData instanceName respond
      tGate tEnd cbs = Some d
    /\ ((0 < postsIssued d)%nat ->
        breakers d !! i = Some (mkBreaker 0 0 CLOSED)
        \/ breakers d = recordWebhookFailure i tEnd (snd (canExecuteWebhook i tGate cbs))).
Proof.
  unfold sendWebhook. destruct lookup as [w| |]; [| |].
  - destruct (enabled w); simpl; [|eexists; split; [reflexivity | simpl; lia]].
    destruct (canExecuteWebhook i tGate cbs) as [allowed cbs1] eqn:G.
    destruct allowed; simpl; [|eexists; split; [reflexivity | simpl; lia]].
    destruct (passesFilters w eventType instanceName); simpl;
      [|eexists; split; [reflexivity | simpl; lia]].
    unfold executeWebhookRequest.
    destruct (retry_total respond (retryConfig w)) as [d Hd]. rewrite Hd.
    eexists. split; [reflexivity|]. simpl. intros _.
    destruct (thrown d); [right; reflexivity|]. left.
    unfold recordWebhookSuccess.
    assert (Hsome : is_Some (cbs1 !! i)).
    { pose proof (gate_record_exists i tGate cbs) as Hs. rewrite G in Hs. exact Hs. }
    destruct Hsome as [r Hr]. rewrite Hr. apply lookup_insert_eq.
  - eexists. split; [reflexivity | simpl; lia].
  - eexists. split; [reflexivity | simpl; lia].
Qed.

(** A call of [sendWebhook] keeps the invariant of the breakers. *)
Lemma sendWebhook_invariant lookup i eventType (eventData : D) instanceName respond
      t tGate tEnd cbs d :
  breakerInvariant t cbs -> t <= tGate -> tGate <= tEnd ->
  sendWebhook base64 jwtSign lookup i eventType eventData instanceName respond
    tGate tEnd cbs = Some d ->
  breakerInvariant tEnd (breakers d).
Proof.
  intros Hinv Ht Hte. unfold sendWebhook. destruct lookup as [w| |].
  - destruct (enabled w); simpl.
    + pose proof (invariant_gate t tGate cbs i Ht Hinv) as Hg.
      destruct (canExecuteWebhook i tGate cbs) as [allowed cbs1]. simpl in Hg.
      destruct allowed; simpl.
      * destruct (passesFilters w eventType instanceName); simpl.
        -- unfold executeWebhookRequest.
           destruct (retryWebhookRequest respond (retryConfig w)) as [dl|]; [|discriminate].
           intros [= <-]. simpl. destruct (thrown dl).
           ++ apply (invariant_failure tGate); assumption.
           ++ apply (invariant_later tGate); [exact Hte|]. apply invariant_success, Hg.
        -- intros [= <-]. simpl. apply (invariant_later tGate); assumption.
      * intros [= <-]. simpl. apply (invariant_later tGate); assumption.
    + intros [= <-]. simpl. apply (invariant_later t); [lia | exact Hinv].
  - intros [= <-]. simpl. apply (invariant_later t); [lia | exact Hinv].
  - intros [= <-]. simpl. apply (invariant_failure t); [lia | exact Hinv].
Qed.

End Dispatches.

Lemma failure_on_open_circuit i now cbs r :
  cbs !! i = Some r -> CIRCUIT_BREAKER_THRESHOLD <= failures r ->
  recordWebhookFailure i now cbs !! i = Some (mkBreaker (failures r + 1) now OPEN).
Proof.
  intros Hr Hf. unfold recordWebhookFailure. rewrite Hr. simpl.
  rewrite lookup_insert_eq.
  destruct (Z.leb_spec CIRCUIT_BREAKER_THRESHOLD (failures r + 1)); [reflexivity | lia].
Qed.


(** A dispatch on a record with [failures >= 5], in any state of the
    breakers reached from the empty map by gate checks, successes and
    failures in any order, with a clock that does not go back.  Made no
    more than 60000 ms after [lastFailureTime], it issues no HTTP request.
    Made later, it is admitted by the gate, which leaves the record
    half-open; and a dispatch that issued a request has recorded its
    outcome when it ends: the record is closed with no failures, or open
    with the time of the new failure, and then the next dispatch made no
    more than 60000 ms after that failure issues no request. *)
Lemma dispatch_on_open_record
    (base64 : string -> string) (jwtSign : Z -> string -> string) (D : Type)
    (steps : list BreakerStep) (t0 : Z)
    (lookup : Lookup) (i eventType : string) (eventData : D)
    (instanceName : option string) (respond : nat -> HttpOutcome)
    (tGate tEnd : Z) (r : CircuitBreakerState) :
  clockFrom t0 steps -> clockAfter t0 steps <= tGate -> tGate <= tEnd ->
  runSteps steps ∅ !! i = Some r ->
  CIRCUIT_BREAKER_THRESHOLD <= failures r ->
  exists d,
    sendWebhook base64 jwtSign lookup i eventType eventData instanceName respond
      tGate tEnd (runSteps steps ∅) = Some d
    /\ (tGate - lastFailureTime r <= CIRCUIT_BREAKER_TIMEOUT ->
        postsIssued d = 0%nat /\ sent d = None)
    /\ (CIRCUIT_BREAKER_TIMEOUT < tGate - lastFailureTime r ->
        fst (canExecuteWebhook i tGate (runSteps steps ∅)) = true
        /\ snd (canExecuteWebhook i tGate (runSteps steps ∅)) !! i
           = Some (mkBreaker (failures r) (lastFailureTime r) HALF_OPEN))
    /\ ((0 < postsIssued d)%nat ->
        breakers d !! i = Some (mkBreaker 0 0 CLOSED)
        \/ breakers d !! i = Some (mkBreaker (failures r + 1) tEnd OPEN))
    /\ (forall lookup' eventType' (eventData' : D) instanceName' respond' tGate' tEnd',
           breakers d !! i = Some (mkBreaker (failures r + 1) tEnd OPEN) ->
           tEnd <= tGate' -> tGate' - tEnd <= CIRCUIT_BREAKER_TIMEOUT ->
           exists d',
             sendWebhook base64 jwtSign lookup' i eventType' eventData' instanceName'
               respond' tGate' tEnd' (breakers d) = Some d'
             /\ postsIssued d' = 0%nat /\ sent d' = None).
Proof.
  intros Hclock Hnow Hte Hr Hf.
  pose proof (invariant_steps steps t0 ∅ Hclock (invariant_empty t0)) as Hinv.
  destruct (sendWebhook_records base64 jwtSign D lookup i eventType eventData
              instanceName respond tGate tEnd (runSteps steps ∅)) as (d & Hd & Hrec).
  exists d. split; [exact Hd|]. split; [|split; [|split]].
  - intros Hcool.
    pose proof (gate_denies _ tGate _ i r Hinv Hnow Hr Hf Hcool) as Hgate.
    destruct (sendWebhook_denied base64 jwtSign D lookup i eventType eventData
                instanceName respond tGate tEnd _ Hgate) as (d' & Hd' & Hp & Hs).
    rewrite Hd in Hd'. injection Hd' as <-. auto.
  - intros Hcool. exact (gate_admits_after_cooldown _ tGate _ i r Hinv Hr Hf Hcool).
  - intros Hposts. destruct (Hrec Hposts) as [Hc|Ho]; [left; exact Hc|]. right.
    rewrite Ho.
    destruct (Z_le_gt_dec (tGate - lastFailureTime r) CIRCUIT_BREAKER_TIMEOUT) as [Hcool|Hcool].
    + rewrite (gate_denies _ tGate _ i r Hinv Hnow Hr Hf Hcool). simpl.
      apply failure_on_open_circuit; assumption.
    + destruct (gate_admits_after_cooldown _ tGate _ i r Hinv Hr Hf) as [_ Hh]; [lia|].
      rewrite (failure_on_open_circuit i tEnd _ _ Hh Hf). reflexivity.
  - intros lookup' eventType' eventData' instanceName' respond' tGate' tEnd' Hopen Hlater Hcool.
    pose proof (sendWebhook_invariant base64 jwtSign D lookup i eventType eventData
                  instanceName respond _ tGate tEnd _ d Hinv Hnow Hte Hd) as Hinv'.
    apply sendWebhook_denied.
    apply (gate_denies tEnd tGate' (breakers d) i _ Hinv' Hlater Hopen); simpl.
    + unfold CIRCUIT_BREAKER_THRESHOLD in *. lia.
    + exact Hcool.
Qed.

Lemma dispatch_on_open_record_witness :
  exists d,
    sendWebhook (fun s => s) (fun _ s => s) (Found signedWebhook) "w1" "MESSAGES_UPSERT"
      tt (Some "inst1") (fun _ => Resolved) 30000 30001 (runSteps fiveFailures ∅) = Some d
    /\ postsIssued d = 0%nat /\ sent d = None.
Proof.
  destruct (dispatch_on_open_record (fun s => s) (fun _ s => s) unit fiveFailures 0
              (Found signedWebhook) "w1" "MESSAGES_UPSERT" tt (Some "inst1")
              (fun _ => Resolved) 30000 30001 (mkBreaker 5 5 OPEN))
    as (d & Hd & Hdenied & _).
  - simpl. lia.
  - simpl. lia.
  - lia.
  - vm_compute. reflexivity.
  - vm_compute. discriminate.
  - exists d. split; [exact Hd|]. apply Hdenied. vm_compute. discriminate.
Defined.

(** Scenario 8 of the specification, with dispatches one after the other:
    the sixth dispatch issues no request, the one after the cooldown issues
    one, and its failure opens the circuit again. *)
Example breaker_scenario :
  (postsIssued <$> sendWebhook (fun s => s) (fun _ s => s) (Found signedWebhook) "w1"
                     "MESSAGES_UPSERT" tt None (fun _ => Resolved) 6 7
                     (runSteps fiveFailures ∅)) = Some 0%nat
  /\ (postsIssued <$> sendWebhook (fun s => s) (fun _ s => s) (Found signedWebhook) "w1"
                        "MESSAGES_UPSERT" tt None (fun _ => Rejected (Some 404) "404")
                        60006 60007 (runSteps fiveFailures ∅)) = Some 1%nat
  /\ ((fun d => breakers d !! "w1")
        <$> sendWebhook (fun s => s) (fun _ s => s) (Found signedWebhook) "w1"
              "MESSAGES_UPSERT" tt None (fun _ => Rejected (Some 404) "404")
              60006 60007 (runSteps fiveFailures ∅))
     = Some (Some (mkBreaker 6 60007 OPEN)).
Proof. vm_compute. repeat split; reflexivity. Qed.

(** A call that runs alone is its two parts one after the other. *)
Lemma sendWebhook_start_finish
    (base64 : string -> string) (jwtSign : Z -> string -> string) (D : Type)
    lookup i eventType (eventData : D) instanceName respond tGate tEnd cbs :
  sendWebhook base64 jwtSign lookup i eventType eventData instanceName respond
    tGate tEnd cbs
  = match startSendWebhook lookup i eventType eventData instanceName tGate tEnd cbs with
    | (cbs1, Some started) =>
        finishSendWebhook base64 jwtSign started i respond tGate tEnd cbs1
    | (cbs1, None) => Some (mkDispatch cbs1 None 0)
    end.
Proof.
  unfold sendWebhook, startSendWebhook, finishSendWebhook.
  destruct lookup as [w| |]; try reflexivity.
  destruct (negb (enabled w)); [reflexivity|].
  destruct (canExecuteWebhook i tGate cbs) as [allowed cbs1].
  destruct (negb allowed); [reflexivity|].
  destruct (negb (passesFilters w eventType instanceName)); reflexivity.
Qed.

(** The breakers after either part of a call are reached by the steps. *)
Lemma startSendWebhook_steps
    (D : Type) lookup i eventType (eventData : D) instanceName tGate tEnd cbs :
  exists steps,
    fst (startSendWebhook lookup i eventType eventData instanceName tGate tEnd cbs)
    = runSteps steps cbs
    /\ (steps = [] \/ steps = [Gate i tGate] \/ steps = [Failure i tEnd]).
Proof.
  unfold startSendWebhook. destruct lookup as [w| |].
  - destruct (negb (enabled w)); [exists []; auto|].
    destruct (canExecuteWebhook i tGate cbs) as [allowed cbs1] eqn:G.
    assert (Hc : cbs1 = runSteps [Gate i tGate] cbs) by (simpl; rewrite G; reflexivity).
    exists [Gate i tGate].
    destruct (negb allowed); [auto|].
    destruct (negb (passesFilters w eventType instanceName)); auto.
  - exists []. auto.
  - exists [Failure i tEnd]. auto.
Qed.

Lemma finishSendWebhook_steps
    (base64 : string -> string) (jwtSign : Z -> string -> string) (D : Type)
    (started : ExternalWebhook * Payload D) i respond tGate tEnd cbs d :
  finishSendWebhook base64 jwtSign started i respond tGate tEnd cbs = Some d ->
  breakers d = runSteps [Success i] cbs \/ breakers d = runSteps [Failure i tEnd] cbs.
Proof.
  unfold finishSendWebhook, executeWebhookRequest.
  destruct (retryWebhookRequest respond _) as [dl|]; [|discriminate].
  intros [= <-]. simpl. destruct (thrown dl); auto.
Qed.

End WebhookFacts.

(** ** More on the balancer *)

Module BalancerMore.
Import Js JsFacts Rotation StoreFacts ChoiceFacts SelectFacts.

Local Open Scope string_scope.
Local Open Scope Z_scope.

(** *** The pick is a candidate *)

(** X1: Both selections, given at least one candidate, return, and the instance
    they return is one of the candidates. *)
Theorem selection_picks_candidate
    (contact : string) (insts : list string) (gid : string) (now : Z) (s : State) :
  insts ≠ [] ->
  (exists p s',
      selectInstanceForContactInGroup contact insts gid now s = Some (p, s')
      /\ p ∈ insts)
  /\ (exists p s',
         selectInstanceForContact contact insts now s = Some (p, s') /\ p ∈ insts).
Proof.
  intros Hne. split.
  - destruct (selectInGroup_total contact insts gid now s Hne) as (p & s' & H).
    exists p, s'. split; [exact H | eapply selectInGroup_pick_elem, H].
  - destruct (selectForContact_total contact insts now s Hne) as (p & s' & H).
    exists p, s'. split; [exact H | eapply selectForContact_pick_elem, H].
Qed.

Lemma selection_picks_candidate_witness :
  (exists p s',
      selectInstanceForContactInGroup "5511" ["b"; "a"] "g1" 1 midCycle = Some (p, s')
      /\ p ∈ ["b"; "a"])
  /\ (exists p s',
         selectInstanceForContact "5511" ["b"; "a"] 1 midCycle = Some (p, s')
         /\ p ∈ ["b"; "a"]).
Proof.
  apply (selection_picks_candidate "5511" ["b"; "a"] "g1" 1 midCycle). discriminate.
Defined.

(** *** The order of the candidates does not matter *)

Lemma compare_trans_not_Gt (s1 : string) :
  forall s2 s3,
    String.compare s1 s2 ≠ Gt -> String.compare s2 s3 ≠ Gt ->
    String.compare s1 s3 ≠ Gt.
Proof.
  induction s1 as [|a s1 IH]; intros [|b s2] [|c s3]; simpl; try congruence.
  unfold Ascii.compare.
  destruct (N.compare_spec (N_of_ascii a) (N_of_ascii b)) as [Hab|Hab|Hab];
    destruct (N.compare_spec (N_of_ascii b) (N_of_ascii c)) as [Hbc|Hbc|Hbc];
    destruct (N.compare_spec (N_of_ascii a) (N_of_ascii c)) as [Hac|Hac|Hac];
    try congruence; try lia.
  apply IH.
Qed.

Lemma strLe_trans : Transitive strLe.
Proof.
  intros a b c. unfold strLe, String.leb. intros Hab Hbc.
  pose proof (compare_trans_not_Gt a b c) as H.
  destruct (String.compare a b); destruct (String.compare b c);
    destruct (String.compare a c); try reflexivity; try discriminate;
    exfalso; apply H; congruence.
Qed.

Lemma strLe_antisym : AntiSymm (=) strLe.
Proof. intros a b. unfold strLe. apply String.leb_antisym. Qed.

Lemma strLe_total : Total strLe.
Proof. intros a b. unfold strLe. apply String.leb_total. Qed.

(** Two listings of the same members have the same sorted copy. *)
Lemma sort_permutation l1 l2 : l1 ≡ₚ l2 -> sort l1 = sort l2.
Proof.
  intros H. unfold sort.
  pose proof strLe_trans as Htrans. pose proof strLe_antisym as Hanti.
  pose proof strLe_total as Htotal.
  apply (Sorted_unique strLe).
  - apply Sorted_merge_sort, _.
  - apply Sorted_merge_sort, _.
  - rewrite !merge_sort_Permutation. exact H.
Qed.

(** X2: A selection depends on which instances are candidates, not on the
    order in which they are listed. *)
Theorem selection_ignores_order
    (contact : string) (insts insts' : list string) (gid : string) (now : Z) (s : State) :
  insts ≡ₚ insts' ->
  selectInstanceForContactInGroup contact insts gid now s
  = selectInstanceForContactInGroup contact insts' gid now s
  /\ selectInstanceForContact contact insts now s
     = selectInstanceForContact contact insts' now s.
Proof.
  intros H. unfold selectInstanceForContactInGroup, selectInstanceForContact.
  rewrite (sort_permutation insts insts' H). split; reflexivity.
Qed.

Lemma selection_ignores_order_witness :
  selectInstanceForContactInGroup "5511" ["c"; "a"; "b"] "g1" 1 midCycle
  = selectInstanceForContactInGroup "5511" ["b"; "c"; "a"] "g1" 1 midCycle
  /\ selectInstanceForContact "5511" ["c"; "a"; "b"] 1 midCycle
     = selectInstanceForContact "5511" ["b"; "c"; "a"] 1 midCycle.
Proof.
  apply (selection_ignores_order "5511" ["c"; "a"; "b"] ["b"; "c"; "a"] "g1" 1 midCycle).
  apply (bool_decide_unpack _). vm_compute. exact I.
Defined.

(** *** Instances not yet used come first *)

Lemma unused_candidate_chosen
    (contact : string) (insts : list string) (gid : string) (now : Z) (s : State) :
  "" ∉ insts ->
  (forall p s',
      selectInstanceForContactInGroup contact insts gid now s = Some (p, s') ->
      let d := default freshRotationData
                 (getRotationDataFromCache (groupContactKey gid contact) s) in
      (exists x, x ∈ insts /\ Some x ≠ lastUsedInstance d /\ x ∉ usedInstances d) ->
      Some p ≠ lastUsedInstance d /\ p ∉ usedInstances d)
  /\ (forall p s',
         selectInstanceForContact contact insts now s = Some (p, s') ->
         let info :=
           resetIfCycleComplete (sort insts)
             (default freshRotationData
                (getRotationDataFromCache (normalizeContactNumber contact) s)) in
         (exists x, x ∈ insts /\ Some x ≠ lastUsedInstance info
                    /\ x ∉ usedInstances info) ->
         Some p ≠ lastUsedInstance info /\ p ∉ usedInstances info).
Proof.
  intros Hne. split.
  - intros p s' Hsel d (x & Hx & Hxl & Hxu).
    apply selectInGroup_inv in Hsel as (next & _ & Hc & _). fold d in Hc.
    revert Hc. unfold groupChoice.
    destruct (bool_decide (Some next ≠ lastUsedInstance d)
              && negb (setHas (usedInstances d) next)) eqn:E.
    { intros [= <-]. apply andb_true_iff in E as [E1 E2].
      apply bool_decide_eq_true in E1. apply negb_true_iff, setHas_false in E2. auto. }
    clear E.
    destruct (find_exists
                (fun instance =>
                   bool_decide (Some instance ≠ lastUsedInstance d)
                   && negb (setHas (usedInstances d) instance))
                (sort insts) x) as [y Hy].
    { apply sort_elem, Hx. }
    { rewrite (bool_decide_eq_true_2 _ Hxl), (proj2 (setHas_false _ _) Hxu). reflexivity. }
    unfold jsOr. rewrite Hy. apply find_Some in Hy as [Hyin Hyp].
    rewrite truthy_nonempty
      by (intros ->; apply Hne; apply (proj1 (sort_elem insts "")); exact Hyin).
    intros [= <-]. apply andb_true_iff in Hyp as [E1 E2].
    apply bool_decide_eq_true in E1. apply negb_true_iff, setHas_false in E2. auto.
  - intros p s' Hsel info (x & Hx & Hxl & Hxu).
    assert (Hnonempty : sort insts ≠ []).
    { apply sort_nonempty. intros ->. inversion Hx. }
    apply selectForContact_inv in Hsel as (Hc & _). fold info in Hc.
    revert Hc. unfold contactChoice.
    destruct (scan_finds (sort insts)
                (globalNextIndex (sort insts) (getGlobalRotationData s))
                (fun candidate =>
                   bool_decide (Some candidate ≠ lastUsedInstance info)
                   && negb (setHas (usedInstances info) candidate))
                x) as [y Hy].
    { apply globalNextIndex_range, Hnonempty. }
    { apply sort_elem, Hx. }
    { rewrite (bool_decide_eq_true_2 _ Hxl), (proj2 (setHas_false _ _) Hxu). reflexivity. }
    rewrite Hy. apply scanLoop_Some in Hy as [Hyp Hyin].
    rewrite truthy_nonempty
      by (intros ->; apply Hne; apply (proj1 (sort_elem insts "")); exact Hyin).
    rewrite truthy_nonempty
      by (intros ->; apply Hne; apply (proj1 (sort_elem insts "")); exact Hyin).
    intros [= <-]. apply andb_true_iff in Hyp as [E1 E2].
    apply bool_decide_eq_true in E1. apply negb_true_iff, setHas_false in E2. auto.
Qed.

(** X3: Both selections return, and as long as some candidate is neither
    the last pick of the contact nor
    in its set of used instances, the pick is such a candidate: a contact is
    not sent back to an instance of its current cycle.  For the ungrouped
    operation the set is the one left by the reset at the start of the call. *)
Theorem unused_candidate_preferred
    (contact : string) (insts : list string) (gid : string) (now : Z) (s : State)
    (x : string) :
  "" ∉ insts -> x ∈ insts ->
  (Some x ≠ lastUsedInstance
              (default freshRotationData
                 (getRotationDataFromCache (groupContactKey gid contact) s)) ->
   x ∉ usedInstances
         (default freshRotationData
            (getRotationDataFromCache (groupContactKey gid contact) s)) ->
   exists p s',
     selectInstanceForContactInGroup contact insts gid now s = Some (p, s')
     /\ Some p ≠ lastUsedInstance
                   (default freshRotationData
                      (getRotationDataFromCache (groupContactKey gid contact) s))
     /\ p ∉ usedInstances
              (default freshRotationData
                 (getRotationDataFromCache (groupContactKey gid contact) s)))
  /\ (Some x ≠ lastUsedInstance
                 (resetIfCycleComplete (sort insts)
                    (default freshRotationData
                       (getRotationDataFromCache (normalizeContactNumber contact) s))) ->
      x ∉ usedInstances
            (resetIfCycleComplete (sort insts)
               (default freshRotationData
                  (getRotationDataFromCache (normalizeContactNumber contact) s))) ->
      exists p s',
        selectInstanceForContact contact insts now s = Some (p, s')
        /\ Some p ≠ lastUsedInstance
                      (resetIfCycleComplete (sort insts)
                         (default freshRotationData
                            (getRotationDataFromCache
                               (normalizeContactNumber contact) s)))
        /\ p ∉ usedInstances
                 (resetIfCycleComplete (sort insts)
                    (default freshRotationData
                       (getRotationDataFromCache (normalizeContactNumber contact) s)))).
Proof.
  intros Hne Hx.
  assert (Hnonempty : insts ≠ []) by (intros ->; inversion Hx).
  split; intros Hxl Hxu.
  - destruct (selectInGroup_total contact insts gid now s Hnonempty) as (p & s' & Hsel).
    exists p, s'. split; [exact Hsel|].
    apply (proj1 (unused_candidate_chosen contact insts gid now s Hne) p s' Hsel).
    exists x. auto.
  - destruct (selectForContact_total contact insts now s Hnonempty) as (p & s' & Hsel).
    exists p, s'. split; [exact Hsel|].
    apply (proj2 (unused_candidate_chosen contact insts gid now s Hne) p s' Hsel).
    exists x. auto.
Qed.

Lemma unused_candidate_preferred_witness :
  (exists p s',
     selectInstanceForContactInGroup "5511" ["a"; "b"] "g1" 1 sameOnBothPaths
     = Some (p, s')
     /\ Some p ≠ lastUsedInstance
                   (default freshRotationData
                      (getRotationDataFromCache (groupContactKey "g1" "5511")
                         sameOnBothPaths))
     /\ p ∉ usedInstances
              (default freshRotationData
                 (getRotationDataFromCache (groupContactKey "g1" "5511")
                    sameOnBothPaths)))
  /\ (exists p s',
        selectInstanceForContact "5511" ["a"; "b"] 1 sameOnBothPaths = Some (p, s')
        /\ Some p ≠ lastUsedInstance
                      (resetIfCycleComplete (sort ["a"; "b"])
                         (default freshRotationData
                            (getRotationDataFromCache
                               (normalizeContactNumber "5511") sameOnBothPaths)))
        /\ p ∉ usedInstances
                 (resetIfCycleComplete (sort ["a"; "b"])
                    (default freshRotationData
                       (getRotationDataFromCache (normalizeContactNumber "5511")
                          sameOnBothPaths)))).
Proof.
  assert (Hne : "" ∉ ["a"; "b"]) by (apply (bool_decide_unpack _); vm_compute; exact I).
  assert (Hx : "a" ∈ ["a"; "b"]) by (apply (bool_decide_unpack _); vm_compute; exact I).
  pose proof (unused_candidate_preferred "5511" ["a"; "b"] "g1" 1 sameOnBothPaths "a"
                Hne Hx) as [Hgroup Hplain].
  split.
  - apply Hgroup.
    + vm_compute. discriminate.
    + apply (bool_decide_unpack _). vm_compute. exact I.
  - apply Hplain.
    + vm_compute. discriminate.
    + apply (bool_decide_unpack _). vm_compute. exact I.
Defined.

(** *** The global descriptor counts selections *)

Lemma getGlobal_answers s :
  cacheMode s ≠ CacheDown -> exists g, getGlobalRotationData s = Some g.
Proof.
  intros H. unfold getGlobalRotationData, cacheGet.
  destruct (cacheMode s); [| |contradiction]; [destruct (cache s !! _)|]; eauto.
Qed.

Lemma selectInGroup_global contact insts gid now s p s' g :
  cacheMode s ≠ CacheDown -> "" ∉ insts ->
  getGlobalRotationData s = Some g ->
  selectInstanceForContactInGroup contact insts gid now s = Some (p, s') ->
  getGlobalRotationData s' = Some (mkGlobalRotation (Some p) (globalRotationCount g + 1)).
Proof.
  intros Hmode Hne Hg H. pose proof (selectInGroup_pick_elem _ _ _ _ _ _ _ H) as Hin.
  apply selectInGroup_inv in H as (next & _ & _ & ->). rewrite Hg. simpl.
  apply getGlobal_saveGlobal.
  - rewrite save_mode. exact Hmode.
  - simpl. intros [= ->]. exact (Hne Hin).
Qed.

Lemma selectForContact_global contact insts now s p s' g :
  cacheMode s ≠ CacheDown -> "" ∉ insts ->
  getGlobalRotationData s = Some g ->
  selectInstanceForContact contact insts now s = Some (p, s') ->
  getGlobalRotationData s' = Some (mkGlobalRotation (Some p) (globalRotationCount g + 1)).
Proof.
  intros Hmode Hne Hg H. pose proof (selectForContact_pick_elem _ _ _ _ _ _ H) as Hin.
  apply selectForContact_inv in H as (_ & ->). rewrite Hg.
  apply getGlobal_saveGlobal.
  - rewrite save_mode. exact Hmode.
  - simpl. intros [= ->]. exact (Hne Hin).
Qed.

Lemma last_cons_cons {A} (x y : A) l : last (x :: y :: l) = last (y :: l).
Proof. reflexivity. Qed.

Lemma run_global_descriptor
    (insts : list string) (gid : string) (calls : list (string * Z))
    (s : State) (g : GlobalRotation) :
  cacheMode s ≠ CacheDown -> "" ∉ insts ->
  getGlobalRotationData s = Some g ->
  (forall picks s',
      runGroup insts gid calls s = Some (picks, s') ->
      exists g',
        getGlobalRotationData s' = Some g'
        /\ globalRotationCount g' = globalRotationCount g + Z.of_nat (List.length calls)
        /\ (forall c p, last picks = Some (c, p) -> globalLastUsedInstance g' = Some p))
  /\ (forall picks s',
         runUngrouped insts calls s = Some (picks, s') ->
         exists g',
           getGlobalRotationData s' = Some g'
           /\ globalRotationCount g' = globalRotationCount g + Z.of_nat (List.length calls)
           /\ (forall c p, last picks = Some (c, p) -> globalLastUsedInstance g' = Some p)).
Proof.
  intros Hmode Hne Hg. split.
  - revert s g Hmode Hg. induction calls as [|[c now] rest IH]; intros s g Hmode Hg picks s' Hrun;
      simpl in Hrun.
    + injection Hrun as <- <-. exists g. split; [exact Hg|]. split; [simpl; lia|].
      intros c p; discriminate.
    + destruct (selectInstanceForContactInGroup c insts gid now s) as [[p s1]|] eqn:Hsel;
        [|discriminate].
      destruct (runGroup insts gid rest s1) as [[picks' s2]|] eqn:Hrest; [|discriminate].
      injection Hrun as <- <-.
      pose proof (selectInGroup_global _ _ _ _ _ _ _ _ Hmode Hne Hg Hsel) as Hg1.
      assert (Hmode1 : cacheMode s1 ≠ CacheDown)
        by (rewrite (selectInGroup_mode _ _ _ _ _ _ _ Hsel); exact Hmode).
      destruct (IH s1 _ Hmode1 Hg1 picks' s2 Hrest) as (g' & Hg' & Hcount & Hlast).
      exists g'. split; [exact Hg'|]. split.
      * rewrite Hcount. simpl globalRotationCount. simpl List.length. lia.
      * intros c' p' Hl. destruct picks' as [|q picks''].
        -- simpl in Hl. injection Hl as <- <-.
           destruct rest as [|[c2 n2] rest2].
           ++ simpl in Hrest. injection Hrest as <-. rewrite Hg1 in Hg'.
              injection Hg' as <-. reflexivity.
           ++ simpl in Hrest.
              destruct (selectInstanceForContactInGroup c2 insts gid n2 s1) as [[? ?]|];
                [|discriminate].
              destruct (runGroup insts gid rest2 _) as [[? ?]|]; discriminate.
        -- rewrite last_cons_cons in Hl. eapply Hlast, Hl.
  - revert s g Hmode Hg. induction calls as [|[c now] rest IH]; intros s g Hmode Hg picks s' Hrun;
      simpl in Hrun.
    + injection Hrun as <- <-. exists g. split; [exact Hg|]. split; [simpl; lia|].
      intros c p; discriminate.
    + destruct (selectInstanceForContact c insts now s) as [[p s1]|] eqn:Hsel;
        [|discriminate].
      destruct (runUngrouped insts rest s1) as [[picks' s2]|] eqn:Hrest; [|discriminate].
      injection Hrun as <- <-.
      pose proof (selectForContact_global _ _ _ _ _ _ _ Hmode Hne Hg Hsel) as Hg1.
      assert (Hmode1 : cacheMode s1 ≠ CacheDown)
        by (rewrite (selectForContact_mode _ _ _ _ _ _ Hsel); exact Hmode).
      destruct (IH s1 _ Hmode1 Hg1 picks' s2 Hrest) as (g' & Hg' & Hcount & Hlast).
      exists g'. split; [exact Hg'|]. split.
      * rewrite Hcount. simpl globalRotationCount. simpl List.length. lia.
      * intros c' p' Hl. destruct picks' as [|q picks''].
        -- simpl in Hl. injection Hl as <- <-.
           destruct rest as [|[c2 n2] rest2].
           ++ simpl in Hrest. injection Hrest as <-. rewrite Hg1 in Hg'.
              injection Hg' as <-. reflexivity.
           ++ simpl in Hrest.
              destruct (selectInstanceForContact c2 insts n2 s1) as [[? ?]|];
                [|discriminate].
              destruct (runUngrouped insts rest2 _) as [[? ?]|]; discriminate.
        -- rewrite last_cons_cons in Hl. eapply Hlast, Hl.
Qed.

(** X4: While cache calls do not raise, every selection adds one to the count
    of the global descriptor and records its pick there: after a run the
    count has grown by the number of selections and the recorded instance
    is the last pick.  Grouped and ungrouped runs write the same (top-level)
    global descriptor. *)
Theorem global_descriptor_counts_selections
    (insts : list string) (gid : string) (calls : list (string * Z))
    (s : State) (g : GlobalRotation) :
  cacheMode s ≠ CacheDown -> insts ≠ [] -> "" ∉ insts ->
  getGlobalRotationData s = Some g ->
  (exists picks s' g',
      runGroup insts gid calls s = Some (picks, s')
      /\ getGlobalRotationData s' = Some g'
      /\ globalRotationCount g' = globalRotationCount g + Z.of_nat (List.length calls)
      /\ (forall c p, last picks = Some (c, p) -> globalLastUsedInstance g' = Some p))
  /\ (exists picks s' g',
         runUngrouped insts calls s = Some (picks, s')
         /\ getGlobalRotationData s' = Some g'
         /\ globalRotationCount g' = globalRotationCount g + Z.of_nat (List.length calls)
         /\ (forall c p, last picks = Some (c, p) -> globalLastUsedInstance g' = Some p)).
Proof.
  intros Hmode Hnonempty Hne Hg. split.
  - destruct (Balancer.runGroup_total insts gid calls s Hnonempty) as (picks & s' & Hrun).
    destruct (proj1 (run_global_descriptor insts gid calls s g Hmode Hne Hg)
                picks s' Hrun) as (g' & H).
    exists picks, s', g'. split; [exact Hrun | exact H].
  - destruct (Balancer.runUngrouped_total insts calls s Hnonempty) as (picks & s' & Hrun).
    destruct (proj2 (run_global_descriptor insts gid calls s g Hmode Hne Hg)
                picks s' Hrun) as (g' & H).
    exists picks, s', g'. split; [exact Hrun | exact H].
Qed.

Lemma global_descriptor_counts_selections_witness :
  (exists picks s' g',
      runGroup ["a"; "b"] "g1" [("5511", 1); ("5512", 2); ("5513", 3)] midCycle
      = Some (picks, s')
      /\ getGlobalRotationData s' = Some g'
      /\ globalRotationCount g' = 0 + 3
      /\ (forall c p, last picks = Some (c, p) -> globalLastUsedInstance g' = Some p))
  /\ (exists picks s' g',
         runUngrouped ["a"; "b"] [("5511", 1); ("5512", 2); ("5513", 3)] midCycle
         = Some (picks, s')
         /\ getGlobalRotationData s' = Some g'
         /\ globalRotationCount g' = 0 + 3
         /\ (forall c p, last picks = Some (c, p) -> globalLastUsedInstance g' = Some p)).
Proof.
  assert (Hne : "" ∉ ["a"; "b"]) by (apply (bool_decide_unpack _); vm_compute; exact I).
  apply (global_descriptor_counts_selections ["a"; "b"] "g1"
           [("5511", 1); ("5512", 2); ("5513", 3)] midCycle
           (mkGlobalRotation None 0) ltac:(discriminate) ltac:(discriminate) Hne eq_refl).
Defined.

(** *** Round robin over new contacts *)

Lemma indexOf_lookup (l : list string) (n : nat) (x : string) :
  NoDup l -> l !! n = Some x -> indexOf l x = Z.of_nat n.
Proof.
  revert n. induction l as [|y l IH]; intros n Hnd Hn; [discriminate|].
  apply NoDup_cons in Hnd as [Hy Hnd]. simpl.
  destruct n as [|n]; simpl in Hn.
  - injection Hn as ->. rewrite String.eqb_refl. reflexivity.
  - destruct (String.eqb_spec y x) as [->|Hne].
    + exfalso. apply Hy. eapply list_elem_of_lookup_2, Hn.
    + rewrite (IH n Hnd Hn). destruct (Z.ltb_spec (Z.of_nat n) 0); lia.
Qed.

Lemma indexOf_at (l : list string) (j : Z) (x : string) :
  NoDup l -> at_ l j = Some x -> indexOf l x = j.
Proof.
  unfold at_. intros Hnd. destruct (Z.ltb_spec j 0) as [Hj|Hj]; [discriminate|].
  intros Hat. rewrite (indexOf_lookup l (Z.to_nat j) x Hnd Hat). lia.
Qed.

(** The index from which the next selection starts, once the instance at
    index [j] has been recorded as the global last pick. *)
Lemma next_index_after sorted j p c :
  NoDup sorted -> p ≠ "" -> at_ sorted j = Some p ->
  groupNextGlobalIndex sorted (mkGlobalRotation (Some p) c)
  = Z.rem (j + 1) (Js.length sorted).
Proof.
  intros Hnd Hp Hat. unfold groupNextGlobalIndex. cbn [globalLastUsedInstance].
  rewrite truthy_nonempty by exact Hp. rewrite (indexOf_at sorted j p Hnd Hat).
  reflexivity.
Qed.

Lemma rem_step j i k :
  0 <= j -> 0 <= i -> 0 < k ->
  Z.rem (Z.rem (j + 1) k + i) k = Z.rem (j + (i + 1)) k.
Proof.
  intros Hj Hi Hk.
  assert (0 <= Z.rem (j + 1) k < k) by (apply Z.rem_bound_pos; lia).
  rewrite !Z.rem_mod_nonneg by lia.
  rewrite Zplus_mod_idemp_l. f_equal. lia.
Qed.

(** The pick for a contact without a descriptor is the instance at the
    global-next index. *)
Lemma selectInGroup_new_contact contact insts gid now s p s' :
  getRotationDataFromCache (groupContactKey gid contact) s = None ->
  selectInstanceForContactInGroup contact insts gid now s = Some (p, s') ->
  at_ (sort insts)
    (groupNextGlobalIndex (sort insts)
       (default freshGlobalRotation (getGlobalRotationData s))) = Some p.
Proof.
  intros Hfresh H. apply selectInGroup_inv in H as (next & Hat & Hc & _).
  rewrite Hfresh in Hc. simpl in Hc.
  rewrite (groupChoice_eligible (sort insts) freshRotationData next) in Hc.
  - injection Hc as <-. exact Hat.
  - discriminate.
  - simpl. intros Hin. inversion Hin.
Qed.

Lemma selectForContact_new_contact contact insts now s p s' g :
  insts ≠ [] ->
  getRotationDataFromCache (normalizeContactNumber contact) s = None ->
  getGlobalRotationData s = Some g ->
  selectInstanceForContact contact insts now s = Some (p, s') ->
  at_ (sort insts) (groupNextGlobalIndex (sort insts) g) = Some p.
Proof.
  intros Hne Hfresh Hg H. apply selectForContact_inv in H as (Hc & _).
  rewrite Hfresh, Hg in Hc. simpl default in Hc.
  pose proof (sort_nonempty insts Hne) as Hnonempty.
  rewrite globalNextIndex_group in Hc by exact Hnonempty.
  destruct (at_Some (sort insts) (groupNextGlobalIndex (sort insts) g))
    as (next & Hat & _).
  { apply groupNextGlobalIndex_range, Hnonempty. }
  rewrite (contactChoice_eligible (sort insts) _ _ next) in Hc.
  - injection Hc as <-. exact Hat.
  - apply groupNextGlobalIndex_range, Hnonempty.
  - exact Hat.
  - rewrite reset_last. discriminate.
  - intros Hin. apply reset_used_subset in Hin. inversion Hin.
Qed.

Section RoundRobin.
Variable insts : list string.
Hypothesis insts_NoDup : NoDup insts.
Hypothesis insts_nonempty : insts ≠ [].
Hypothesis insts_named : "" ∉ insts.

Lemma runGroup_round_robin gid calls :
  forall s g picks s',
    cacheMode s ≠ CacheDown ->
    getGlobalRotationData s = Some g ->
    NoDup (map fst calls) ->
    (forall c, c ∈ map fst calls ->
               getRotationDataFromCache (groupContactKey gid c) s = None) ->
    runGroup insts gid calls s = Some (picks, s') ->
    forall i c p,
      picks !! i = Some (c, p) ->
      at_ (sort insts)
        (Z.rem (groupNextGlobalIndex (sort insts) g + Z.of_nat i) (Js.length insts))
      = Some p.
Proof.
  pose proof (sort_nonempty insts insts_nonempty) as Hnonempty.
  pose proof (length_pos _ insts_nonempty) as Hpos.
  induction calls as [|[c0 now] rest IH];
    intros s g picks s' Hmode Hg Hnd Hfresh Hrun i c p Hi; simpl in Hrun.
  - injection Hrun as <- <-. discriminate.
  - destruct (selectInstanceForContactInGroup c0 insts gid now s) as [[p0 s1]|] eqn:Hsel;
      [|discriminate].
    destruct (runGroup insts gid rest s1) as [[picks' s2]|] eqn:Hrest; [|discriminate].
    injection Hrun as <- <-.
    pose proof (groupNextGlobalIndex_range (sort insts) g Hnonempty) as Hrange.
    rewrite sort_length_Z in Hrange.
    assert (Hp0 : at_ (sort insts) (groupNextGlobalIndex (sort insts) g) = Some p0).
    { pose proof (selectInGroup_new_contact c0 insts gid now s p0 s1) as H.
      rewrite Hg in H. apply H; [|exact Hsel]. apply Hfresh. left. }
    destruct i as [|i]; simpl in Hi.
    + injection Hi as <- <-. rewrite Z.add_0_r, Z.rem_small by exact Hrange. exact Hp0.
    + simpl in Hnd. apply NoDup_cons in Hnd as [Hc0 Hnd].
      assert (Hp0name : p0 ≠ "").
      { intros ->. apply insts_named. eapply selectInGroup_pick_elem, Hsel. }
      pose proof (selectInGroup_global _ _ _ _ _ _ _ _ Hmode insts_named Hg Hsel) as Hg1.
      assert (Hmode1 : cacheMode s1 ≠ CacheDown)
        by (rewrite (selectInGroup_mode _ _ _ _ _ _ _ Hsel); exact Hmode).
      specialize (IH s1 _ picks' s2 Hmode1 Hg1 Hnd).
      rewrite (next_index_after (sort insts) _ p0 _ (sort_NoDup _ insts_NoDup) Hp0name Hp0)
        in IH.
      rewrite sort_length_Z in IH.
      replace (Z.of_nat (S i)) with (Z.of_nat i + 1) by lia.
      rewrite <- (rem_step _ (Z.of_nat i) (Js.length insts)) by lia.
      eapply IH; [|exact Hrest | exact Hi].
      intros c' Hc'.
      rewrite (selectInGroup_other c0 insts gid now s p0 s1 _ Hsel).
      * apply Hfresh. right. exact Hc'.
      * intros E. apply groupKey_inj in E. subst c'. contradiction.
Qed.

Lemma runUngrouped_round_robin calls :
  forall s g picks s',
    cacheMode s ≠ CacheDown ->
    getGlobalRotationData s = Some g ->
    NoDup (map (fun call => normalizeContactNumber (fst call)) calls) ->
    (forall c, c ∈ map fst calls ->
               getRotationDataFromCache (normalizeContactNumber c) s = None) ->
    runUngrouped insts calls s = Some (picks, s') ->
    forall i c p,
      picks !! i = Some (c, p) ->
      at_ (sort insts)
        (Z.rem (groupNextGlobalIndex (sort insts) g + Z.of_nat i) (Js.length insts))
      = Some p.
Proof.
  pose proof (sort_nonempty insts insts_nonempty) as Hnonempty.
  pose proof (length_pos _ insts_nonempty) as Hpos.
  induction calls as [|[c0 now] rest IH];
    intros s g picks s' Hmode Hg Hnd Hfresh Hrun i c p Hi; simpl in Hrun.
  - injection Hrun as <- <-. discriminate.
  - destruct (selectInstanceForContact c0 insts now s) as [[p0 s1]|] eqn:Hsel;
      [|discriminate].
    destruct (runUngrouped insts rest s1) as [[picks' s2]|] eqn:Hrest; [|discriminate].
    injection Hrun as <- <-.
    pose proof (groupNextGlobalIndex_range (sort insts) g Hnonempty) as Hrange.
    rewrite sort_length_Z in Hrange.
    assert (Hp0 : at_ (sort insts) (groupNextGlobalIndex (sort insts) g) = Some p0).
    { apply (selectForContact_new_contact c0 insts now s p0 s1 g insts_nonempty);
        [|exact Hg | exact Hsel]. apply Hfresh. left. }
    destruct i as [|i]; simpl in Hi.
    + injection Hi as <- <-. rewrite Z.add_0_r, Z.rem_small by exact Hrange. exact Hp0.
    + simpl in Hnd. apply NoDup_cons in Hnd as [Hc0 Hnd].
      assert (Hp0name : p0 ≠ "").
      { intros ->. apply insts_named. eapply selectForContact_pick_elem, Hsel. }
      pose proof (selectForContact_global _ _ _ _ _ _ _ Hmode insts_named Hg Hsel) as Hg1.
      assert (Hmode1 : cacheMode s1 ≠ CacheDown)
        by (rewrite (selectForContact_mode _ _ _ _ _ _ Hsel); exact Hmode).
      specialize (IH s1 _ picks' s2 Hmode1 Hg1 Hnd).
      rewrite (next_index_after (sort insts) _ p0 _ (sort_NoDup _ insts_NoDup) Hp0name Hp0)
        in IH.
      rewrite sort_length_Z in IH.
      replace (Z.of_nat (S i)) with (Z.of_nat i + 1) by lia.
      rewrite <- (rem_step _ (Z.of_nat i) (Js.length insts)) by lia.
      eapply IH; [|exact Hrest | exact Hi].
      intros c' Hc'.
      rewrite (selectForContact_other c0 insts now s p0 s1 _ Hsel).
      * apply Hfresh. right. exact Hc'.
      * intros E. apply Hc0. rewrite <- E.
        apply list_elem_of_fmap in Hc' as (call & -> & Hcall).
        apply list_elem_of_fmap. exists call. split; [reflexivity | exact Hcall].
Qed.

End RoundRobin.

(** X5: While cache calls do not raise, a run of selections for contacts that
    are all different and have no descriptor yet returns, and its picks walk
    through the sorted candidates in order, one step per selection, starting
    at the global-next index and wrapping around: pick number [i] is the
    candidate at index [(start + i) mod k].  Grouped and ungrouped. *)
Theorem round_robin_over_new_contacts
    (insts : list string) (gid : string) (calls : list (string * Z))
    (s : State) (g : GlobalRotation) :
  cacheMode s ≠ CacheDown -> NoDup insts -> insts ≠ [] -> "" ∉ insts ->
  getGlobalRotationData s = Some g ->
  NoDup (map (fun call => normalizeContactNumber (fst call)) calls) ->
  (forall c, c ∈ map fst calls ->
             getRotationDataFromCache (groupContactKey gid c) s = None
             /\ getRotationDataFromCache (normalizeContactNumber c) s = None) ->
  (exists picks s',
     runGroup insts gid calls s = Some (picks, s')
     /\ forall i c p,
          picks !! i = Some (c, p) ->
          at_ (sort insts)
            (Z.rem (groupNextGlobalIndex (sort insts) g + Z.of_nat i) (Js.length insts))
          = Some p)
  /\ (exists picks s',
        runUngrouped insts calls s = Some (picks, s')
        /\ forall i c p,
             picks !! i = Some (c, p) ->
             at_ (sort insts)
               (Z.rem (groupNextGlobalIndex (sort insts) g + Z.of_nat i)
                  (Js.length insts))
             = Some p).
Proof.
  intros Hmode Hnd Hne Hnamed Hg Hcalls Hfresh. split.
  - destruct (Balancer.runGroup_total insts gid calls s Hne) as (picks & s' & Hrun).
    exists picks, s'. split; [exact Hrun|].
    assert (Hcalls' : NoDup (map fst calls)).
    { apply (NoDup_fmap_1 normalizeContactNumber).
      rewrite <- list_fmap_compose. exact Hcalls. }
    assert (Hfresh' : forall c, c ∈ map fst calls ->
                        getRotationDataFromCache (groupContactKey gid c) s = None).
    { intros c Hc. exact (proj1 (Hfresh c Hc)). }
    intros i c p Hi.
    exact (runGroup_round_robin insts Hnd Hne Hnamed gid calls s g picks s'
             Hmode Hg Hcalls' Hfresh' Hrun i c p Hi).
  - destruct (Balancer.runUngrouped_total insts calls s Hne) as (picks & s' & Hrun).
    exists picks, s'. split; [exact Hrun|].
    assert (Hfresh' : forall c, c ∈ map fst calls ->
                        getRotationDataFromCache (normalizeContactNumber c) s = None).
    { intros c Hc. exact (proj2 (Hfresh c Hc)). }
    intros i c p Hi.
    exact (runUngrouped_round_robin insts Hnd Hne Hnamed calls s g picks s'
             Hmode Hg Hcalls Hfresh' Hrun i c p Hi).
Qed.

Lemma round_robin_over_new_contacts_witness :
  (exists picks s',
     runGroup ["c"; "a"; "b"] "g1" [("5521", 1); ("5522", 2); ("5523", 3); ("5524", 4)]
       midCycle = Some (picks, s')
     /\ forall i c p,
          picks !! i = Some (c, p) ->
          at_ (sort ["c"; "a"; "b"])
            (Z.rem (groupNextGlobalIndex (sort ["c"; "a"; "b"]) (mkGlobalRotation None 0)
                    + Z.of_nat i) (Js.length ["c"; "a"; "b"]))
          = Some p)
  /\ (exists picks s',
        runUngrouped ["c"; "a"; "b"] [("5521", 1); ("5522", 2); ("5523", 3); ("5524", 4)]
          midCycle = Some (picks, s')
        /\ forall i c p,
             picks !! i = Some (c, p) ->
             at_ (sort ["c"; "a"; "b"])
               (Z.rem (groupNextGlobalIndex (sort ["c"; "a"; "b"])
                         (mkGlobalRotation None 0)
                       + Z.of_nat i) (Js.length ["c"; "a"; "b"]))
             = Some p).
Proof.
  assert (Hnd : NoDup ["c"; "a"; "b"]) by (apply (bool_decide_unpack _); vm_compute; exact I).
  assert (Hne : "" ∉ ["c"; "a"; "b"]) by (apply (bool_decide_unpack _); vm_compute; exact I).
  apply (round_robin_over_new_contacts ["c"; "a"; "b"] "g1"
           [("5521", 1); ("5522", 2); ("5523", 3); ("5524", 4)] midCycle
           (mkGlobalRotation None 0)
           ltac:(discriminate) Hnd ltac:(discriminate) Hne eq_refl).
  - apply (bool_decide_unpack _). vm_compute. exact I.
  - intros c Hc. simpl in Hc.
    repeat (apply elem_of_cons in Hc as [->|Hc]; [vm_compute; split; reflexivity|]).
    inversion Hc.
Defined.

(** *** Removing a descriptor *)

(** X6: While cache calls do not raise, after a removal nothing is read
    under the key of the contact and the entry of the memory map is gone.
    When cache calls raise, the removal changes nothing: the cache call
    comes first in the [try], so the entry of the memory map stays.  In
    both cases what is read under any other key, and the global
    descriptor, are as before. *)
Theorem removed_descriptor_is_absent (key k : string) (s : State) :
  k ≠ key ->
  (cacheMode s ≠ CacheDown ->
   getRotationDataFromCache key (removeRotationDataFromCache key s) = None
   /\ rotationMemory (removeRotationDataFromCache key s) !! key = None)
  /\ (cacheMode s = CacheDown -> removeRotationDataFromCache key s = s)
  /\ getRotationDataFromCache k (removeRotationDataFromCache key s)
     = getRotationDataFromCache k s
  /\ getGlobalRotationData (removeRotationDataFromCache key s)
     = getGlobalRotationData s.
Proof.
  intros Hk.
  unfold getRotationDataFromCache, getGlobalRotationData, removeRotationDataFromCache,
    cacheGet.
  destruct (cacheMode s) eqn:E; simpl; rewrite ?E.
  - rewrite !lookup_delete_eq.
    split; [intros _; split; reflexivity|]. split; [discriminate|]. split.
    + rewrite lookup_delete_ne by (intros H; apply cacheKey_inj in H; congruence).
      rewrite lookup_delete_ne by congruence. reflexivity.
    + rewrite lookup_delete_ne by apply cacheKey_not_global. reflexivity.
  - rewrite lookup_delete_eq.
    split; [intros _; split; reflexivity|]. split; [discriminate|].
    split; [|reflexivity].
    rewrite lookup_delete_ne by congruence. reflexivity.
  - split; [intros H; contradiction|]. auto.
Qed.

Lemma removed_descriptor_is_absent_witness :
  (getRotationDataFromCache "5511" (removeRotationDataFromCache "5511" sameOnBothPaths)
   = None
   /\ rotationMemory (removeRotationDataFromCache "5511" sameOnBothPaths) !! "5511"
      = None)
  /\ removeRotationDataFromCache "5511" downWithMemory = downWithMemory
  /\ getRotationDataFromCache "group_rotation:g1:5511"
       (removeRotationDataFromCache "5511" sameOnBothPaths)
     = getRotationDataFromCache "group_rotation:g1:5511" sameOnBothPaths
  /\ getGlobalRotationData (removeRotationDataFromCache "5511" sameOnBothPaths)
     = getGlobalRotationData sameOnBothPaths.
Proof.
  assert (Hk : "group_rotation:g1:5511" ≠ "5511") by discriminate.
  destruct (removed_descriptor_is_absent "5511" "group_rotation:g1:5511"
              sameOnBothPaths Hk) as (Hup & _ & Hother & Hglobal).
  destruct (removed_descriptor_is_absent "5511" "group_rotation:g1:5511"
              downWithMemory Hk) as (_ & Hdown & _ & _).
  split; [apply Hup; discriminate|]. split; [apply Hdown; reflexivity|].
  split; [exact Hother | exact Hglobal].
Defined.

End BalancerMore.

(** ** Membership of a group *)

Module GroupAdminFacts.
Import Js JsFacts Errors Groups GroupAdmin.

Local Open Scope string_scope.
Local Open Scope Z_scope.

Lemma group_eta (g : InstanceGroup) :
  mkInstanceGroup (id g) (name g) (alias g) (enabled g) (instances g) = g.
Proof. destruct g; reflexivity. Qed.

Lemma findUnique_update groups i l g :
  findUnique groups i = Some g ->
  findUnique (updateInstances i l groups) i
  = Some (mkInstanceGroup (id g) (name g) (alias g) (enabled g) l).
Proof.
  unfold findUnique. induction groups as [|h rest IH]; simpl; [discriminate|].
  destruct (String.eqb (id h) i) eqn:E; simpl.
  - intros [= <-]. rewrite E. reflexivity.
  - rewrite E. exact IH.
Qed.

Lemma findUnique_update_other groups i j l :
  j ≠ i -> findUnique (updateInstances i l groups) j = findUnique groups j.
Proof.
  intros Hj. unfold findUnique. induction groups as [|h rest IH]; simpl; [reflexivity|].
  destruct (String.eqb (id h) i) eqn:E; simpl.
  - apply String.eqb_eq in E.
    destruct (String.eqb (id h) j) eqn:E'; [|reflexivity].
    apply String.eqb_eq in E'. congruence.
  - destruct (String.eqb (id h) j); [reflexivity | exact IH].
Qed.

Lemma update_update groups i l g :
  findUnique groups i = Some g ->
  updateInstances i (instances g) (updateInstances i l groups) = groups.
Proof.
  unfold findUnique. induction groups as [|h rest IH]; simpl; [discriminate|].
  destruct (String.eqb (id h) i) eqn:E; simpl.
  - intros [= <-]. rewrite E. rewrite group_eta. reflexivity.
  - intros H. rewrite E. rewrite (IH H). reflexivity.
Qed.

Lemma filter_other_elem (name x : string) l :
  x ∈ List.filter (fun n => negb (String.eqb n name)) l <-> x ∈ l /\ x ≠ name.
Proof.
  rewrite !list_elem_of_In, filter_In, negb_true_iff, String.eqb_neq. reflexivity.
Qed.

Lemma filter_other_app (name : string) l :
  name ∉ l ->
  List.filter (fun n => negb (String.eqb n name)) (l ++ [name]) = l.
Proof.
  intros Hn. rewrite List.filter_app. simpl. rewrite String.eqb_refl. simpl.
  rewrite app_nil_r. induction l as [|x l IH]; simpl; [reflexivity|].
  apply not_elem_of_cons in Hn as [Hx Hl].
  destruct (String.eqb x name) eqn:E.
  - apply String.eqb_eq in E. congruence.
  - simpl. rewrite (IH Hl). reflexivity.
Qed.

Lemma length_zero (l : list string) : Js.length l = 0 <-> l = [].
Proof.
  unfold Js.length. destruct l; simpl; split; intros H;
    try reflexivity; try discriminate; lia.
Qed.

(** X7: A removal never leaves a group without instances: the group it returns
    has the other members, in their order, at least one of them, and is the
    row that a lookup finds afterwards, while the rows of other groups are
    as they were; a removal that is refused changes nothing and is refused
    with status 400 or 404. *)
Theorem removeInstance_outcome (groupId instanceName : string) (w : World) :
  match removeInstance groupId instanceName w with
  | (Returned g', w') =>
      (exists g,
          findById w groupId = Returned g
          /\ instanceName ∈ instances g
          /\ instances g' ≠ []
          /\ (instanceName ∉ instances g')
          /\ instances g'
             = List.filter (fun n => negb (String.eqb n instanceName)) (instances g)
          /\ findById w' groupId = Returned g'
          /\ waInstances w' = waInstances w /\ rotation w' = rotation w)
  | (Thrown e, w') => w' = w /\ (httpStatus e = 400 \/ httpStatus e = 404)
  end.
Proof.
  unfold removeInstance, findById.
  destruct (findUnique (instanceGroup w) groupId) as [g|] eqn:Hg;
    [|split; [reflexivity | right; reflexivity]].
  destruct (bool_decide (instanceName ∈ instances g)) eqn:Hin; simpl;
    [|split; [reflexivity | left; reflexivity]].
  apply bool_decide_eq_true in Hin.
  destruct (Js.length _ =? 0) eqn:Hlen; [split; [reflexivity | left; reflexivity]|].
  apply Z.eqb_neq in Hlen. exists g. simpl.
  split; [reflexivity|]. split; [exact Hin|]. split.
  { intros E. apply Hlen. apply length_zero. exact E. }
  split.
  { intros H. apply filter_other_elem in H as [_ H]. congruence. }
  split; [reflexivity|].
  rewrite (findUnique_update _ _ _ _ Hg). auto.
Qed.

(** X8: An addition appends the instance to the members: it is refused for a
    name that is not the name of an instance or that is already a member,
    so a member list without duplicates stays so; the group it returns is
    the row that a lookup finds afterwards; and an addition that is refused
    changes nothing. *)
Theorem addInstance_outcome
    (instanceTable : list string) (groupId instanceName : string) (w : World) :
  match addInstance instanceTable groupId instanceName w with
  | (Returned g', w') =>
      (exists g,
          findById w groupId = Returned g
          /\ instanceName ∈ instanceTable
          /\ (instanceName ∉ instances g)
          /\ instances g' = (instances g ++ [instanceName])%list
          /\ findById w' groupId = Returned g'
          /\ waInstances w' = waInstances w /\ rotation w' = rotation w)
  | (Thrown e, w') => w' = w /\ (httpStatus e = 400 \/ httpStatus e = 404)
  end.
Proof.
  unfold addInstance, findById.
  destruct (findUnique (instanceGroup w) groupId) as [g|] eqn:Hg;
    [|split; [reflexivity | right; reflexivity]].
  simpl. destruct (bool_decide (instanceName ∈ instanceTable)) eqn:Htable;
    [|split; [reflexivity | left; reflexivity]].
  apply bool_decide_eq_true in Htable.
  destruct (bool_decide (instanceName ∈ instances g)) eqn:Hin;
    [split; [reflexivity | left; reflexivity]|].
  apply bool_decide_eq_false in Hin. exists g. simpl.
  split; [reflexivity|]. split; [exact Htable|]. split; [exact Hin|].
  split; [reflexivity|].
  rewrite (findUnique_update _ _ _ _ Hg). auto.
Qed.

(** X9: Adding an instance to a group that has members and removing it
    again gives a group with the members it had, in their order, and with
    the id, the name, the alias and the enabled flag it had; that group is
    the row a lookup finds afterwards; and the rows of the other groups,
    the connection states and the rotation state are as they were. *)
Theorem add_then_remove
    (instanceTable : list string) (groupId instanceName : string) (w : World)
    (g : InstanceGroup) :
  findById w groupId = Returned g ->
  instances g ≠ [] ->
  instanceName ∈ instanceTable ->
  instanceName ∉ instances g ->
  exists g1 w1 g2 w2,
    addInstance instanceTable groupId instanceName w = (Returned g1, w1)
    /\ removeInstance groupId instanceName w1 = (Returned g2, w2)
    /\ instances g2 = instances g
    /\ id g2 = id g /\ name g2 = name g /\ alias g2 = alias g
    /\ enabled g2 = enabled g
    /\ findById w2 groupId = Returned g2
    /\ (forall j, j ≠ groupId -> findById w2 j = findById w j)
    /\ waInstances w2 = waInstances w /\ rotation w2 = rotation w.
Proof.
  unfold findById. intros Hfind Hne Htable Hin.
  destruct (findUnique (instanceGroup w) groupId) as [g0|] eqn:Hg; [|discriminate].
  injection Hfind as ->.
  exists (mkInstanceGroup (id g) (name g) (alias g) (enabled g)
            (instances g ++ [instanceName])%list),
    (mkWorld (updateInstances groupId (instances g ++ [instanceName])%list
                (instanceGroup w))
       (waInstances w) (rotation w)),
    g, w.
  split.
  { unfold addInstance. rewrite Hg. simpl.
    rewrite (bool_decide_eq_true_2 _ Htable), (bool_decide_eq_false_2 _ Hin).
    reflexivity. }
  split.
  { unfold removeInstance. simpl instanceGroup.
    rewrite (findUnique_update _ _ _ _ Hg). simpl.
    rewrite bool_decide_eq_true_2 by (apply elem_of_app; right; left).
    simpl. rewrite (filter_other_app _ _ Hin).
    destruct (Js.length (instances g) =? 0) eqn:Hlen.
    { apply Z.eqb_eq, length_zero in Hlen. contradiction. }
    rewrite group_eta, (update_update _ _ _ _ Hg). destruct w; reflexivity. }
  rewrite Hg. repeat split; reflexivity.
Qed.

Lemma add_then_remove_witness :
  exists g1 w1 g2 w2,
    addInstance ["a"; "b"; "c"; "d"] "g1" "d" GroupAdmin.salesWorld = (Returned g1, w1)
    /\ removeInstance "g1" "d" w1 = (Returned g2, w2)
    /\ instances g2 = ["a"; "b"; "c"]
    /\ id g2 = "g1" /\ name g2 = "Sales" /\ alias g2 = "sales"
    /\ enabled g2 = true
    /\ findById w2 "g1" = Returned g2
    /\ (forall j, j ≠ "g1" -> findById w2 j = findById GroupAdmin.salesWorld j)
    /\ waInstances w2 = waInstances GroupAdmin.salesWorld
    /\ rotation w2 = rotation GroupAdmin.salesWorld.
Proof.
  apply (add_then_remove ["a"; "b"; "c"; "d"] "g1" "d" salesWorld
           (mkInstanceGroup "g1" "Sales" "sales" true ["a"; "b"; "c"])).
  - reflexivity.
  - discriminate.
  - apply (bool_decide_unpack _). vm_compute. exact I.
  - apply (bool_decide_unpack _). vm_compute. exact I.
Defined.

Lemma statsLoop_spec w l :
  forall acc a i,
    statsLoop w l acc a i
    = ((acc ++ map (fun n => (n, if isOpen w n then "active" else "inactive")) l)%list,
       a + Js.length (List.filter (isOpen w) l),
       i + (Js.length l - Js.length (List.filter (isOpen w) l))).
Proof.
  unfold Js.length. induction l as [|x l IH]; intros acc a i; simpl.
  - rewrite app_nil_r, !pair_equal_spec. repeat split; lia.
  - rewrite IH. destruct (isOpen w x); simpl; rewrite <- app_assoc; simpl;
      rewrite !pair_equal_spec; repeat split; lia.
Qed.

Lemma filter_length_le {A} (f : A -> bool) l :
  (List.length (List.filter f l) <= List.length l)%nat.
Proof. induction l as [|x l IH]; simpl; [lia|]. destruct (f x); simpl; lia. Qed.

(** X10: The statistics of a group add up: every member is listed once, in
    order, as active or inactive; the two counts sum to the total, which is
    the number of members; and whenever the group is enabled and some member
    is counted as active, [getActiveInstances] returns the members listed
    as active. *)
Theorem group_stats_add_up
    (trim : string -> string) (groupId : string) (w : World) (st : GroupStats) :
  getGroupStats trim groupId w = Returned st ->
  exists g,
    findById w groupId = Returned g
    /\ totalInstances st = Js.length (instances g)
    /\ activeInstances st + inactiveInstances st = totalInstances st
    /\ 0 <= activeInstances st /\ 0 <= inactiveInstances st
    /\ statsInstances st
       = map (fun n => (n, if isOpen w n then "active" else "inactive")) (instances g)
    /\ activeInstances st = Js.length (List.filter (isOpen w) (instances g))
    /\ (enabled g = true -> 0 < activeInstances st ->
        getActiveInstances w groupId = Returned (List.filter (isOpen w) (instances g))).
Proof.
  unfold getGroupStats.
  destruct (negb (truthy (Some groupId)) || _); [discriminate|].
  destruct (findById w groupId) as [g|e] eqn:Hfind; [|discriminate].
  rewrite statsLoop_spec. simpl. intros [= <-]. simpl.
  exists g. split; [reflexivity|].
  pose proof (filter_length_le (isOpen w) (instances g)) as Hle.
  unfold Js.length in *.
  split; [reflexivity|]. split; [lia|]. split; [lia|]. split; [lia|].
  split; [reflexivity|]. split; [reflexivity|].
  intros Hen Hpos. unfold getActiveInstances.
  unfold findById, findUnique in Hfind.
  assert (Hsame : List.find (fun g0 => String.eqb (id g0) groupId && enabled g0)
                    (instanceGroup w) = Some g).
  { destruct (List.find (fun g0 => String.eqb (id g0) groupId) (instanceGroup w))
      as [g0|] eqn:Hg; [|discriminate].
    injection Hfind as ->. revert Hg.
    induction (instanceGroup w) as [|h rest IH]; simpl; [discriminate|].
    destruct (String.eqb (id h) groupId); simpl.
    - intros [= ->]. rewrite Hen. reflexivity.
    - exact IH. }
  rewrite Hsame. unfold Js.length.
  destruct (Z.of_nat _ =? 0) eqn:E; [|reflexivity].
  apply Z.eqb_eq in E. lia.
Qed.

Lemma group_stats_add_up_witness :
  exists g,
    findById salesWorld "g1" = Returned g
    /\ 3 = Js.length (instances g)
    /\ 2 + 1 = 3
    /\ 0 <= 2 /\ 0 <= 1
    /\ [("a", "active"); ("b", "inactive"); ("c", "active")]
       = map (fun n => (n, if isOpen salesWorld n then "active" else "inactive"))
           (instances g)
    /\ 2 = Js.length (List.filter (isOpen salesWorld) (instances g))
    /\ (enabled g = true -> 0 < 2 ->
        getActiveInstances salesWorld "g1"
        = Returned (List.filter (isOpen salesWorld) (instances g))).
Proof.
  apply (group_stats_add_up (fun s => s) "g1" salesWorld
           (mkGroupStats 3 2 1 [("a", "active"); ("b", "inactive"); ("c", "active")])).
  vm_compute. reflexivity.
Defined.

End GroupAdminFacts.

(** ** Balanced sends *)

Module SendFacts.
Import Js JsFacts Errors Rotation StoreFacts SelectFacts Groups.

Local Open Scope string_scope.
Local Open Scope Z_scope.

Lemma filter_open w l x : x ∈ List.filter (isOpen w) l -> x ∈ l /\ isOpen w x = true.
Proof. rewrite !list_elem_of_In, filter_In. auto. Qed.

Lemma open_named w l : isOpen w "" = false -> "" ∉ List.filter (isOpen w) l.
Proof. intros H Hin. apply filter_open in Hin as [_ Hin]. congruence. Qed.

Lemma length_nonzero (l : list string) : (Js.length l =? 0) = false -> l ≠ [].
Proof. intros H ->. discriminate. Qed.

Lemma world_eta (w : World) : mkWorld (instanceGroup w) (waInstances w) (rotation w) = w.
Proof. destruct w; reflexivity. Qed.

Lemma saveGlobal_down g now s :
  cacheMode s = CacheDown -> saveGlobalRotationData g now s = s.
Proof. intros H. unfold saveGlobalRotationData, cacheSet. rewrite H. reflexivity. Qed.

Lemma selectForContact_down contact insts now s p s' :
  cacheMode s = CacheDown ->
  selectInstanceForContact contact insts now s = Some (p, s') -> s' = s.
Proof.
  intros Hmode H. apply selectForContact_inv in H as (_ & ->).
  rewrite (save_down _ _ _ _ Hmode). apply saveGlobal_down, Hmode.
Qed.

Lemma selectInGroup_down contact insts gid now s p s' :
  cacheMode s = CacheDown ->
  selectInstanceForContactInGroup contact insts gid now s = Some (p, s') -> s' = s.
Proof.
  intros Hmode H. apply selectInGroup_inv in H as (next & _ & _ & ->).
  rewrite (save_down _ _ _ _ Hmode). apply saveGlobal_down, Hmode.
Qed.

Lemma getGlobal_up s : cacheMode s ≠ CacheDown -> is_Some (getGlobalRotationData s).
Proof.
  intros H. unfold getGlobalRotationData, cacheGet.
  destruct (cacheMode s); [| |contradiction].
  - destruct (cache s !! GLOBAL_CACHE_KEY); eauto.
  - eauto.
Qed.

Lemma getGlobal_down s : cacheMode s = CacheDown -> getGlobalRotationData s = None.
Proof. intros H. unfold getGlobalRotationData, cacheGet. rewrite H. reflexivity. Qed.

Lemma setSize_setAdd_pos l x : 1 <= setSize (setAdd l x).
Proof.
  pose proof (setAdd_elem l x x) as H.
  assert (Hin : x ∈ setAdd l x) by (apply H; right; reflexivity).
  unfold setSize. destruct (setAdd l x); [inversion Hin | simpl; lia].
Qed.

(** X11: A send without a group that returns has used a connected instance, the
    one the messenger was called with; while cache calls do not raise its
    balancing information names that instance as the last one of the
    contact, with at least one instance used in the cycle, and when they
    raise the information is the empty one and the state is unchanged.  A
    send that fails either found no connected instance (status 500, nothing
    changed) or passes on the error of the messenger. *)
Theorem plain_send_outcome
    (SendResult : Type) (textMessage : string -> string -> string -> result SendResult)
    (number text : string) (now : Z) (w : World) :
  isOpen w "" = false ->
  match Sends.sendTextWithBalancing SendResult textMessage number text now w with
  | (Returned r, w') =>
      isOpen w (Sends.instanceUsed r) = true
      /\ textMessage (Sends.instanceUsed r) number text = Returned (Sends.sendResult r)
      /\ (cacheMode (rotation w) ≠ CacheDown ->
          Sends.infoLastUsedInstance (Sends.balancingInfo r)
          = Some (Sends.instanceUsed r)
          /\ 1 <= Sends.infoUsedInstancesInCycle (Sends.balancingInfo r))
      /\ (cacheMode (rotation w) = CacheDown ->
          Sends.balancingInfo r = Sends.mkContactBalancingInfo 0 0 None /\ w' = w)
  | (Thrown e, w') =>
      (Sends.getAvailableInstances w = []
       /\ e = InternalServerErrorException "Nenhuma instância disponível para envio"
       /\ httpStatus e = 500 /\ w' = w)
      \/ (exists selected,
             isOpen w selected = true /\ textMessage selected number text = Thrown e)
  end.
Proof.
  intros Hnamed. unfold Sends.sendTextWithBalancing.
  destruct (Js.length (Sends.getAvailableInstances w) =? 0) eqn:Hlen.
  { left. apply Z.eqb_eq in Hlen. unfold Js.length in Hlen.
    destruct (Sends.getAvailableInstances w); [auto | simpl in Hlen; lia]. }
  apply length_nonzero in Hlen.
  destruct (selectForContact_total number (Sends.getAvailableInstances w) now
              (rotation w) Hlen) as (p & s' & Hsel).
  rewrite Hsel.
  pose proof (selectForContact_pick_elem _ _ _ _ _ _ Hsel) as Hp.
  apply filter_open in Hp as [_ Hopen].
  destruct (textMessage p number text) as [r|e] eqn:Hsend.
  - simpl. split; [exact Hopen|]. split; [exact Hsend|]. split.
    + intros Hmode. unfold Sends.getContactBalancingInfo.
      rewrite (selectForContact_stored number _ now (rotation w) p s' Hmode
                 (open_named w _ Hnamed) Hsel).
      simpl. split; [reflexivity | apply setSize_setAdd_pos].
    + intros Hmode. rewrite (selectForContact_down _ _ _ _ _ _ Hmode Hsel).
      unfold Sends.getContactBalancingInfo. rewrite (get_down _ _ Hmode).
      split; [reflexivity | apply world_eta].
  - right. exists p. auto.
Qed.

Lemma plain_send_outcome_witness :
  match Sends.sendTextWithBalancing unit (fun _ _ _ => Returned tt) "+55 11 9" "Teste" 1
          GroupAdmin.salesWorld with
  | (Returned r, w') =>
      isOpen GroupAdmin.salesWorld (Sends.instanceUsed r) = true
      /\ Returned tt = Returned (Sends.sendResult r)
      /\ (cacheMode (rotation GroupAdmin.salesWorld) ≠ CacheDown ->
          Sends.infoLastUsedInstance (Sends.balancingInfo r)
          = Some (Sends.instanceUsed r)
          /\ 1 <= Sends.infoUsedInstancesInCycle (Sends.balancingInfo r))
      /\ (cacheMode (rotation GroupAdmin.salesWorld) = CacheDown ->
          Sends.balancingInfo r = Sends.mkContactBalancingInfo 0 0 None
          /\ w' = GroupAdmin.salesWorld)
  | (Thrown e, w') =>
      (Sends.getAvailableInstances GroupAdmin.salesWorld = []
       /\ e = InternalServerErrorException "Nenhuma instância disponível para envio"
       /\ httpStatus e = 500 /\ w' = GroupAdmin.salesWorld)
      \/ (exists selected,
             isOpen GroupAdmin.salesWorld selected = true
             /\ @Returned unit tt = Thrown e)
  end.
Proof.
  apply (plain_send_outcome unit (fun _ _ _ => Returned tt) "+55 11 9" "Teste" 1
           GroupAdmin.salesWorld).
  vm_compute. reflexivity.
Defined.

Lemma findByAlias_Returned w a g :
  findByAlias w a = Returned g -> g ∈ instanceGroup w /\ alias g = a.
Proof.
  unfold findByAlias.
  destruct (List.find _ (instanceGroup w)) as [g0|] eqn:E; [|discriminate].
  intros [= <-]. apply find_some in E as [Hin Heq].
  apply String.eqb_eq in Heq. split; [apply list_elem_of_In, Hin | exact Heq].
Qed.

Lemma getActiveInstances_Returned w gid l :
  getActiveInstances w gid = Returned l ->
  l ≠ []
  /\ exists g, g ∈ instanceGroup w /\ id g = gid /\ enabled g = true
               /\ l = List.filter (isOpen w) (instances g).
Proof.
  unfold getActiveInstances.
  destruct (List.find _ (instanceGroup w)) as [g|] eqn:E; [|discriminate].
  destruct (Js.length _ =? 0) eqn:Hlen; [discriminate|].
  intros [= <-]. split; [apply length_nonzero, Hlen|].
  apply find_some in E as [Hin Heq]. apply andb_true_iff in Heq as [Hid Hen].
  apply String.eqb_eq in Hid. exists g. split; [apply list_elem_of_In, Hin|]. auto.
Qed.

Lemma getActiveInstances_Thrown w gid e :
  getActiveInstances w gid = Thrown e ->
  e = NotFoundException "Instance group not found or disabled"
  \/ e = BadRequestException "No active instances found in the group".
Proof.
  unfold getActiveInstances.
  destruct (List.find _ (instanceGroup w)) as [g|]; [|intros [= <-]; auto].
  destruct (Js.length _ =? 0); [intros [= <-]; auto | discriminate].
Qed.

(** X12: A send through a group that returns has used a connected member of an
    enabled group with the id of the group that has the alias, the messenger
    was called with that instance, the balancing information names it as
    the last one of the contact, and cache calls did not raise.  A send
    that fails passes on the error of the messenger; or it failed before
    anything changed, because the service is missing (500), no group has
    the alias (404), the group is disabled (404) or none of its members is
    connected (400); or cache calls raise, and then the messenger has
    returned, that is the message has been sent, and the send ends in a
    [TypeError].  The error of line 192 is never the outcome. *)
Theorem group_send_outcome
    (SendResult : Type) (textMessage : string -> string -> string -> result SendResult)
    (hasInstanceGroupService : bool) (data : SendTextWithGroupBalancingDto)
    (now : Z) (w : World) :
  isOpen w "" = false ->
  match sendTextWithGroupBalancing SendResult textMessage hasInstanceGroupService
          data now w with
  | (Returned r, w') =>
      cacheMode (rotation w) ≠ CacheDown
      /\ (exists g, g ∈ instanceGroup w /\ alias g = dtoAlias data
                    /\ id g = responseGroupId _ r)
      /\ (exists g, g ∈ instanceGroup w /\ id g = responseGroupId _ r
                    /\ enabled g = true /\ instanceUsed _ r ∈ instances g)
      /\ isOpen w (instanceUsed _ r) = true
      /\ groupAlias _ r = dtoAlias data
      /\ textMessage (instanceUsed _ r) (number data) (text data)
         = Returned (sendResult _ r)
      /\ infoLastUsedInstance (balancingInfo _ r) = Some (instanceUsed _ r)
  | (Thrown e, w') =>
      (exists selected,
          isOpen w selected = true
          /\ textMessage selected (number data) (text data) = Thrown e)
      \/ (w' = w
          /\ e ∈ [InternalServerErrorException
                    "Instance Group Service não está disponível";
                  NotFoundException "Instance group not found";
                  NotFoundException "Instance group not found or disabled";
                  BadRequestException "No active instances found in the group"])
      \/ (cacheMode (rotation w) = CacheDown
          /\ e = TypeError "Cannot read properties of null"
          /\ exists selected r0,
               isOpen w selected = true
               /\ textMessage selected (number data) (text data) = Returned r0)
  end.
Proof.
  intros Hnamed. unfold sendTextWithGroupBalancing.
  destruct hasInstanceGroupService; simpl.
  2:{ right. left. split; [reflexivity|]. left. }
  destruct (findByAlias w (dtoAlias data)) as [group|e] eqn:Hfind.
  2:{ right. left. split; [reflexivity|].
      unfold findByAlias in Hfind. destruct (List.find _ _); [discriminate|].
      injection Hfind as <-. right. left. }
  destruct (getActiveInstances w (id group)) as [l|e] eqn:Hact.
  2:{ right. left. split; [reflexivity|].
      apply getActiveInstances_Thrown in Hact as [-> | ->].
      - do 2 right. left.
      - do 3 right. left. }
  apply findByAlias_Returned in Hfind as [Hgin Halias].
  apply getActiveInstances_Returned in Hact as (Hne & g & Hg & Hid & Hen & ->).
  destruct (Js.length _ =? 0) eqn:Hlen.
  { apply Z.eqb_eq in Hlen. exfalso. apply Hne.
    unfold Js.length in Hlen. destruct (List.filter _ _); [reflexivity | simpl in Hlen; lia]. }
  destruct (selectInGroup_total (number data) (List.filter (isOpen w) (instances g))
              (id group) now (rotation w) Hne) as (p & s' & Hsel).
  rewrite Hsel.
  pose proof (selectInGroup_pick_elem _ _ _ _ _ _ _ Hsel) as Hp.
  apply filter_open in Hp as [Hmember Hopen].
  destruct (textMessage p (number data) (text data)) as [r|e] eqn:Hsend.
  2:{ left. exists p. auto. }
  unfold getContactBalancingInfoInGroup.
  destruct (cacheMode (rotation w)) eqn:Hmode.
  3:{ assert (Hdown : cacheMode (rotation w) = CacheDown) by exact Hmode.
      rewrite (selectInGroup_down _ _ _ _ _ _ _ Hdown Hsel).
      rewrite (get_down _ _ Hdown). do 2 right.
      split; [reflexivity|]. split; [reflexivity|]. exists p, r. auto. }
  all: assert (Hup : cacheMode (rotation w) ≠ CacheDown) by (rewrite Hmode; discriminate).
  all: pose proof (selectInGroup_stored (number data) _ (id group) now (rotation w) p s'
                     Hup (open_named w _ Hnamed) Hsel) as Hstored.
  all: unfold groupContactKey in Hstored; rewrite Hstored.
  all: assert (Hup' : cacheMode s' ≠ CacheDown)
         by (rewrite (selectInGroup_mode _ _ _ _ _ _ _ Hsel); exact Hup).
  all: destruct (getGlobal_up s' Hup') as [g' ->].
  all: simpl.
  all: split; [discriminate|].
  all: split; [exists group; auto|].
  all: split; [exists g; auto|].
  all: auto.
Qed.

Lemma group_send_outcome_witness :
  match sendTextWithGroupBalancing unit (fun _ _ _ => Returned tt) true
          (mkSendDto "sales" "5511" "Teste") 1 GroupAdmin.salesWorld with
  | (Returned r, w') =>
      cacheMode (rotation GroupAdmin.salesWorld) ≠ CacheDown
      /\ (exists g, g ∈ instanceGroup GroupAdmin.salesWorld /\ alias g = "sales"
                    /\ id g = responseGroupId _ r)
      /\ (exists g, g ∈ instanceGroup GroupAdmin.salesWorld
                    /\ id g = responseGroupId _ r
                    /\ enabled g = true /\ instanceUsed _ r ∈ instances g)
      /\ isOpen GroupAdmin.salesWorld (instanceUsed _ r) = true
      /\ groupAlias _ r = "sales"
      /\ @Returned unit tt = Returned (sendResult _ r)
      /\ infoLastUsedInstance (balancingInfo _ r) = Some (instanceUsed _ r)
  | (Thrown e, w') => False
  end.
Proof.
  exact (group_send_outcome unit (fun _ _ _ => Returned tt) true
           (mkSendDto "sales" "5511" "Teste") 1 GroupAdmin.salesWorld eq_refl).
Defined.

End SendFacts.

(** ** Addresses and CIDR ranges *)

Module IpFacts.
Import Ip.

Local Open Scope string_scope.
Local Open Scope Z_scope.

Lemma toInt32_small x : - 2 ^ 31 <= x < 2 ^ 31 -> toInt32 (Some x) = x.
Proof.
  intros H. unfold toInt32. change (2 ^ 31) with 2147483648 in *.
  change (2 ^ 32) with 4294967296. rewrite Z.mod_small by lia. lia.
Qed.

Lemma toUint32_small x : 0 <= x < 2 ^ 32 -> toUint32 (Some x) = x.
Proof. intros H. unfold toUint32. apply Z.mod_small, H. Qed.

Lemma toInt32_wrap x :
  0 <= x < 2 ^ 32 -> toInt32 (Some x) = if x <? 2 ^ 31 then x else x - 2 ^ 32.
Proof.
  intros H. unfold toInt32. change (2 ^ 31) with 2147483648 in *.
  change (2 ^ 32) with 4294967296 in *.
  destruct (Z.ltb_spec x 2147483648).
  - rewrite Z.mod_small by lia. lia.
  - replace (x + 2147483648) with (x - 2147483648 + 1 * 4294967296) by lia.
    rewrite Z.mod_add by lia. rewrite Z.mod_small by lia. lia.
Qed.

Lemma shiftLeft_8 x : - 2 ^ 23 <= x < 2 ^ 23 -> shiftLeft (Some x) (Some 8) = x * 256.
Proof.
  intros H. unfold shiftLeft. change (2 ^ 23) with 8388608 in H.
  rewrite (toInt32_small x) by (change (2 ^ 31) with 2147483648; lia).
  change (Z.land (toUint32 (Some 8)) 31) with 8.
  rewrite Z.shiftl_mul_pow2 by lia. change (2 ^ 8) with 256.
  apply toInt32_small. change (2 ^ 31) with 2147483648. lia.
Qed.

Lemma ipToInt_range ip : 0 <= ipToInt ip < 2 ^ 32.
Proof.
  unfold ipToInt, unsignedShiftRight.
  change (Z.land (toUint32 (Some 0)) 31) with 0. rewrite Z.shiftr_0_r.
  destruct (fold_left _ _ _) as [v|]; simpl toUint32.
  - apply Z.mod_pos_bound. reflexivity.
  - split; [lia | reflexivity].
Qed.

(** X13: An address of four decimal octets is read as the number with these
    four bytes, the first one the most significant. *)
Theorem ipToInt_value (ip : string) (a b c d : Z) :
  octets ip = [Some a; Some b; Some c; Some d] ->
  0 <= a <= 255 -> 0 <= b <= 255 -> 0 <= c <= 255 -> 0 <= d <= 255 ->
  ipToInt ip = a * 2 ^ 24 + b * 2 ^ 16 + c * 2 ^ 8 + d.
Proof.
  unfold octets, ipToInt. intros Hoct Ha Hb Hc Hd.
  destruct (split "." ip) as [|o1 [|o2 [|o3 [|o4 [|o5 rest]]]]]; try discriminate.
  simpl in Hoct. injection Hoct as H1 H2 H3 H4. simpl fold_left.
  rewrite H1, H2, H3, H4.
  change (shiftLeft (Some 0) (Some 8)) with 0. simpl add. rewrite Z.add_0_l.
  rewrite (shiftLeft_8 a) by (change (2 ^ 23) with 8388608; lia).
  rewrite (shiftLeft_8 (a * 256 + b)) by (change (2 ^ 23) with 8388608; lia).
  unfold unsignedShiftRight. change (Z.land (toUint32 (Some 0)) 31) with 0.
  rewrite Z.shiftr_0_r. unfold shiftLeft.
  rewrite (toInt32_small ((a * 256 + b) * 256 + c))
    by (change (2 ^ 31) with 2147483648; lia).
  change (Z.land (toUint32 (Some 8)) 31) with 8.
  rewrite Z.shiftl_mul_pow2 by lia. change (2 ^ 8) with 256.
  rewrite toInt32_wrap by (change (2 ^ 32) with 4294967296; lia).
  change (2 ^ 24) with 16777216. change (2 ^ 16) with 65536.
  unfold toUint32. change (2 ^ 32) with 4294967296. change (2 ^ 31) with 2147483648.
  destruct (Z.ltb_spec (((a * 256 + b) * 256 + c) * 256) 2147483648).
  - rewrite Z.mod_small by lia. lia.
  - replace (((a * 256 + b) * 256 + c) * 256 - 4294967296 + d)
      with (((a * 256 + b) * 256 + c) * 256 + d + (-1) * 4294967296) by lia.
    rewrite Z.mod_add by lia. rewrite Z.mod_small by lia. lia.
Qed.

Lemma ipToInt_value_witness : ipToInt "192.168.1.10" = 192 * 2 ^ 24 + 168 * 2 ^ 16 + 1 * 2 ^ 8 + 10.
Proof.
  apply (ipToInt_value "192.168.1.10" 192 168 1 10); [vm_compute; reflexivity | lia..].
Defined.

Lemma land_31 n : 0 <= n -> Z.land n 31 = n mod 32.
Proof. intros H. change 31 with (Z.ones 5). rewrite Z.land_ones by lia. reflexivity. Qed.

Lemma shift_count n : Z.land (toUint32 (Some n)) 31 = n mod 32.
Proof.
  unfold toUint32. rewrite land_31 by (apply Z.mod_pos_bound; reflexivity).
  change (2 ^ 32) with 4294967296.
  pose proof (Z.mod_pos_bound n 4294967296 eq_refl).
  pose proof (Z.mod_pos_bound n 32 eq_refl).
  pose proof (Z.mod_pos_bound (n mod 4294967296) 32 eq_refl).
  pose proof (Z.div_mod n 4294967296 ltac:(lia)).
  pose proof (Z.div_mod n 32 ltac:(lia)).
  pose proof (Z.div_mod (n mod 4294967296) 32 ltac:(lia)).
  lia.
Qed.

Lemma pow_split k : 0 <= k <= 31 -> 2 ^ 31 = 2 ^ k * 2 ^ (31 - k) /\ 2 ^ 32 = 2 ^ k * 2 ^ (32 - k).
Proof.
  intros H. rewrite <- !Z.pow_add_r by lia. split; f_equal; lia.
Qed.

Lemma mask_value n :
  1 <= n <= 31 ->
  bitNot (Some (unsignedShiftRight (Some 4294967295) (Some n))) = - 2 ^ (32 - n).
Proof.
  intros H. unfold bitNot, unsignedShiftRight.
  rewrite shift_count, Z.mod_small by lia.
  change (toUint32 (Some 4294967295)) with (Z.ones 32).
  rewrite Z.shiftr_div_pow2, Z.ones_div_pow2 by lia.
  rewrite Z.ones_equiv.
  assert (Hpos : 0 < 2 ^ (32 - n)) by (apply Z.pow_pos_nonneg; lia).
  assert (Hle : 2 ^ (32 - n) <= 2 ^ 31) by (apply Z.pow_le_mono_r; lia).
  rewrite toInt32_small by lia. unfold Z.lnot. lia.
Qed.

Lemma land_mask x k : 0 <= k -> Z.land x (- 2 ^ k) = x / 2 ^ k * 2 ^ k.
Proof.
  intros H. replace (- 2 ^ k) with (Z.lnot (Z.ones k))
    by (rewrite Z.ones_equiv; unfold Z.lnot; lia).
  rewrite <- Z.ldiff_land, Z.ldiff_ones_r, Z.shiftl_mul_pow2, Z.shiftr_div_pow2 by lia.
  reflexivity.
Qed.

Lemma same_prefix x y k :
  0 <= x < 2 ^ 32 -> 0 <= y < 2 ^ 32 -> 1 <= k <= 31 ->
  toInt32 (Some x) / 2 ^ k = toInt32 (Some y) / 2 ^ k <-> x / 2 ^ k = y / 2 ^ k.
Proof.
  intros Hx Hy Hk. rewrite !toInt32_wrap by assumption.
  destruct (pow_split k ltac:(lia)) as [H31 H32].
  assert (HP : 0 < 2 ^ k) by (apply Z.pow_pos_nonneg; lia).
  assert (HH : 0 < 2 ^ (31 - k)) by (apply Z.pow_pos_nonneg; lia).
  assert (HQ : 2 ^ (32 - k) = 2 * 2 ^ (31 - k)).
  { replace (32 - k) with (1 + (31 - k)) by lia. rewrite Z.pow_add_r by lia. reflexivity. }
  assert (Hwrap : forall z, (z - 2 ^ 32) / 2 ^ k = z / 2 ^ k - 2 ^ (32 - k)).
  { intros z. rewrite H32.
    replace (z - 2 ^ k * 2 ^ (32 - k)) with (z + (- 2 ^ (32 - k)) * 2 ^ k) by lia.
    rewrite Z.div_add by lia. lia. }
  assert (Hlow : forall z, 0 <= z < 2 ^ 31 -> 0 <= z / 2 ^ k < 2 ^ (31 - k)).
  { intros z Hz. split; [apply Z.div_pos; lia|].
    apply Z.div_lt_upper_bound; lia. }
  assert (Hhigh : forall z, 2 ^ 31 <= z < 2 ^ 32 ->
                            2 ^ (31 - k) <= z / 2 ^ k < 2 ^ (32 - k)).
  { intros z Hz. split.
    - apply Z.div_le_lower_bound; lia.
    - apply Z.div_lt_upper_bound; lia. }
  destruct (Z.ltb_spec x (2 ^ 31)) as [Hxs|Hxl];
    destruct (Z.ltb_spec y (2 ^ 31)) as [Hys|Hyl]; rewrite ?Hwrap.
  - reflexivity.
  - pose proof (Hlow x ltac:(lia)). pose proof (Hhigh y ltac:(lia)). lia.
  - pose proof (Hhigh x ltac:(lia)). pose proof (Hlow y ltac:(lia)). lia.
  - lia.
Qed.

(** X14: For a prefix length from 1 to 31 an address is in a range exactly when
    it agrees with the network address on the leading bits, as many as the
    prefix length says. *)
Theorem cidr_match (ip cidr network p : string) (rest : list string) (n : Z) :
  split "/" cidr = network :: p :: rest ->
  parseInt p None = Some n ->
  1 <= n <= 31 ->
  isIpInCidr ip cidr = true
  <-> ipToInt ip / 2 ^ (32 - n) = ipToInt network / 2 ^ (32 - n).
Proof.
  intros Hsplit Hp Hn. unfold isIpInCidr. rewrite Hsplit.
  change ((p :: rest) !! 0%nat) with (Some p). cbv beta iota zeta. rewrite Hp.
  rewrite mask_value by exact Hn. unfold bitAnd.
  assert (Hpos : 0 < 2 ^ (32 - n)) by (apply Z.pow_pos_nonneg; lia).
  assert (Hle : 2 ^ (32 - n) <= 2 ^ 31) by (apply Z.pow_le_mono_r; lia).
  rewrite (toInt32_small (- 2 ^ (32 - n))) by lia.
  rewrite !land_mask by lia. rewrite Z.eqb_eq.
  rewrite <- (same_prefix (ipToInt ip) (ipToInt network) (32 - n))
    by (try apply ipToInt_range; lia).
  split; [|intros ->; reflexivity].
  intros H. apply Z.mul_cancel_r in H; [exact H | lia].
Qed.

Lemma cidr_match_witness :
  isIpInCidr "192.168.1.77" "192.168.1.0/24" = true
  <-> ipToInt "192.168.1.77" / 2 ^ (32 - 24) = ipToInt "192.168.1.0" / 2 ^ (32 - 24).
Proof.
  apply (cidr_match "192.168.1.77" "192.168.1.0/24" "192.168.1.0" "24" [] 24);
    [vm_compute; reflexivity | vm_compute; reflexivity | lia].
Defined.

Lemma cidr_prefix_multiple_of_32 ip cidr network p rest n :
  split "/" cidr = network :: p :: rest ->
  parseInt p None = Some n ->
  n mod 32 = 0 ->
  isIpInCidr ip cidr = true.
Proof.
  intros Hsplit Hp Hn. unfold isIpInCidr. rewrite Hsplit.
  change ((p :: rest) !! 0%nat) with (Some p). cbv beta iota zeta. rewrite Hp.
  unfold unsignedShiftRight. rewrite shift_count, Hn, Z.shiftr_0_r.
  change (bitNot (Some (toUint32 (Some 4294967295)))) with 0.
  unfold bitAnd. change (toInt32 (Some 0)) with 0. rewrite !Z.land_0_r. reflexivity.
Qed.

Lemma split_append (sep : ascii) (a b : string) :
  includes a sep = false -> includes b sep = false ->
  split sep (a +:+ String sep b) = [a; b].
Proof.
  intros Ha Hb. induction a as [|x a IH]; simpl in *.
  - rewrite Ascii.eqb_refl. f_equal.
    clear Ha. induction b as [|y b IHb]; simpl in *; [reflexivity|].
    apply orb_false_iff in Hb as [Hy Hb]. rewrite Hy, (IHb Hb). reflexivity.
  - apply orb_false_iff in Ha as [Hx Ha]. rewrite Hx, (IH Ha). reflexivity.
Qed.

Lemma includes_append (sep : ascii) (a b : string) :
  includes (a +:+ String sep b) sep = true.
Proof.
  induction a as [|x a IH]; simpl.
  - rewrite Ascii.eqb_refl. reflexivity.
  - rewrite IH. apply orb_true_r.
Qed.

Lemma isIpAllowed_cidr ip entry allowedIps :
  entry ∈ allowedIps -> includes entry "/" = true -> isIpInCidr ip entry = true ->
  isIpAllowed ip allowedIps = true.
Proof.
  intros Hin Hslash Hcidr. induction allowedIps as [|e rest IH]; [inversion Hin|].
  simpl. apply elem_of_cons in Hin as [<- | Hin].
  - rewrite Hslash, Hcidr. reflexivity.
  - rewrite (IH Hin). destruct (includes e "/"); [destruct (isIpInCidr ip e)|
      destruct (String.eqb ip e)]; reflexivity.
Qed.

(** X15: An entry with the prefix length 32 admits every address, where the
    same address written without a prefix length admits only itself: the
    shift of the mask takes the prefix length modulo 32, so the mask of
    [/32] is the one of [/0]. *)
Theorem slash_32_admits_every_address (ip network : string) (allowedIps : list string) :
  includes network "/" = false ->
  ((network +:+ "/32") ∈ allowedIps -> isIpAllowed ip allowedIps = true)
  /\ (isIpAllowed ip [network] = true <-> ip = network).
Proof.
  intros Hnet. split.
  - intros Hin. apply (isIpAllowed_cidr ip (network +:+ "/32")); [exact Hin | |].
    + apply (includes_append "/" network "32").
    + apply (cidr_prefix_multiple_of_32 ip _ network "32" [] 32).
      * apply (split_append "/" network "32"); [exact Hnet | reflexivity].
      * vm_compute. reflexivity.
      * reflexivity.
  - simpl. rewrite Hnet. destruct (String.eqb_spec ip network) as [E|E].
    + split; auto.
    + split; [discriminate | contradiction].
Qed.

Lemma slash_32_admits_every_address_witness :
  isIpAllowed "203.0.113.9" ["10.0.0.1/32"] = true
  /\ (isIpAllowed "203.0.113.9" ["10.0.0.1"] = true <-> "203.0.113.9" = "10.0.0.1").
Proof.
  destruct (slash_32_admits_every_address "203.0.113.9" "10.0.0.1" ["10.0.0.1/32"]
              eq_refl) as [Hall Hone].
  split; [|exact Hone]. apply Hall. left.
Defined.

End IpFacts.

(** ** More on aliases and contact numbers *)

Module NamingFacts.
Import Alias AliasFacts Rotation.

Local Open Scope string_scope.
Local Open Scope Z_scope.

Lemma stripTrailing_last s :
  sparseHyphens s = true -> last (stripTrailingHyphen s) ≠ Some hyphen.
Proof.
  induction s as [|c rest IH]; intros Hs; [discriminate|].
  destruct rest as [|c2 rest].
  - simpl. destruct (N.eqb_spec c hyphen) as [E|E]; simpl; congruence.
  - change (stripTrailingHyphen (c :: c2 :: rest))
      with (c :: stripTrailingHyphen (c2 :: rest)).
    pose proof (sparse_tail _ _ Hs) as Ht. specialize (IH Ht).
    destruct (stripTrailingHyphen (c2 :: rest)) as [|y r] eqn:E.
    + simpl. intros [= ->].
      destruct rest as [|c3 rest].
      * simpl in E. destruct (N.eqb_spec c2 hyphen) as [E2|E2]; [|discriminate].
        subst c2. vm_compute in Hs. discriminate.
      * simpl in E. discriminate.
    + rewrite last_cons. destruct (last (y :: r)) eqn:El; [exact IH|].
      apply last_None in El. discriminate.
Qed.

Lemma stripTrailing_id s : last s ≠ Some hyphen -> stripTrailingHyphen s = s.
Proof.
  induction s as [|c rest IH]; intros Hl; [reflexivity|].
  destruct rest as [|c2 rest].
  - simpl in *. destruct (N.eqb_spec c hyphen) as [E|E]; congruence.
  - change (stripTrailingHyphen (c :: c2 :: rest))
      with (c :: stripTrailingHyphen (c2 :: rest)).
    rewrite IH; [reflexivity|]. rewrite last_cons in Hl.
    destruct (last (c2 :: rest)) eqn:El; [exact Hl|].
    apply last_None in El. discriminate.
Qed.

Lemma stripEdge_head s :
  sparseHyphens s = true -> head (stripEdgeHyphens s) ≠ Some hyphen.
Proof.
  intros Hs. unfold stripEdgeHyphens. destruct s as [|c rest]; [discriminate|].
  destruct (N.eqb_spec c hyphen) as [E|E].
  - subst c. destruct (stripTrailingHyphen rest) as [|y r] eqn:Er; [discriminate|].
    apply stripTrailing_head in Er as [r' ->]. simpl. intros [= ->].
    change (sparseHyphens (hyphen :: hyphen :: r'))
      with (false && sparseHyphens (hyphen :: r')) in Hs.
    discriminate.
  - destruct (stripTrailingHyphen (c :: rest)) as [|y r] eqn:Er; [discriminate|].
    apply stripTrailing_head in Er as [r' Er]. injection Er as <- _.
    simpl. congruence.
Qed.

Lemma stripEdge_last s :
  sparseHyphens s = true -> last (stripEdgeHyphens s) ≠ Some hyphen.
Proof.
  intros Hs. unfold stripEdgeHyphens. destruct s as [|c rest]; [discriminate|].
  destruct (c =? hyphen)%N.
  - apply stripTrailing_last. exact (sparse_tail _ _ Hs).
  - apply stripTrailing_last, Hs.
Qed.

Lemma stripEdge_id s :
  head s ≠ Some hyphen -> last s ≠ Some hyphen -> stripEdgeHyphens s = s.
Proof.
  intros Hh Hl. unfold stripEdgeHyphens. destruct s as [|c rest]; [reflexivity|].
  destruct (N.eqb_spec c hyphen) as [E|E]; [simpl in Hh; congruence|].
  apply stripTrailing_id, Hl.
Qed.

(** X16: The aliases that [transformToAlias] produces are exactly the strings of
    lower-case letters, digits and hyphens in which no two hyphens are
    adjacent and that neither start nor end with a hyphen; each of them is
    its own alias.  For every [toLowerCase] that, like the builtin, leaves
    such strings as they are. *)
Theorem alias_image (toLowerCase : jsstring -> jsstring) (a : jsstring) :
  (forall s, forallb isAliasChar s = true -> toLowerCase s = s) ->
  (exists x, transformToAlias toLowerCase x = a)
  <-> (forallb isAliasChar a = true /\ sparseHyphens a = true
       /\ head a ≠ Some hyphen /\ last a ≠ Some hyphen).
Proof.
  intros Hlower. split.
  - intros [x <-]. split; [apply transformToAlias_chars|].
    split; [apply transformToAlias_sparse|].
    unfold transformToAlias. split.
    + apply stripEdge_head. apply collapseHyphens_sparse.
    + apply stripEdge_last. apply collapseHyphens_sparse.
  - intros (Hchars & Hsparse & Hhead & Hlast). exists a.
    unfold transformToAlias.
    rewrite (Hlower a Hchars), (replaceSpaceRuns_alias false a Hchars),
      (removeInvalid_alias a Hchars), (collapseHyphens_id a Hsparse).
    apply stripEdge_id; assumption.
Qed.

Lemma alias_image_witness :
  (exists x, transformToAlias asciiToLowerCase x = ofString "sales-team-1")
  <-> (forallb isAliasChar (ofString "sales-team-1") = true
       /\ sparseHyphens (ofString "sales-team-1") = true
       /\ head (ofString "sales-team-1") ≠ Some hyphen
       /\ last (ofString "sales-team-1") ≠ Some hyphen).
Proof.
  apply (alias_image asciiToLowerCase (ofString "sales-team-1")).
  exact asciiToLowerCase_alias.
Defined.

Lemma normalize_digits c : normalizeContactNumber (normalizeContactNumber c) = normalizeContactNumber c.
Proof.
  induction c as [|a rest IH]; simpl; [reflexivity|].
  destruct (isDigit a) eqn:E; simpl; [rewrite E, IH; reflexivity | exact IH].
Qed.

(** X17: The ungrouped selection sees a contact number through its digits only:
    two numbers with the same digits get the same pick and leave the same
    state, so a number and its normal form do; normalising is idempotent. *)
Theorem ungrouped_selection_by_digits
    (c1 c2 : string) (insts : list string) (now : Z) (s : State) :
  normalizeContactNumber c1 = normalizeContactNumber c2 ->
  selectInstanceForContact c1 insts now s = selectInstanceForContact c2 insts now s
  /\ selectInstanceForContact (normalizeContactNumber c1) insts now s
     = selectInstanceForContact c1 insts now s
  /\ normalizeContactNumber (normalizeContactNumber c1) = normalizeContactNumber c1.
Proof.
  intros H. unfold selectInstanceForContact.
  rewrite normalize_digits, H. auto.
Qed.

Lemma ungrouped_selection_by_digits_witness :
  selectInstanceForContact "+55 (11) 9" ["a"; "b"] 1 midCycle
  = selectInstanceForContact "55119" ["a"; "b"] 1 midCycle
  /\ selectInstanceForContact (normalizeContactNumber "+55 (11) 9") ["a"; "b"] 1 midCycle
     = selectInstanceForContact "+55 (11) 9" ["a"; "b"] 1 midCycle
  /\ normalizeContactNumber (normalizeContactNumber "+55 (11) 9")
     = normalizeContactNumber "+55 (11) 9".
Proof.
  apply (ungrouped_selection_by_digits "+55 (11) 9" "55119" ["a"; "b"] 1 midCycle).
  vm_compute. reflexivity.
Defined.

End NamingFacts.

(** ** More on the subscriber service *)

Module WebhookMoreFacts.
Import Webhook WebhookFacts WebhookStats.

Local Open Scope string_scope.
Local Open Scope Z_scope.

(** *** The circuit breaker *)

(** X18: In every state of the breakers reached from the empty map by gate
    checks, successes and failures in any order, with a clock that does not
    go back, a record is closed exactly when it counts fewer than five
    failures, and a half-open record has its last failure more than
    60000 ms back. *)
Theorem breaker_state_matches_failures
    (steps : list BreakerStep) (t0 : Z) (i : string) (r : CircuitBreakerState) :
  clockFrom t0 steps ->
  runSteps steps ∅ !! i = Some r ->
  (state r = CLOSED <-> failures r < CIRCUIT_BREAKER_THRESHOLD)
  /\ (state r = HALF_OPEN ->
      CIRCUIT_BREAKER_TIMEOUT < clockAfter t0 steps - lastFailureTime r).
Proof.
  intros Hclock Hr.
  destruct (invariant_steps steps t0 ∅ Hclock (invariant_empty t0) i r Hr)
    as (Hopen & Hclosed & Hhalf).
  split; [|exact Hhalf]. split.
  - intros Hc. destruct (Z.lt_ge_cases (failures r) CIRCUIT_BREAKER_THRESHOLD) as [H|H];
      [exact H|]. exfalso. exact (Hclosed H Hc).
  - intros Hlt. destruct (state r) eqn:E; [reflexivity | |];
      (assert (Hge : CIRCUIT_BREAKER_THRESHOLD <= failures r)
        by (apply Hopen; discriminate)); lia.
Qed.

Lemma breaker_state_matches_failures_witness :
  (OPEN = CLOSED <-> 5 < CIRCUIT_BREAKER_THRESHOLD)
  /\ (OPEN = HALF_OPEN -> CIRCUIT_BREAKER_TIMEOUT < clockAfter 0 fiveFailures - 5).
Proof.
  apply (breaker_state_matches_failures fiveFailures 0 "w1" (mkBreaker 5 5 OPEN)).
  - simpl. lia.
  - vm_compute. reflexivity.
Defined.

Lemma failure_record i now cbs :
  recordWebhookFailure i now cbs !! i
  = Some (mkBreaker (failures (default (mkBreaker 0 0 CLOSED) (cbs !! i)) + 1) now
            (if CIRCUIT_BREAKER_THRESHOLD
                <=? failures (default (mkBreaker 0 0 CLOSED) (cbs !! i)) + 1
             then OPEN
             else state (default (mkBreaker 0 0 CLOSED) (cbs !! i)))).
Proof. unfold recordWebhookFailure. rewrite lookup_insert_eq. reflexivity. Qed.

Lemma last_default {A} (l : list A) (d1 d2 : A) :
  l ≠ [] -> List.last l d1 = List.last l d2.
Proof.
  induction l as [|x l IH]; [contradiction|]. intros _.
  destruct l as [|y l]; [reflexivity|].
  change (List.last (y :: l) d1 = List.last (y :: l) d2). apply IH. discriminate.
Qed.

Lemma last_cons_default {A} (x : A) (l : list A) (d : A) :
  List.last (x :: l) d = List.last l x.
Proof.
  destruct l as [|y l]; [reflexivity|].
  change (List.last (y :: l) d = List.last (y :: l) x). apply last_default. discriminate.
Qed.

Lemma failures_in_a_row i times :
  forall cbs f t0,
    cbs !! i
    = Some (mkBreaker f t0 (if CIRCUIT_BREAKER_THRESHOLD <=? f then OPEN else CLOSED)) ->
    runSteps (map (Failure i) times) cbs !! i
    = Some (mkBreaker (f + Z.of_nat (List.length times)) (List.last times t0)
              (if CIRCUIT_BREAKER_THRESHOLD <=? f + Z.of_nat (List.length times)
               then OPEN else CLOSED)).
Proof.
  induction times as [|t times IH]; intros cbs f t0 Hr.
  - simpl. rewrite Z.add_0_r. exact Hr.
  - change (runSteps (map (Failure i) (t :: times)) cbs)
      with (runSteps (map (Failure i) times) (recordWebhookFailure i t cbs)).
    rewrite (IH (recordWebhookFailure i t cbs) (f + 1) t).
    + rewrite last_cons_default.
      replace (f + 1 + Z.of_nat (List.length times))
        with (f + Z.of_nat (List.length (t :: times))) by (simpl List.length; lia).
      reflexivity.
    + rewrite failure_record, Hr. simpl. f_equal. f_equal.
      unfold CIRCUIT_BREAKER_THRESHOLD.
      destruct (Z.leb_spec 5 (f + 1)); [reflexivity|].
      destruct (Z.leb_spec 5 f); [lia | reflexivity].
Qed.

(** X19: The circuit opens at the fifth failure in a row.  After a success (or
    with no record yet) and then one or more failures, the record counts
    these failures and carries the time of the last one; it is closed while
    they are fewer than five and open from the fifth on; and the gate then
    admits a dispatch exactly when the failures are fewer than five or the
    last one is more than 60000 ms back. *)
Theorem circuit_opens_at_fifth_failure
    (i : string) (t : Z) (times : list Z) (now : Z)
    (cbs : gmap string CircuitBreakerState) :
  runSteps (Success i :: map (Failure i) (t :: times)) cbs !! i
  = Some (mkBreaker (Z.of_nat (S (List.length times))) (List.last times t)
            (if 5 <=? Z.of_nat (S (List.length times)) then OPEN else CLOSED))
  /\ fst (canExecuteWebhook i now
            (runSteps (Success i :: map (Failure i) (t :: times)) cbs))
     = (Z.of_nat (S (List.length times)) <? 5) || (60000 <? now - List.last times t).
Proof.
  assert (Hrec : runSteps (Success i :: map (Failure i) (t :: times)) cbs !! i
                 = Some (mkBreaker (Z.of_nat (S (List.length times))) (List.last times t)
                           (if 5 <=? Z.of_nat (S (List.length times))
                            then OPEN else CLOSED))).
  { change (runSteps (Success i :: map (Failure i) (t :: times)) cbs)
      with (runSteps (map (Failure i) times)
              (recordWebhookFailure i t (recordWebhookSuccess i cbs))).
    assert (Hfirst : recordWebhookFailure i t (recordWebhookSuccess i cbs) !! i
                     = Some (mkBreaker 1 t CLOSED)).
    { rewrite failure_record. unfold recordWebhookSuccess.
      destruct (cbs !! i) eqn:E; [rewrite lookup_insert_eq | rewrite E]; reflexivity. }
    rewrite (failures_in_a_row i times _ 1 t Hfirst).
    replace (1 + Z.of_nat (List.length times)) with (Z.of_nat (S (List.length times)))
      by lia.
    reflexivity. }
  split; [exact Hrec|].
  unfold canExecuteWebhook. rewrite Hrec. simpl state. simpl lastFailureTime.
  unfold CIRCUIT_BREAKER_TIMEOUT.
  destruct (Z.leb_spec 5 (Z.of_nat (S (List.length times)))) as [Hge|Hlt].
  - destruct (Z.ltb_spec (Z.of_nat (S (List.length times))) 5); [lia|].
    destruct (60000 <? now - List.last times t); reflexivity.
  - destruct (Z.ltb_spec (Z.of_nat (S (List.length times))) 5); [reflexivity | lia].
Qed.

Lemma applyStep_other cbs st i : stepId st ≠ i -> applyStep cbs st !! i = cbs !! i.
Proof.
  intros Hne. destruct st as [j now|j|j now]; simpl in *.
  - unfold canExecuteWebhook. destruct (cbs !! j) as [r|] eqn:E; simpl.
    + destruct (state r); simpl; [reflexivity| |reflexivity].
      destruct (_ <? _); simpl; [apply lookup_insert_ne; exact Hne | reflexivity].
    + apply lookup_insert_ne. exact Hne.
  - unfold recordWebhookSuccess. destruct (cbs !! j); [|reflexivity].
    apply lookup_insert_ne. exact Hne.
  - unfold recordWebhookFailure. apply lookup_insert_ne. exact Hne.
Qed.

Lemma applyStep_same cbs1 cbs2 st i :
  stepId st = i -> cbs1 !! i = cbs2 !! i -> applyStep cbs1 st !! i = applyStep cbs2 st !! i.
Proof.
  intros <- H. destruct st as [j now|j|j now]; simpl in *.
  - unfold canExecuteWebhook. rewrite <- H. destruct (cbs1 !! j) as [r|] eqn:E; simpl.
    + destruct (state r); simpl; [congruence| |congruence].
      destruct (_ <? _); simpl; [rewrite !lookup_insert_eq; reflexivity | congruence].
    + rewrite !lookup_insert_eq. reflexivity.
  - unfold recordWebhookSuccess. rewrite <- H. destruct (cbs1 !! j) eqn:E.
    + rewrite !lookup_insert_eq. reflexivity.
    + congruence.
  - rewrite !failure_record, H. reflexivity.
Qed.

(** X20: The breakers of different subscribers do not interact: the record of a
    subscriber after any interleaving of steps is the one that its own
    steps alone produce. *)
Theorem breakers_are_independent
    (i : string) (steps : list BreakerStep) (cbs : gmap string CircuitBreakerState) :
  runSteps steps cbs !! i
  = runSteps (List.filter (fun st => String.eqb (stepId st) i) steps) cbs !! i.
Proof.
  assert (H : forall cbs1 cbs2,
             cbs1 !! i = cbs2 !! i ->
             runSteps steps cbs1 !! i
             = runSteps (List.filter (fun st => String.eqb (stepId st) i) steps) cbs2 !! i).
  { unfold runSteps. induction steps as [|st steps IH]; intros cbs1 cbs2 Hsame;
      [exact Hsame|].
    simpl. destruct (String.eqb_spec (stepId st) i) as [E|E]; simpl.
    - apply IH. apply applyStep_same; assumption.
    - apply IH. rewrite applyStep_other by exact E. exact Hsame. }
  apply H. reflexivity.
Qed.

(** *** The retry loop *)

Lemma retryLoop_outcome respond max nr :
  forall fuel attempts posted,
    attempts = Z.of_nat posted -> attempts < max ->
    max - attempts <= Z.of_nat fuel ->
    exists d,
      retryLoop respond max nr attempts posted fuel = Some d
      /\ (posted < posts d)%nat
      /\ Z.of_nat (posts d) <= max
      /\ (forall k, (posted <= k < Nat.pred (posts d))%nat ->
                    stopsLoop nr (respond k) = false)
      /\ match respond (Nat.pred (posts d)) with
         | Resolved => thrown d = None /\ statsUpdate d = Some (true, None)
         | Rejected status message =>
             thrown d = Some message
             /\ statsUpdate d = Some (false, Some message)
             /\ (isNonRetryable nr status = true \/ Z.of_nat (posts d) = max)
         end.
Proof.
  induction fuel as [|fuel IH]; intros attempts posted Heq Hlt Hfuel; [simpl in Hfuel; lia|].
  simpl. destruct (Z.ltb_spec attempts max) as [_|Hge]; [|lia].
  destruct (respond posted) as [|status message] eqn:Hresp.
  - eexists. split; [reflexivity|]. simpl. rewrite Hresp.
    split; [lia|]. split; [lia|]. split; [intros k Hk; lia | auto].
  - destruct (isNonRetryable nr status) eqn:Hnr.
    + eexists. split; [reflexivity|]. simpl. rewrite Hresp.
      split; [lia|]. split; [lia|]. split; [intros k Hk; lia | auto].
    + destruct (Z.eqb_spec (attempts + 1) max) as [Hlast|Hmore].
      * eexists. split; [reflexivity|]. simpl. rewrite Hresp.
        split; [lia|]. split; [lia|]. split; [intros k Hk; lia|].
        split; [reflexivity|]. split; [reflexivity|]. right. lia.
      * destruct (IH (attempts + 1) (S posted) ltac:(lia) ltac:(lia) ltac:(lia))
          as (d & Hd & Hposted & Hmax & Hbefore & Hlast).
        exists d. split; [exact Hd|]. split; [lia|]. split; [exact Hmax|].
        split; [|exact Hlast].
        intros k Hk. destruct (Nat.eq_dec k posted) as [->|Hne].
        -- rewrite Hresp. exact Hnr.
        -- apply Hbefore. lia.
Qed.

(** X21: A delivery stops at the first POST that resolves or whose status is not
    retryable, and otherwise at the last attempt allowed.  It throws exactly
    when its last POST was rejected, with the error of that POST, and it
    reports to the statistics once, with that outcome.  With a number of
    attempts below one it issues no POST, throws nothing and reports
    nothing. *)
Theorem delivery_outcome (respond : nat -> HttpOutcome) (cfg : option RetryConfig) :
  (1 <= maxRetryAttempts cfg ->
   exists d,
     retryWebhookRequest respond cfg = Some d
     /\ (1 <= posts d)%nat
     /\ Z.of_nat (posts d) <= maxRetryAttempts cfg
     /\ (forall k, (k < Nat.pred (posts d))%nat ->
                   stopsLoop (effectiveNonRetryable cfg) (respond k) = false)
     /\ match respond (Nat.pred (posts d)) with
        | Resolved => thrown d = None /\ statsUpdate d = Some (true, None)
        | Rejected status message =>
            thrown d = Some message
            /\ statsUpdate d = Some (false, Some message)
            /\ (isNonRetryable (effectiveNonRetryable cfg) status = true
                \/ Z.of_nat (posts d) = maxRetryAttempts cfg)
        end)
  /\ (maxRetryAttempts cfg < 1 ->
      retryWebhookRequest respond cfg = Some (mkDelivery 0 None None)).
Proof.
  unfold retryWebhookRequest. split.
  - intros Hmax.
    destruct (retryLoop_outcome respond (maxRetryAttempts cfg) (effectiveNonRetryable cfg)
                (Z.to_nat (maxRetryAttempts cfg)) 0 0%nat eq_refl ltac:(lia) ltac:(lia))
      as (d & Hd & Hposted & Hle & Hbefore & Hlast).
    exists d. split; [exact Hd|]. split; [lia|]. split; [exact Hle|].
    split; [|exact Hlast]. intros k Hk. apply Hbefore. lia.
  - intros Hmax. destruct (Z.to_nat (maxRetryAttempts cfg)); simpl;
      destruct (Z.ltb_spec 0 (maxRetryAttempts cfg)); try lia; reflexivity.
Qed.

Lemma delivery_outcome_witness :
  exists d,
    retryWebhookRequest
      (fun k => if (k <? 2)%nat then Rejected (Some 500) "500" else Resolved)
      (Some (mkRetryConfig (Some 3) None)) = Some d
    /\ (1 <= posts d)%nat
    /\ Z.of_nat (posts d) <= 3
    /\ (forall k, (k < Nat.pred (posts d))%nat ->
                  stopsLoop [400; 401; 403; 404; 422]
                    (if (k <? 2)%nat then Rejected (Some 500) "500" else Resolved)
                  = false)
    /\ match (if (Nat.pred (posts d) <? 2)%nat
              then Rejected (Some 500) "500" else Resolved) with
       | Resolved => thrown d = None /\ statsUpdate d = Some (true, None)
       | Rejected status message =>
           thrown d = Some message
           /\ statsUpdate d = Some (false, Some message)
           /\ (isNonRetryable [400; 401; 403; 404; 422] status = true
               \/ Z.of_nat (posts d) = 3)
       end.
Proof.
  apply (proj1 (delivery_outcome
                  (fun k => if (k <? 2)%nat then Rejected (Some 500) "500" else Resolved)
                  (Some (mkRetryConfig (Some 3) None)))).
  vm_compute. discriminate.
Defined.

(** *** The statistics of a subscriber *)

Lemma updateWebhookStats_other i j success msg now table :
  j ≠ i -> updateWebhookStats i success msg now table !! j = table !! j.
Proof.
  intros Hne. unfold updateWebhookStats.
  destruct (table !! i) as [row|]; [|reflexivity].
  destruct success; destruct (_ || _); try reflexivity;
    apply lookup_insert_ne; congruence.
Qed.

Lemma updateWebhookStats_consistent i success msg now table :
  statsConsistent table -> statsConsistent (updateWebhookStats i success msg now table).
Proof.
  intros Hc j row' Hj. destruct (decide (j = i)) as [->|Hne].
  2:{ rewrite updateWebhookStats_other in Hj by exact Hne. exact (Hc j row' Hj). }
  unfold updateWebhookStats in Hj.
  destruct (table !! i) as [row|] eqn:Hrow; [|congruence].
  destruct (Hc i row Hrow) as (Hsum & Hs & Hf).
  destruct success; destruct (_ || _); try (rewrite Hrow in Hj; injection Hj as <-; auto);
    rewrite lookup_insert_eq in Hj; injection Hj as <-; simpl; lia.
Qed.

(** X22: The counters of the statistics add up after any sequence of updates:
    in every row the executions are the successful ones plus the failed
    ones, and none is negative, if that was so before. *)
Theorem stats_add_up
    (calls : list (string * bool * option string * Z))
    (table : gmap string ExecutionStats) :
  statsConsistent table ->
  statsConsistent
    (fold_left
       (fun t call =>
          let '(webhookId, success, errorMessage, now) := call in
          updateWebhookStats webhookId success errorMessage now t)
       calls table).
Proof.
  revert table. induction calls as [|[[[i success] msg] now] calls IH]; intros table H;
    [exact H|].
  simpl. apply IH, updateWebhookStats_consistent, H.
Qed.

Lemma stats_add_up_witness :
  exists row,
    fold_left
      (fun t call =>
         let '(webhookId, success, errorMessage, now) := call in
         updateWebhookStats webhookId success errorMessage now t)
      [("w1", true, None, 11); ("w1", false, Some "500", 12); ("w2", true, None, 13)]
      {["w1" := usedRow]} !! "w1" = Some row
    /\ totalExecutions row = successfulExecutions row + failedExecutions row
    /\ 0 <= successfulExecutions row /\ 0 <= failedExecutions row.
Proof.
  eexists. split; [vm_compute; reflexivity|].
  apply (stats_add_up
           [("w1", true, None, 11); ("w1", false, Some "500", 12); ("w2", true, None, 13)]
           {["w1" := usedRow]}
           ltac:(intros i row H; apply lookup_singleton_Some in H as [_ <-];
                 vm_compute; repeat split; discriminate)
           "w1").
  vm_compute. reflexivity.
Defined.

Lemma retry_reports respond cfg :
  1 <= maxRetryAttempts cfg ->
  exists d,
    retryWebhookRequest respond cfg = Some d
    /\ ((thrown d = None /\ statsUpdate d = Some (true, None))
        \/ (exists m, thrown d = Some m /\ statsUpdate d = Some (false, Some m))).
Proof.
  intros Hmax. unfold retryWebhookRequest.
  destruct (retryLoop_outcome respond (maxRetryAttempts cfg) (effectiveNonRetryable cfg)
              (Z.to_nat (maxRetryAttempts cfg)) 0 0%nat eq_refl ltac:(lia) ltac:(lia))
    as (d & Hd & _ & _ & _ & Hlast).
  exists d. split; [exact Hd|].
  destruct (respond (Nat.pred (posts d))) as [|status message].
  - left. exact Hlast.
  - right. exists message. destruct Hlast as (A & B & _). auto.
Qed.

(** X23: A delivery counts once in the statistics, however many POSTs it took:
    with at least one attempt allowed, a row for the subscriber and room in
    its counters, the delivery adds one to the executions and one to the
    successful or to the failed ones, according to whether it threw; the
    status and the error of the row are those of the delivery; and the rows
    of other subscribers are untouched. *)
Theorem delivery_counts_once
    (respond : nat -> HttpOutcome) (cfg : option RetryConfig)
    (i : string) (now : Z) (table : gmap string ExecutionStats) (row : ExecutionStats) :
  1 <= maxRetryAttempts cfg ->
  table !! i = Some row ->
  totalExecutions row < INTEGER_MAX ->
  successfulExecutions row < INTEGER_MAX ->
  failedExecutions row < INTEGER_MAX ->
  exists d row',
    retryWebhookRequest respond cfg = Some d
    /\ recordDelivery i d now table !! i = Some row'
    /\ totalExecutions row' = totalExecutions row + 1
    /\ lastExecutionAt row' = Some now
    /\ match thrown d with
       | None =>
           successfulExecutions row' = successfulExecutions row + 1
           /\ failedExecutions row' = failedExecutions row
           /\ lastExecutionStatus row' = Some "success"
           /\ lastExecutionError row' = None
       | Some message =>
           successfulExecutions row' = successfulExecutions row
           /\ failedExecutions row' = failedExecutions row + 1
           /\ lastExecutionStatus row' = Some "failed"
           /\ lastExecutionError row' = Some message
       end
    /\ (forall j, j ≠ i -> recordDelivery i d now table !! j = table !! j).
Proof.
  intros Hmax Hrow Ht Hs Hf.
  destruct (retry_reports respond cfg Hmax) as (d & Hd & Hstats).
  unfold INTEGER_MAX in *.
  exists d. unfold recordDelivery.
  destruct Hstats as [[Hth Hst] | (m & Hth & Hst)]; rewrite Hst, Hth;
    unfold updateWebhookStats; rewrite Hrow; unfold INTEGER_MAX.
  - destruct (Z.ltb_spec 2147483647 (totalExecutions row + 1)); [lia|].
    destruct (Z.ltb_spec 2147483647 (successfulExecutions row + 1)); [lia|].
    simpl. eexists. split; [exact Hd|]. rewrite lookup_insert_eq.
    split; [reflexivity|]. simpl. split; [reflexivity|]. split; [reflexivity|].
    split; [auto|].
    intros j Hj. apply lookup_insert_ne. congruence.
  - destruct (Z.ltb_spec 2147483647 (totalExecutions row + 1)); [lia|].
    destruct (Z.ltb_spec 2147483647 (failedExecutions row + 1)); [lia|].
    simpl. eexists. split; [exact Hd|]. rewrite lookup_insert_eq.
    split; [reflexivity|]. simpl. split; [reflexivity|]. split; [reflexivity|].
    split; [auto|].
    intros j Hj. apply lookup_insert_ne. congruence.
Qed.

Lemma delivery_counts_once_witness :
  exists d row',
    retryWebhookRequest
      (fun k => if (k <? 2)%nat then Rejected (Some 500) "500" else Resolved)
      (Some (mkRetryConfig (Some 3) None)) = Some d
    /\ recordDelivery "w1" d 20 {["w1" := usedRow]} !! "w1" = Some row'
    /\ totalExecutions row' = totalExecutions usedRow + 1
    /\ lastExecutionAt row' = Some 20
    /\ match thrown d with
       | None =>
           successfulExecutions row' = successfulExecutions usedRow + 1
           /\ failedExecutions row' = failedExecutions usedRow
           /\ lastExecutionStatus row' = Some "success"
           /\ lastExecutionError row' = None
       | Some message =>
           successfulExecutions row' = successfulExecutions usedRow
           /\ failedExecutions row' = failedExecutions usedRow + 1
           /\ lastExecutionStatus row' = Some "failed"
           /\ lastExecutionError row' = Some message
       end
    /\ (forall j, j ≠ "w1" ->
                  recordDelivery "w1" d 20 {["w1" := usedRow]} !! j
                  = ({["w1" := usedRow]} : gmap string ExecutionStats) !! j).
Proof.
  apply (delivery_counts_once
           (fun k => if (k <? 2)%nat then Rejected (Some 500) "500" else Resolved)
           (Some (mkRetryConfig (Some 3) None)) "w1" 20 {["w1" := usedRow]} usedRow).
  - vm_compute. discriminate.
  - vm_compute. reflexivity.
  - vm_compute. reflexivity.
  - vm_compute. reflexivity.
  - vm_compute. reflexivity.
Defined.

(** *** Signatures *)

(** X24: The validation of a signature accepts the signature that
    [generateWebhookSignature] gives for the same payload, secret and
    algorithm, and nothing else; it answers [false] only for a signature of
    the expected length, and raises for one of another length. *)
Theorem signature_validation
    (hmacHex : string -> string -> string -> string)
    (payload signature secret algorithm : string) :
  validateWebhookSignature hmacHex payload
    (generateWebhookSignature hmacHex payload secret algorithm) secret algorithm
  = Some true
  /\ (validateWebhookSignature hmacHex payload signature secret algorithm = Some true
      <-> signature = generateWebhookSignature hmacHex payload secret algorithm)
  /\ (String.length signature
      ≠ String.length (generateWebhookSignature hmacHex payload secret algorithm) ->
      validateWebhookSignature hmacHex payload signature secret algorithm = None)
  /\ (validateWebhookSignature hmacHex payload signature secret algorithm = Some false ->
      String.length signature
      = String.length (generateWebhookSignature hmacHex payload secret algorithm)
      /\ signature ≠ generateWebhookSignature hmacHex payload secret algorithm).
Proof.
  unfold validateWebhookSignature, timingSafeEqual.
  set (expected := generateWebhookSignature hmacHex payload secret algorithm).
  split; [rewrite Z.eqb_refl, String.eqb_refl; reflexivity|].
  split; [|split].
  - destruct (Z.eqb_spec (Z.of_nat (String.length signature))
                (Z.of_nat (String.length expected))) as [E|E].
    + destruct (String.eqb_spec signature expected) as [E'|E'].
      * split; auto.
      * split; [discriminate | contradiction].
    + split; [discriminate|]. intros ->. contradiction.
  - intros Hlen.
    destruct (Z.eqb_spec (Z.of_nat (String.length signature))
                (Z.of_nat (String.length expected))) as [E|E]; [lia | reflexivity].
  - destruct (Z.eqb_spec (Z.of_nat (String.length signature))
                (Z.of_nat (String.length expected))) as [E|E]; [|discriminate].
    destruct (String.eqb_spec signature expected) as [E'|E']; [discriminate|].
    intros _. split; [lia | exact E'].
Qed.

Lemma signature_validation_witness :
  validateWebhookSignature (fun _ _ _ => "2f1a") "{}" "sha256=2f1" "0123456789abcdef"
    "sha256" = None.
Proof.
  apply (proj1 (proj2 (proj2 (signature_validation (fun _ _ _ => "2f1a") "{}"
                                "sha256=2f1" "0123456789abcdef" "sha256")))).
  vm_compute. discriminate.
Defined.

(** *** The request of a dispatch *)

Lemma assign_same key value headers :
  key ≠ "__proto__" -> assign key value headers !! key = Some value.
Proof.
  intros Hk. unfold assign.
  destruct (String.eqb_spec key "__proto__"); [contradiction|].
  simpl. apply lookup_insert_eq.
Qed.

Lemma assign_other key value headers k :
  k ≠ key -> assign key value headers !! k = headers !! k.
Proof.
  intros Hk. unfold assign. destruct (_ && _); [reflexivity|].
  apply lookup_insert_ne. congruence.
Qed.

Lemma configureAuthentication_keeps base64 jwtSign now hs auth k v :
  hs !! k = Some v ->
  k ≠ "Authorization" ->
  (forall a, auth = Some a -> headerName a ≠ Some k) ->
  configureAuthentication base64 jwtSign now hs auth !! k = Some v.
Proof.
  intros Hk Hauth Hname. unfold configureAuthentication.
  destruct auth as [a|]; [|exact Hk]. specialize (Hname a eq_refl).
  destruct (authType a); try exact Hk.
  - destruct (token a); [|exact Hk]. destruct (Js.truthy _); [|exact Hk].
    rewrite lookup_insert_ne by congruence. exact Hk.
  - destruct (username a), (password a); try exact Hk.
    destruct (_ && _); [|exact Hk]. rewrite lookup_insert_ne by congruence. exact Hk.
  - destruct (token a), (headerName a); try exact Hk.
    destruct (_ && _); [|exact Hk]. rewrite assign_other by congruence. exact Hk.
  - destruct (jwtSecret a); [|exact Hk]. destruct (Js.truthy _); [|exact Hk].
    rewrite lookup_insert_ne by congruence. exact Hk.
Qed.

(** X25: The headers of a request, by precedence: the header of the
    authentication, then the static headers of the subscriber, then
    [Content-Type: application/json].  So [Content-Type] is always there; a
    bearer token replaces a static [Authorization]; an API key is sent
    under its header name, replacing a static header of that name, for
    every name but [__proto__], under which nothing is sent unless a
    static header has that name; and a static header with another name
    than the one of the authentication is sent as configured,
    [Content-Type] included. *)
Theorem request_header_precedence
    (base64 : string -> string) (jwtSign : Z -> string -> string)
    (D : Type) (now : Z) (w : ExternalWebhook) (payload : Payload D) :
  is_Some (requestHeaders (buildRequest base64 jwtSign now w payload) !! "Content-Type")
  /\ (forall a t,
         authentication w = Some a -> authType a = AuthBearer ->
         token a = Some t -> t ≠ "" ->
         requestHeaders (buildRequest base64 jwtSign now w payload) !! "Authorization"
         = Some ("Bearer " +:+ t))
  /\ (forall a t h,
         authentication w = Some a -> authType a = AuthApiKey ->
         token a = Some t -> headerName a = Some h -> t ≠ "" -> h ≠ "" ->
         h ≠ "__proto__" ->
         requestHeaders (buildRequest base64 jwtSign now w payload) !! h = Some t)
  /\ (forall a t,
         authentication w = Some a -> authType a = AuthApiKey ->
         token a = Some t -> headerName a = Some "__proto__" ->
         default ∅ (headers w) !! "__proto__" = None ->
         requestHeaders (buildRequest base64 jwtSign now w payload) !! "__proto__" = None)
  /\ (forall hs k v,
         headers w = Some hs -> hs !! k = Some v ->
         k ≠ "Authorization" ->
         (forall a, authentication w = Some a -> headerName a ≠ Some k) ->
         requestHeaders (buildRequest base64 jwtSign now w payload) !! k = Some v).
Proof.
  unfold buildRequest. simpl requestHeaders.
  split; [|split; [|split; [|split]]].
  - rewrite lookup_union.
    destruct (configureAuthentication _ _ _ _ _ !! "Content-Type");
      rewrite lookup_singleton_eq; simpl; eauto.
  - intros a t Ha Hty Htok Hne. apply lookup_union_Some_l.
    unfold configureAuthentication. rewrite Ha, Hty, Htok.
    assert (Htruthy : Js.truthy (Some t) = true).
    { simpl. destruct (String.eqb_spec t ""); [contradiction | reflexivity]. }
    rewrite Htruthy. apply lookup_insert_eq.
  - intros a t h Ha Hty Htok Hname Hne Hhne Hproto. apply lookup_union_Some_l.
    unfold configureAuthentication. rewrite Ha, Hty, Htok, Hname.
    assert (Ht : Js.truthy (Some t) = true).
    { simpl. destruct (String.eqb_spec t ""); [contradiction | reflexivity]. }
    assert (Hh : Js.truthy (Some h) = true).
    { simpl. destruct (String.eqb_spec h ""); [contradiction | reflexivity]. }
    rewrite Ht, Hh. apply assign_same, Hproto.
  - intros a t Ha Hty Htok Hname Hstatic.
    rewrite lookup_union, lookup_singleton_ne by discriminate.
    unfold configureAuthentication. rewrite Ha, Hty, Htok, Hname.
    destruct (_ && _); [|rewrite Hstatic; reflexivity].
    unfold assign. rewrite Hstatic.
    rewrite (bool_decide_eq_false_2 (is_Some None)) by (intros [x Hx]; discriminate).
    simpl. rewrite Hstatic. reflexivity.
  - intros hs k v Hhs Hk Hauth Hname. apply lookup_union_Some_l.
    rewrite Hhs. simpl. apply configureAuthentication_keeps; assumption.
Qed.

Lemma request_header_precedence_witness :
  requestHeaders
    (buildRequest (fun s => s) (fun _ s => s) 1
       (mkWebhook "w1" "hook" "https://example.test/hook" true None
          (Some {["X-Api-Key" := "static"]})
          (Some (mkAuth AuthApiKey (Some "tok") None None (Some "X-Api-Key") None))
          None None None 30000)
       (mkPayload "MESSAGES_UPSERT" None tt 1 "w1" "hook")) !! "X-Api-Key"
  = Some "tok".
Proof.
  apply (proj1 (proj2 (proj2 (request_header_precedence (fun s => s) (fun _ s => s)
                                unit 1
                                (mkWebhook "w1" "hook" "https://example.test/hook" true
                                   None (Some {["X-Api-Key" := "static"]})
                                   (Some (mkAuth AuthApiKey (Some "tok") None None
                                            (Some "X-Api-Key") None))
                                   None None None 30000)
                                (mkPayload "MESSAGES_UPSERT" None tt 1 "w1" "hook"))))
           (mkAuth AuthApiKey (Some "tok") None None (Some "X-Api-Key") None)
           "tok" "X-Api-Key").
  - reflexivity.
  - reflexivity.
  - reflexivity.
  - reflexivity.
  - discriminate.
  - discriminate.
  - discriminate.
Defined.

Lemma passesFilters_true webhook eventType instanceName :
  passesFilters webhook eventType instanceName = true ->
  (forall evs, events webhook = Some evs -> evs ≠ [] -> eventType ∈ evs)
  /\ (forall fc inst l,
         filterConfig webhook = Some fc -> instanceName = Some inst -> inst ≠ "" ->
         filterInstances fc = Some l -> l ≠ [] -> inst ∈ l)
  /\ (forall fc inst l,
         filterConfig webhook = Some fc -> instanceName = Some inst -> inst ≠ "" ->
         excludeInstances fc = Some l -> inst ∉ l).
Proof.
  unfold passesFilters. intros H. apply andb_true_iff in H as [He Hi].
  split; [|split].
  - intros evs Hevs Hne. rewrite Hevs in He.
    apply negb_true_iff, andb_false_iff in He as [He|He].
    + apply Z.ltb_ge in He. unfold Js.length in He.
      destruct evs; [contradiction | simpl in He; lia].
    + apply negb_false_iff, bool_decide_eq_true in He. exact He.
  - intros fc inst l Hfc Hinst Hne Hl Hlne. rewrite Hfc, Hinst in Hi.
    assert (Ht : Js.truthy (Some inst) = true).
    { simpl. destruct (String.eqb_spec inst ""); [contradiction | reflexivity]. }
    rewrite Ht, Hl in Hi. apply andb_true_iff in Hi as [Hi _].
    apply negb_true_iff, andb_false_iff in Hi as [Hi|Hi].
    + apply Z.ltb_ge in Hi. unfold Js.length in Hi.
      destruct l; [contradiction | simpl in Hi; lia].
    + apply negb_false_iff, bool_decide_eq_true in Hi. exact Hi.
  - intros fc inst l Hfc Hinst Hne Hl. rewrite Hfc, Hinst in Hi.
    assert (Ht : Js.truthy (Some inst) = true).
    { simpl. destruct (String.eqb_spec inst ""); [contradiction | reflexivity]. }
    rewrite Ht, Hl in Hi. apply andb_true_iff in Hi as [_ Hi].
    apply negb_true_iff, andb_false_iff in Hi as [Hi|Hi].
    + apply Z.ltb_ge in Hi. unfold Js.length in Hi. intros Hin.
      destruct l; [inversion Hin | simpl in Hi; lia].
    + apply bool_decide_eq_false in Hi. exact Hi.
Qed.

(** X26: A dispatch issues a request only for a subscriber that was found and is
    enabled, that the gate admits, whose list of events, if it has members,
    holds the event, whose list of instances, if it has members, holds the
    instance, and whose list of excluded instances does not hold it; the
    request goes to the URL of the subscriber and carries the envelope
    with the event, the instance and the data as given, stamped with the
    time of the gate. *)
Theorem dispatch_requirements
    (base64 : string -> string) (jwtSign : Z -> string -> string) (D : Type)
    (lookup : Lookup) (i eventType : string) (eventData : D)
    (instanceName : option string) (respond : nat -> HttpOutcome)
    (tGate tEnd : Z) (cbs : gmap string CircuitBreakerState) (d : Dispatch D) :
  sendWebhook base64 jwtSign lookup i eventType eventData instanceName respond
    tGate tEnd cbs = Some d ->
  (0 < postsIssued d)%nat ->
  exists webhook,
    lookup = Found webhook
    /\ enabled webhook = true
    /\ fst (canExecuteWebhook i tGate cbs) = true
    /\ (forall evs, events webhook = Some evs -> evs ≠ [] -> eventType ∈ evs)
    /\ (forall fc inst l,
           filterConfig webhook = Some fc -> instanceName = Some inst -> inst ≠ "" ->
           filterInstances fc = Some l -> l ≠ [] -> inst ∈ l)
    /\ (forall fc inst l,
           filterConfig webhook = Some fc -> instanceName = Some inst -> inst ≠ "" ->
           excludeInstances fc = Some l -> inst ∉ l)
    /\ sent d
       = Some (buildRequest base64 jwtSign tGate webhook
                 (mkPayload eventType instanceName eventData tGate (id webhook)
                    (name webhook))).
Proof.
  unfold sendWebhook. intros Hsend Hposts.
  destruct lookup as [webhook| |]; try (injection Hsend as <-; simpl in Hposts; lia).
  destruct (enabled webhook) eqn:Hen; simpl in Hsend;
    [|injection Hsend as <-; simpl in Hposts; lia].
  destruct (canExecuteWebhook i tGate cbs) as [allowed cbs1] eqn:Hgate.
  destruct allowed; simpl in Hsend; [|injection Hsend as <-; simpl in Hposts; lia].
  destruct (passesFilters webhook eventType instanceName) eqn:Hfilters; simpl in Hsend;
    [|injection Hsend as <-; simpl in Hposts; lia].
  destruct (retryWebhookRequest respond (retryConfig webhook)) as [dl|] eqn:Hretry;
    [|discriminate].
  injection Hsend as <-. simpl in Hposts.
  exists webhook. split; [reflexivity|]. split; [exact Hen|]. split; [reflexivity|].
  destruct (passesFilters_true _ _ _ Hfilters) as (A & B & C).
  split; [exact A|]. split; [exact B|]. split; [exact C|].
  simpl. destruct (Nat.ltb_spec 0 (posts dl)); [reflexivity | lia].
Qed.

Lemma dispatch_requirements_witness :
  exists webhook,
    Found signedWebhook = Found webhook
    /\ enabled webhook = true
    /\ fst (canExecuteWebhook "w1" 1 ∅) = true
    /\ (forall evs, events webhook = Some evs -> evs ≠ [] -> "MESSAGES_UPSERT" ∈ evs)
    /\ (forall fc inst l,
           filterConfig webhook = Some fc -> Some "inst1" = Some inst -> inst ≠ "" ->
           filterInstances fc = Some l -> l ≠ [] -> inst ∈ l)
    /\ (forall fc inst l,
           filterConfig webhook = Some fc -> Some "inst1" = Some inst -> inst ≠ "" ->
           excludeInstances fc = Some l -> inst ∉ l)
    /\ Some (buildRequest (fun s => s) (fun _ s => s) 1 signedWebhook
               (mkPayload "MESSAGES_UPSERT" (Some "inst1") tt 1 "w1" "signed"))
       = Some (buildRequest (fun s => s) (fun _ s => s) 1 webhook
                 (mkPayload "MESSAGES_UPSERT" (Some "inst1") tt 1 (id webhook)
                    (name webhook))).
Proof.
  apply (dispatch_requirements (fun s => s) (fun _ s => s) unit (Found signedWebhook)
           "w1" "MESSAGES_UPSERT" tt (Some "inst1") (fun _ => Resolved) 1 2 ∅
           (mkDispatch (recordWebhookSuccess "w1" (snd (canExecuteWebhook "w1" 1 ∅)))
              (Some (buildRequest (fun s => s) (fun _ s => s) 1 signedWebhook
                       (mkPayload "MESSAGES_UPSERT" (Some "inst1") tt 1 "w1" "signed")))
              1)).
  - reflexivity.
  - simpl. lia.
Defined.

End WebhookMoreFacts.

(** ** Dispatches that do not overlap *)

Module BreakerRuns.
Import Webhook WebhookFacts WebhookStats WebhookRuns.

Local Open Scope string_scope.
Local Open Scope Z_scope.

Lemma timeInvariant_empty t : timeInvariant t ∅.
Proof. intros i r H. rewrite lookup_empty in H. discriminate. Qed.

Lemma timeInvariant_later t t' cbs :
  t <= t' -> timeInvariant t cbs -> timeInvariant t' cbs.
Proof. intros Ht H i r Hr Hf. specialize (H i r Hr Hf). lia. Qed.

Lemma timeInvariant_insert t cbs i r :
  timeInvariant t cbs -> (1 <= failures r -> lastFailureTime r <= t) ->
  timeInvariant t (<[i := r]> cbs).
Proof.
  intros H Hr j r' Hj. destruct (decide (j = i)) as [-> | Hne].
  - rewrite lookup_insert_eq in Hj. injection Hj as <-. exact Hr.
  - rewrite lookup_insert_ne in Hj by congruence. exact (H j r' Hj).
Qed.

Lemma timeInvariant_step t st cbs :
  clockFrom t [st] -> timeInvariant t cbs ->
  timeInvariant (clockAfter t [st]) (applyStep cbs st).
Proof.
  intros Hc H. destruct st as [i now|i|i now]; simpl in *.
  - destruct Hc as [Ht _]. apply (timeInvariant_later t now) in H; [|exact Ht].
    unfold canExecuteWebhook. destruct (cbs !! i) as [r|] eqn:E; simpl.
    + destruct (state r); simpl; try exact H.
      destruct (_ <? _); simpl; [|exact H].
      apply timeInvariant_insert; [exact H|]. simpl. exact (H i r E).
    + apply timeInvariant_insert; [exact H|]. simpl. lia.
  - unfold recordWebhookSuccess. destruct (cbs !! i); [|exact H].
    apply timeInvariant_insert; [exact H|]. simpl. lia.
  - destruct Hc as [Ht _]. apply (timeInvariant_later t now) in H; [|exact Ht].
    unfold recordWebhookFailure. apply timeInvariant_insert; [exact H|]. simpl. lia.
Qed.

Lemma timeInvariant_steps steps :
  forall t cbs,
    clockFrom t steps -> timeInvariant t cbs ->
    timeInvariant (clockAfter t steps) (runSteps steps cbs).
Proof.
  induction steps as [|st rest IH]; intros t cbs Hc H; [exact H|].
  change (runSteps (st :: rest) cbs) with (runSteps rest (applyStep cbs st)).
  destruct st as [i now|i|i now]; simpl in Hc |- *.
  - destruct Hc as [Ht Hc]. apply IH; [exact Hc|].
    apply (timeInvariant_step t (Gate i now)); simpl; auto.
  - apply IH; [exact Hc|]. apply (timeInvariant_step t (Success i)); simpl; auto.
  - destruct Hc as [Ht Hc]. apply IH; [exact Hc|].
    apply (timeInvariant_step t (Failure i now)); simpl; auto.
Qed.

Lemma runSteps_app s1 s2 cbs : runSteps (s1 ++ s2)%list cbs = runSteps s2 (runSteps s1 cbs).
Proof. unfold runSteps. apply fold_left_app. Qed.

Lemma runSteps_other i steps :
  forall cbs,
    (forall st, st ∈ steps -> stepId st ≠ i) -> runSteps steps cbs !! i = cbs !! i.
Proof.
  induction steps as [|st rest IH]; intros cbs H; [reflexivity|].
  change (runSteps (st :: rest) cbs) with (runSteps rest (applyStep cbs st)).
  rewrite IH by (intros st' Hin; apply H; right; exact Hin).
  apply WebhookMoreFacts.applyStep_other. apply H. left.
Qed.

Section Runs.
Variable base64 : string -> string.
Variable jwtSign : Z -> string -> string.
Variable D : Type.

(** The breakers after a call are reached by at most two steps of its
    subscriber, at the clock readings of the call. *)
Lemma sendWebhook_as_steps lookup i eventType (eventData : D) instanceName respond
      tGate tEnd cbs d :
  tGate <= tEnd ->
  sendWebhook base64 jwtSign lookup i eventType eventData instanceName respond
    tGate tEnd cbs = Some d ->
  exists steps,
    breakers d = runSteps steps cbs
    /\ clockFrom tGate steps
    /\ clockAfter tGate steps <= tEnd
    /\ (forall st, st ∈ steps -> stepId st = i).
Proof.
  intros Hte Hsend. rewrite sendWebhook_start_finish in Hsend.
  destruct (startSendWebhook_steps D lookup i eventType eventData instanceName
              tGate tEnd cbs) as (s1 & Hs1 & Hshape).
  destruct (startSendWebhook lookup i eventType eventData instanceName tGate tEnd cbs)
    as [cbs1 started]. simpl in Hs1. subst cbs1.
  assert (Hfirst : clockFrom tGate s1 /\ clockAfter tGate s1 <= tEnd
                   /\ tGate <= clockAfter tGate s1
                   /\ (forall st, st ∈ s1 -> stepId st = i)).
  { destruct Hshape as [-> | [-> | ->]]; simpl; repeat split; try lia;
      intros st Hin; try (inversion Hin; fail);
      apply list_elem_of_singleton in Hin; subst st; reflexivity. }
  destruct Hfirst as (Hc1 & Ha1 & Hb1 & Hid1).
  destruct started as [started|].
  - apply finishSendWebhook_steps in Hsend as [Hd|Hd].
    + exists (s1 ++ [Success i])%list. rewrite runSteps_app. split; [exact Hd|].
      destruct Hshape as [-> | [-> | ->]]; simpl; repeat split; try lia;
        intros st Hin; repeat (apply elem_of_cons in Hin as [-> | Hin]; [reflexivity|]);
        inversion Hin.
    + exists (s1 ++ [Failure i tEnd])%list. rewrite runSteps_app. split; [exact Hd|].
      destruct Hshape as [-> | [-> | ->]]; simpl; repeat split; try lia;
        intros st Hin; repeat (apply elem_of_cons in Hin as [-> | Hin]; [reflexivity|]);
        inversion Hin.
  - injection Hsend as <-. exists s1. simpl. auto.
Qed.

Lemma sendWebhook_timeInvariant lookup i eventType (eventData : D) instanceName respond
      t tGate tEnd cbs d :
  timeInvariant t cbs -> t <= tGate -> tGate <= tEnd ->
  sendWebhook base64 jwtSign lookup i eventType eventData instanceName respond
    tGate tEnd cbs = Some d ->
  timeInvariant tEnd (breakers d).
Proof.
  intros H Ht Hte Hsend.
  destruct (sendWebhook_as_steps _ _ _ _ _ _ _ _ _ _ Hte Hsend)
    as (steps & -> & Hclock & Hafter & _).
  apply (timeInvariant_later (clockAfter tGate steps)); [exact Hafter|].
  apply timeInvariant_steps; [exact Hclock|].
  apply (timeInvariant_later t); assumption.
Qed.

Lemma sendWebhook_other lookup i j eventType (eventData : D) instanceName respond
      tGate tEnd cbs d :
  j ≠ i -> tGate <= tEnd ->
  sendWebhook base64 jwtSign lookup j eventType eventData instanceName respond
    tGate tEnd cbs = Some d ->
  breakers d !! i = cbs !! i.
Proof.
  intros Hne Hte Hsend.
  destruct (sendWebhook_as_steps _ _ _ _ _ _ _ _ _ _ Hte Hsend)
    as (steps & -> & _ & _ & Hid).
  apply runSteps_other. intros st Hin. rewrite (Hid st Hin). exact Hne.
Qed.

(** A dispatch on an open circuit within the cooldown issues no request and
    leaves the record open with at least as many failures, none of them
    earlier than the last one. *)
Lemma denied_dispatch lookup i eventType (eventData : D) instanceName respond
      t tGate tEnd cbs r d :
  breakerInvariant t cbs -> timeInvariant t cbs -> t <= tGate -> tGate <= tEnd ->
  cbs !! i = Some r -> CIRCUIT_BREAKER_THRESHOLD <= failures r ->
  tGate - lastFailureTime r <= CIRCUIT_BREAKER_TIMEOUT ->
  sendWebhook base64 jwtSign lookup i eventType eventData instanceName respond
    tGate tEnd cbs = Some d ->
  postsIssued d = 0%nat /\ sent d = None
  /\ exists r',
      breakers d !! i = Some r'
      /\ CIRCUIT_BREAKER_THRESHOLD <= failures r'
      /\ lastFailureTime r <= lastFailureTime r'.
Proof.
  intros Hinv Htime Ht Hte Hr Hf Hcool Hsend.
  pose proof (gate_denies t tGate cbs i r Hinv Ht Hr Hf Hcool) as Hgate.
  unfold sendWebhook in Hsend. rewrite Hgate in Hsend.
  assert (Hlast : lastFailureTime r <= t).
  { apply (Htime i r Hr). unfold CIRCUIT_BREAKER_THRESHOLD in Hf. lia. }
  destruct lookup as [webhook| |].
  - destruct (enabled webhook); simpl in Hsend; injection Hsend as <-; simpl;
      (split; [reflexivity|]); (split; [reflexivity|]); exists r; repeat split;
      auto; lia.
  - injection Hsend as <-. simpl. split; [reflexivity|]. split; [reflexivity|].
    exists r. repeat split; auto; lia.
  - injection Hsend as <-. simpl. split; [reflexivity|]. split; [reflexivity|].
    exists (mkBreaker (failures r + 1) tEnd OPEN).
    split; [apply failure_on_open_circuit; assumption|]. simpl.
    unfold CIRCUIT_BREAKER_THRESHOLD in *. split; lia.
Qed.

Lemma run_total calls :
  forall cbs, exists ds, runDispatches base64 jwtSign D calls cbs = Some ds.
Proof.
  induction calls as [|c rest IH]; intros cbs; simpl; [eauto|].
  destruct (sendWebhook_records base64 jwtSign D (callLookup c) (callId c) (callEvent c)
              (callData c) (callInstance c) (callRespond c) (callGate c) (callEnd c) cbs)
    as (d & -> & _).
  destruct (IH (breakers d)) as (ds & ->). eauto.
Qed.

Lemma callsClock_lookup (calls : list (DispatchCall D)) :
  forall t k c, callsClock t calls -> calls !! k = Some c -> t <= callGate c.
Proof.
  induction calls as [|c0 rest IH]; intros t k c Hc Hk; [discriminate|].
  destruct Hc as (H1 & H2 & H3). destruct k as [|k]; simpl in Hk.
  - injection Hk as <-. exact H1.
  - specialize (IH _ _ _ H3 Hk). lia.
Qed.

(** Along calls that do not overlap, a dispatch to a subscriber whose
    circuit is open issues no request as long as its gate check is within
    the window [W] of the cooldown. *)
Lemma run_safety i W calls :
  forall t cbs r ds,
    breakerInvariant t cbs -> timeInvariant t cbs -> callsClock t calls ->
    cbs !! i = Some r -> CIRCUIT_BREAKER_THRESHOLD <= failures r ->
    W <= lastFailureTime r + CIRCUIT_BREAKER_TIMEOUT ->
    runDispatches base64 jwtSign D calls cbs = Some ds ->
    forall k c d,
      calls !! k = Some c -> ds !! k = Some d -> callId c = i -> callGate c <= W ->
      postsIssued d = 0%nat /\ sent d = None.
Proof.
  induction calls as [|c0 rest IH]; intros t cbs r ds Hinv Htime Hclock Hr Hf HW Hrun
    k c d Hk Hd Hid Hgate; [discriminate|].
  simpl in Hrun. destruct Hclock as (Ht & Hte & Hrest).
  destruct (sendWebhook base64 jwtSign (callLookup c0) (callId c0) (callEvent c0)
              (callData c0) (callInstance c0) (callRespond c0) (callGate c0)
              (callEnd c0) cbs) as [d0|] eqn:Hsend; [|discriminate].
  destruct (runDispatches base64 jwtSign D rest (breakers d0)) as [ds'|] eqn:Hrun';
    [|discriminate].
  injection Hrun as <-.
  destruct k as [|k]; simpl in Hk, Hd.
  - injection Hk as <-. injection Hd as <-. subst i.
    destruct (denied_dispatch _ _ _ _ _ _ t _ _ cbs r d0 Hinv Htime Ht Hte Hr Hf
                ltac:(lia) Hsend) as (Hp & Hs & _).
    auto.
  - pose proof (callsClock_lookup rest _ _ _ Hrest Hk) as Hlater.
    pose proof (sendWebhook_invariant base64 jwtSign D _ _ _ _ _ _ t _ _ cbs d0
                  Hinv Ht Hte Hsend) as Hinv'.
    pose proof (sendWebhook_timeInvariant _ _ _ _ _ _ t _ _ cbs d0
                  Htime Ht Hte Hsend) as Htime'.
    destruct (decide (callId c0 = i)) as [Hsame|Hother].
    + rewrite Hsame in Hsend.
      destruct (denied_dispatch _ _ _ _ _ _ t _ _ cbs r d0 Hinv Htime Ht Hte Hr Hf
                  ltac:(lia) Hsend) as (_ & _ & r' & Hr' & Hf' & Hl').
      apply (IH (callEnd c0) (breakers d0) r' ds' Hinv' Htime' Hrest Hr' Hf'
               ltac:(lia) Hrun' k c d Hk Hd Hid Hgate).
    + assert (Hr' : breakers d0 !! i = Some r).
      { rewrite (sendWebhook_other _ i (callId c0) _ _ _ _ _ _ cbs d0
                   ltac:(congruence) Hte Hsend).
        exact Hr. }
      apply (IH (callEnd c0) (breakers d0) r ds' Hinv' Htime' Hrest Hr' Hf HW Hrun'
               k c d Hk Hd Hid Hgate).
Qed.

End Runs.



End BreakerRuns.
